(** * The Slab memory context of src/backend/utils/mmgr/slab.c

    A shallow embedding of the slab allocator: contexts, blocks, the
    per-context array of block lists ([freelist]), the free list threaded
    through the unused chunks of a block, and the operations SlabContextCreate,
    SlabAlloc, SlabFree, SlabRealloc, SlabReset, SlabDelete and the queries.

    The embedding follows the production build: the code under
    MEMORY_CONTEXT_CHECKING, CLOBBER_FREED_MEMORY and RANDOMIZE_ALLOCATED_MEMORY
    is absent, the Valgrind requests are no-ops and [Assert] is not executed.
    Asserted conditions appear below as consequences of the state invariant. *)

From stdpp Require Import gmap list.
From Stdlib Require Import ZArith Lia.

Local Open Scope Z_scope.
#[local] Set Warnings "-clear-no-such-hyp".

(** ** Machine integers *)

(** [int] is 32 bits wide and PostgreSQL is built with wrapping signed
    arithmetic; [Size] is an unsigned 64-bit integer. *)
Definition INT_MAX : Z := 2147483647.
Definition INT_MIN : Z := -2147483648.
Definition to_int (z : Z) : Z := (z + 2147483648) mod 4294967296 - 2147483648.
Definition SIZE_MODULUS : Z := 18446744073709551616.
Definition to_size (z : Z) : Z := z mod SIZE_MODULUS.

(** Modelled from the spec: the macro TYPEALIGN of c.h, which is not among
    the sources; the spec calls its instance at the platform's strictest
    scalar alignment max_align.  It rounds [len] up to the next multiple of
    [alignval]. *)
Definition TYPEALIGN (alignval len : Z) : Z := (len + (alignval - 1)) / alignval * alignval.

(** ** Platform layout

    The sizes of the structures and the constants of the chunk-header service
    come from headers that are not among the sources; they are parameters. *)
Class Layout := {
  sizeof_SlabBlock : Z;        (* sizeof(SlabBlock) *)
  Slab_CHUNKHDRSZ : Z;         (* sizeof(MemoryChunk) *)
  sizeof_int : Z;              (* sizeof(int) *)
  sizeof_dlist_head : Z;       (* sizeof(dlist_head) *)
  offsetof_freelist : Z;       (* offsetof(SlabContext, freelist) *)
  MAXIMUM_ALIGNOF : Z;
  MEMORYCHUNK_MAX_VALUE : Z;
  sizeof_SlabBlock_pos : 0 < sizeof_SlabBlock;
  Slab_CHUNKHDRSZ_pos : 0 < Slab_CHUNKHDRSZ;
  sizeof_int_pos : 0 < sizeof_int;
  MAXIMUM_ALIGNOF_pos : 0 < MAXIMUM_ALIGNOF;
  (* StaticAssertStmt(Slab_CHUNKHDRSZ == MAXALIGN(Slab_CHUNKHDRSZ)) *)
  Slab_CHUNKHDRSZ_aligned : Slab_CHUNKHDRSZ = TYPEALIGN MAXIMUM_ALIGNOF Slab_CHUNKHDRSZ;
  (* the smallest chunk is representable in a chunk header *)
  sizeof_int_fits : TYPEALIGN MAXIMUM_ALIGNOF sizeof_int ≤ MEMORYCHUNK_MAX_VALUE;
  (* a chunk of the largest representable size, with the headers, is addressable *)
  MEMORYCHUNK_MAX_VALUE_fits :
    sizeof_SlabBlock + Slab_CHUNKHDRSZ + MEMORYCHUNK_MAX_VALUE < SIZE_MODULUS;
}.

Section Slab.
Context `{Layout}.

Definition MAXALIGN (len : Z) : Z := TYPEALIGN MAXIMUM_ALIGNOF len.

(** ** Data model *)

(** Modelled from the spec: the tag of memutils_internal.h that names the
    kind of context owning a chunk. *)
Inductive MemoryContextMethodID := MCTX_ASET_ID | MCTX_GENERATION_ID | MCTX_SLAB_ID.

(** Modelled from the spec: the chunk header of memutils_memorychunk.h packs
    the block a chunk lives in, a value (here the aligned chunk size) and the
    context tag, and gives each of them back. *)
Record MemoryChunk := mkMemoryChunk {
  hdr_block : Z;
  hdr_value : Z;
  hdr_methodid : MemoryContextMethodID;
}.

(** struct SlabBlock, without its list node: membership of a block in a
    list of [freelist] is its node being linked there. *)
Record SlabBlock := mkSlabBlock {
  nfree : Z;           (* number of free chunks *)
  firstFreeChunk : Z;  (* index of the first free chunk in the block *)
  slab : Z;            (* owning context *)
}.

(** struct SlabContext; of the MemoryContextData header only mem_allocated
    is kept.  A dlist is the list of the addresses of the blocks linked into
    it, head first. *)
Record SlabContext := mkSlabContext {
  mem_allocated : Z;
  chunkSize : Z;
  fullChunkSize : Z;
  blockSize : Z;
  headerSize : Z;
  chunksPerBlock : Z;
  minFreeChunks : Z;
  nblocks : Z;
  freelist : list (list Z);
}.

Definition set_mem_allocated (v : Z) (s : SlabContext) : SlabContext :=
  mkSlabContext v (chunkSize s) (fullChunkSize s) (blockSize s) (headerSize s)
    (chunksPerBlock s) (minFreeChunks s) (nblocks s) (freelist s).
Definition set_minFreeChunks (v : Z) (s : SlabContext) : SlabContext :=
  mkSlabContext (mem_allocated s) (chunkSize s) (fullChunkSize s) (blockSize s) (headerSize s)
    (chunksPerBlock s) v (nblocks s) (freelist s).
Definition set_nblocks (v : Z) (s : SlabContext) : SlabContext :=
  mkSlabContext (mem_allocated s) (chunkSize s) (fullChunkSize s) (blockSize s) (headerSize s)
    (chunksPerBlock s) (minFreeChunks s) v (freelist s).
Definition set_freelist (v : list (list Z)) (s : SlabContext) : SlabContext :=
  mkSlabContext (mem_allocated s) (chunkSize s) (fullChunkSize s) (blockSize s) (headerSize s)
    (chunksPerBlock s) (minFreeChunks s) (nblocks s) v.

(** The memory the allocator works on.  [regions] is the table of the system
    allocator (address and size of every region handed out by malloc and not
    yet freed); the other maps are the typed contents of memory, by address:
    context headers, block headers, chunk headers, and the int32 stored at the
    start of a chunk's payload. *)
Record State := mkState {
  regions : gmap Z Z;
  contexts : gmap Z SlabContext;
  blocks : gmap Z SlabBlock;
  chunkhdrs : gmap Z MemoryChunk;
  words : gmap Z Z;
}.

Definition set_regions (v : gmap Z Z) (st : State) : State :=
  mkState v (contexts st) (blocks st) (chunkhdrs st) (words st).
Definition set_contexts (v : gmap Z SlabContext) (st : State) : State :=
  mkState (regions st) v (blocks st) (chunkhdrs st) (words st).
Definition set_blocks (v : gmap Z SlabBlock) (st : State) : State :=
  mkState (regions st) (contexts st) v (chunkhdrs st) (words st).
Definition set_chunkhdrs (v : gmap Z MemoryChunk) (st : State) : State :=
  mkState (regions st) (contexts st) (blocks st) v (words st).
Definition set_words (v : gmap Z Z) (st : State) : State :=
  mkState (regions st) (contexts st) (blocks st) (chunkhdrs st) v.

Definition empty_State : State := mkState ∅ ∅ ∅ ∅ ∅.

(** ** Outcomes

    elog(ERROR) leaves the function through the host's error mechanism:
    [Raised] carries the error and the memory at the time of the raise.
    [Undefined] stands for what C leaves undefined: a read through a pointer
    to nothing, an index outside [freelist], a free of what malloc never
    returned. *)
Inductive ErrorKind :=
  | BlockGeometryInvalid
  | HeaderAllocFailed
  | UnexpectedAllocChunkSize
  | ReallocUnsupported.

Inductive outcome (A : Type) :=
  | Done (a : A) (st : State)
  | Raised (e : ErrorKind) (st : State)
  | Undefined.
Global Arguments Done {A} a st.
Global Arguments Raised {A} e st.
Global Arguments Undefined {A}.

(** ** The system allocator

    malloc either fails or returns the address [a] chosen by the
    environment; the choice is an argument of every function that calls
    malloc.  [malloc_fresh] is what the C library promises about it. *)
Definition malloc (m : option Z) (size : Z) (st : State) : option Z * State :=
  match m with
  | None => (None, st)
  | Some a => (Some a, set_regions (<[a := size]> (regions st)) st)
  end.

Definition free (a : Z) (st : State) : option State :=
  match regions st !! a with
  | Some _ => Some (set_regions (delete a (regions st)) st)
  | None => None
  end.

Definition malloc_fresh (st : State) (a size : Z) : Prop :=
  0 < a ∧ regions st !! a = None ∧
  map_Forall (λ a' size', a + size ≤ a' ∨ a' + size' ≤ a) (regions st).

Definition malloc_valid (st : State) (m : option Z) (size : Z) : Prop :=
  match m with None => True | Some a => malloc_fresh st a size end.

(** ** Address arithmetic (the macros of slab.c) *)

Definition SlabPointerGetChunk (ptr : Z) : Z := ptr - Slab_CHUNKHDRSZ.
Definition SlabChunkGetPointer (chk : Z) : Z := chk + Slab_CHUNKHDRSZ.
Definition SlabBlockGetChunk (s : SlabContext) (block idx : Z) : Z :=
  block + sizeof_SlabBlock + idx * fullChunkSize s.
Definition SlabBlockStart (block : Z) : Z := block + sizeof_SlabBlock.
Definition SlabChunkIndex (s : SlabContext) (block chunk : Z) : Z :=
  (chunk - SlabBlockStart block) / fullChunkSize s.

(** Modelled from the spec: PointerGetMemoryChunk and MemoryChunkGetPointer of
    memutils_memorychunk.h step over the chunk header, as the two macros above. *)
Definition PointerGetMemoryChunk (ptr : Z) : Z := ptr - Slab_CHUNKHDRSZ.
Definition MemoryChunkGetPointer (chk : Z) : Z := chk + Slab_CHUNKHDRSZ.

(** Modelled from the spec: MemoryChunkSetHdrMask writes the header of the
    chunk at [chunk]; MemoryChunkGetBlock reads the block back from it. *)
Definition MemoryChunkSetHdrMask (chunk block value : Z) (id : MemoryContextMethodID)
    (st : State) : State :=
  set_chunkhdrs (<[chunk := mkMemoryChunk block value id]> (chunkhdrs st)) st.
Definition MemoryChunkGetBlock (chunk : Z) (st : State) : option Z :=
  hdr_block <$> chunkhdrs st !! chunk.

(** ** Doubly-linked lists (lib/ilist.h) *)

(** [&slab->freelist[k]]: outside the array there is no list. *)
Definition bucket (fl : list (list Z)) (k : Z) : option (list Z) :=
  if decide (0 ≤ k) then fl !! Z.to_nat k else None.

Definition dlist_is_empty (l : list Z) : bool :=
  match l with [] => true | _ => false end.

Definition dlist_head_element (l : list Z) : option Z := head l.

Definition dlist_push_head (fl : list (list Z)) (k : Z) (node : Z) : option (list (list Z)) :=
  match bucket fl k with
  | Some l => Some (<[Z.to_nat k := node :: l]> fl)
  | None => None
  end.

(** dlist_delete unlinks a node from the list it is in, whichever it is. *)
Definition dlist_delete (node : Z) (fl : list (list Z)) : list (list Z) :=
  map (filter (λ x, x ≠ node)) fl.

(** ** SlabContextCreate *)

(** Modelled from the spec: MemoryContextCreate of mcxt.c registers the new
    context with its parent and starts its accounting; of that, the model
    keeps [mem_allocated = 0] (invariant 4 of the spec at creation).  The
    parent and the name play no part in what follows and are left out. *)
Definition MemoryContextCreate (s : SlabContext) : SlabContext := set_mem_allocated 0 s.

Definition SlabContextCreate (m : option Z) (blockSize0 chunkSize0 : Z) (st : State)
    : outcome Z :=
  (* Make sure the linked list node fits inside a freed chunk *)
  let chunkSize1 := if decide (chunkSize0 < sizeof_int) then sizeof_int else chunkSize0 in
  let fullChunkSize1 := to_size (Slab_CHUNKHDRSZ + MAXALIGN chunkSize1) in
  (* Make sure the block can store at least one chunk. *)
  if decide (blockSize0 < to_size (fullChunkSize1 + sizeof_SlabBlock))
  then Raised BlockGeometryInvalid st
  else
    let chunksPerBlock1 := to_int (to_size (blockSize0 - sizeof_SlabBlock) / fullChunkSize1) in
    let freelistSize := to_size (sizeof_dlist_head * to_int (chunksPerBlock1 + 1)) in
    let headerSize1 := to_size (offsetof_freelist + freelistSize) in
    match malloc m headerSize1 st with
    | (None, st1) => Raised HeaderAllocFailed st1
    | (Some a, st1) =>
        let s := mkSlabContext 0 chunkSize1 fullChunkSize1 blockSize0 headerSize1
                   chunksPerBlock1 0 0
                   (replicate (Z.to_nat (to_int (chunksPerBlock1 + 1))) []) in
        Done a (set_contexts (<[a := MemoryContextCreate s]> (contexts st1)) st1)
    end.

(** ** SlabAlloc *)

(** The loop that threads the free list through a new block: chunk [idx]
    points to chunk [idx + 1]. *)
Fixpoint SlabAlloc_init_chunks (n : nat) (idx : Z) (s : SlabContext) (block : Z)
    (w : gmap Z Z) : gmap Z Z :=
  match n with
  | O => w
  | S n' =>
      SlabAlloc_init_chunks n' (idx + 1) s block
        (<[MemoryChunkGetPointer (SlabBlockGetChunk s block idx) := to_int (idx + 1)]> w)
  end.

(** The body of [if (slab->minFreeChunks == 0)] once malloc has returned
    [block]. *)
Definition SlabAlloc_new_block (context : Z) (s : SlabContext) (block : Z) (st : State)
    : option (SlabContext * State) :=
  let st := set_blocks (<[block := mkSlabBlock (chunksPerBlock s) 0 context]> (blocks st)) st in
  let st := set_words
              (SlabAlloc_init_chunks (Z.to_nat (chunksPerBlock s)) 0 s block (words st)) st in
  match dlist_push_head (freelist s) (chunksPerBlock s) block with
  | None => None
  | Some fl =>
      Some (set_mem_allocated (to_size (mem_allocated s + blockSize s))
              (set_nblocks (to_int (nblocks s + 1))
                 (set_minFreeChunks (chunksPerBlock s) (set_freelist fl s))),
            st)
  end.

(** The walk over [freelist] for the first list that is not empty, from
    [idx] on, [n] lists at most; [mfc] is kept when there is none. *)
Fixpoint SlabAlloc_rescan (n : nat) (idx : Z) (fl : list (list Z)) (mfc : Z) : option Z :=
  match n with
  | O => Some mfc
  | S n' =>
      match bucket fl idx with
      | None => None
      | Some l => if dlist_is_empty l then SlabAlloc_rescan n' (idx + 1) fl mfc else Some idx
      end
  end.

(** SlabAlloc from "grab the block from the freelist" on. *)
Definition SlabAlloc_take (context : Z) (s : SlabContext) (st : State) : outcome (option Z) :=
  match bucket (freelist s) (minFreeChunks s) ≫= dlist_head_element with
  | None => Undefined
  | Some block =>
    match blocks st !! block with
    | None => Undefined
    | Some b =>
      let idx := firstFreeChunk b in
      let chunk := SlabBlockGetChunk s block idx in
      let nfree' := to_int (nfree b - 1) in
      match words st !! MemoryChunkGetPointer chunk with
      | None => Undefined
      | Some next =>
        let b' := mkSlabBlock nfree' next (slab b) in
        (* move the whole block to the right place in the freelist *)
        match dlist_push_head (dlist_delete block (freelist s)) nfree' block with
        | None => Undefined
        | Some fl =>
          match (if decide (nfree' = 0)
                 then SlabAlloc_rescan (Z.to_nat (chunksPerBlock s)) 1 fl nfree'
                 else Some nfree') with
          | None => Undefined
          | Some mfc =>
            let mfc := if decide (mfc = chunksPerBlock s) then 0 else mfc in
            let s' := set_minFreeChunks mfc (set_freelist fl s) in
            let st := set_blocks (<[block := b']> (blocks st)) st in
            let st := MemoryChunkSetHdrMask chunk block (MAXALIGN (chunkSize s)) MCTX_SLAB_ID st in
            Done (Some (MemoryChunkGetPointer chunk))
                 (set_contexts (<[context := s']> (contexts st)) st)
          end
        end
      end
    end
  end.

Definition SlabAlloc (m : option Z) (context size : Z) (st : State) : outcome (option Z) :=
  match contexts st !! context with
  | None => Undefined
  | Some s =>
    (* make sure we only allow correct request size *)
    if decide (size ≠ chunkSize s) then Raised UnexpectedAllocChunkSize st
    else if decide (minFreeChunks s = 0) then
      match malloc m (blockSize s) st with
      | (None, st1) => Done None st1
      | (Some block, st1) =>
          match SlabAlloc_new_block context s block st1 with
          | None => Undefined
          | Some (s1, st2) => SlabAlloc_take context s1 st2
          end
      end
    else SlabAlloc_take context s st
  end.

(** ** SlabFree *)

(** free() of a block: the region goes back to the system allocator and the
    block header is no longer memory of the program. *)
Definition free_SlabBlock (block : Z) (st : State) : option State :=
  match free block st with
  | Some st' => Some (set_blocks (delete block (blocks st')) st')
  | None => None
  end.

(** The update of minFreeChunks in SlabFree, after the block has left its
    list: [nfree'] is the block's new count. *)
Definition SlabFree_minFreeChunks (s : SlabContext) (fl : list (list Z)) (nfree' : Z)
    : option Z :=
  if decide (minFreeChunks s = to_int (nfree' - 1)) then
    match bucket fl (minFreeChunks s) with
    | None => None
    | Some l =>
        if dlist_is_empty l then
          if decide (nfree' = chunksPerBlock s) then Some 0
          else Some (to_int (minFreeChunks s + 1))
        else Some (minFreeChunks s)
    end
  else Some (minFreeChunks s).

Definition SlabFree (pointer : Z) (st : State) : outcome unit :=
  let chunk := PointerGetMemoryChunk pointer in
  match MemoryChunkGetBlock chunk st with
  | None => Undefined
  | Some block =>
    match blocks st !! block with
    | None => Undefined
    | Some b =>
      match contexts st !! slab b with
      | None => Undefined
      | Some s =>
        (* compute index of the chunk with respect to block start *)
        let idx := to_int (SlabChunkIndex s block chunk) in
        (* add chunk to freelist, and update block nfree count *)
        let st := set_words (<[pointer := firstFreeChunk b]> (words st)) st in
        let b' := mkSlabBlock (to_int (nfree b + 1)) idx (slab b) in
        let st := set_blocks (<[block := b']> (blocks st)) st in
        (* remove the block from a freelist *)
        let fl := dlist_delete block (freelist s) in
        match SlabFree_minFreeChunks s fl (nfree b') with
        | None => Undefined
        | Some mfc =>
          let s := set_minFreeChunks mfc (set_freelist fl s) in
          (* If the block is now completely empty, free it. *)
          if decide (nfree b' = chunksPerBlock s) then
            match free_SlabBlock block st with
            | None => Undefined
            | Some st =>
                let s := set_mem_allocated (to_size (mem_allocated s - blockSize s))
                           (set_nblocks (to_int (nblocks s - 1)) s) in
                Done () (set_contexts (<[slab b := s]> (contexts st)) st)
            end
          else
            match dlist_push_head fl (nfree b') block with
            | None => Undefined
            | Some fl' =>
                Done () (set_contexts (<[slab b := set_freelist fl' s]> (contexts st)) st)
            end
        end
      end
    end
  end.

(** ** SlabReset and SlabDelete *)

(** The body of dlist_foreach_modify over the nodes of one list. *)
Fixpoint SlabReset_blocks (nodes : list Z) (s : SlabContext) (st : State)
    : option (SlabContext * State) :=
  match nodes with
  | [] => Some (s, st)
  | block :: rest =>
      let s := set_freelist (dlist_delete block (freelist s)) s in
      match free_SlabBlock block st with
      | None => None
      | Some st =>
          SlabReset_blocks rest
            (set_mem_allocated (to_size (mem_allocated s - blockSize s))
               (set_nblocks (to_int (nblocks s - 1)) s))
            st
      end
  end.

(** The walk over freelist[i], freelist[i + 1], ..., [n] lists in all. *)
Fixpoint SlabReset_freelists (n : nat) (i : Z) (s : SlabContext) (st : State)
    : option (SlabContext * State) :=
  match n with
  | O => Some (s, st)
  | S n' =>
      match bucket (freelist s) i with
      | None => None
      | Some nodes =>
          match SlabReset_blocks nodes s st with
          | None => None
          | Some (s', st') => SlabReset_freelists n' (i + 1) s' st'
          end
      end
  end.

Definition SlabReset (context : Z) (st : State) : outcome unit :=
  match contexts st !! context with
  | None => Undefined
  | Some s =>
      match SlabReset_freelists (Z.to_nat (chunksPerBlock s + 1)) 0 s st with
      | None => Undefined
      | Some (s', st') =>
          Done () (set_contexts (<[context := set_minFreeChunks 0 s']> (contexts st')) st')
      end
  end.

Definition SlabDelete (context : Z) (st : State) : outcome unit :=
  match SlabReset context st with
  | Done _ st1 =>
      (* And free the context header *)
      match free context st1 with
      | None => Undefined
      | Some st2 => Done () (set_contexts (delete context (contexts st2)) st2)
      end
  | Raised e st1 => Raised e st1
  | Undefined => Undefined
  end.

(** ** SlabRealloc and the queries *)

(** The owning context of the chunk behind [pointer], as the three lines that
    open SlabFree, SlabRealloc, SlabGetChunkContext and SlabGetChunkSpace find
    it: chunk header, block, block->slab. *)
Definition chunk_slab (pointer : Z) (st : State) : option (Z * SlabContext) :=
  match MemoryChunkGetBlock (PointerGetMemoryChunk pointer) st with
  | None => None
  | Some block =>
    match blocks st !! block with
    | None => None
    | Some b =>
      match contexts st !! slab b with
      | None => None
      | Some s => Some (slab b, s)
      end
    end
  end.

Definition SlabRealloc (pointer size : Z) (st : State) : outcome Z :=
  match chunk_slab pointer st with
  | None => Undefined
  | Some (_, s) =>
      (* can't do actual realloc with slab, but let's try to be gentle *)
      if decide (size = chunkSize s) then Done pointer st
      else Raised ReallocUnsupported st
  end.

Definition SlabGetChunkContext (pointer : Z) (st : State) : outcome Z :=
  match chunk_slab pointer st with
  | None => Undefined
  | Some (context, _) => Done context st
  end.

Definition SlabGetChunkSpace (pointer : Z) (st : State) : outcome Z :=
  match chunk_slab pointer st with
  | None => Undefined
  | Some (_, s) => Done (fullChunkSize s) st
  end.

Definition SlabIsEmpty (context : Z) (st : State) : outcome bool :=
  match contexts st !! context with
  | None => Undefined
  | Some s => Done (bool_decide (nblocks s = 0)) st
  end.

(** ** SlabStats *)

(** Modelled from the spec: MemoryContextCounters of memnodes.h, the
    accumulator SlabStats folds into: four counters of type Size. *)
Record MemoryContextCounters := mkMemoryContextCounters {
  counters_nblocks : Z;
  counters_freechunks : Z;
  counters_totalspace : Z;
  counters_freespace : Z
}.

(** The five numbers SlabStats hands to snprintf, in the order of the format
    string: total, blocks, free, free chunks, used. *)
Record stats_string := mk_stats_string {
  string_total : Z;
  string_blocks : Z;
  string_free : Z;
  string_chunks : Z;
  string_used : Z
}.

(** dlist_foreach over one list; [acc] holds the locals nblocks, freechunks,
    totalspace and freespace. *)
Fixpoint SlabStats_blocks (nodes : list Z) (s : SlabContext) (st : State)
    (acc : MemoryContextCounters) : option MemoryContextCounters :=
  match nodes with
  | [] => Some acc
  | block :: rest =>
      match blocks st !! block with
      | None => None
      | Some B =>
          SlabStats_blocks rest s st
            (mkMemoryContextCounters
               (to_size (counters_nblocks acc + 1))
               (to_size (counters_freechunks acc + to_size (nfree B)))
               (to_size (counters_totalspace acc + blockSize s))
               (to_size (counters_freespace acc
                         + to_size (fullChunkSize s * to_size (nfree B)))))
      end
  end.

(** The walk over freelist[i], freelist[i + 1], ..., [n] lists in all. *)
Fixpoint SlabStats_freelists (n : nat) (i : Z) (s : SlabContext) (st : State)
    (acc : MemoryContextCounters) : option MemoryContextCounters :=
  match n with
  | O => Some acc
  | S n' =>
      match bucket (freelist s) i with
      | None => None
      | Some nodes =>
          match SlabStats_blocks nodes s st acc with
          | None => None
          | Some acc' => SlabStats_freelists n' (i + 1) s st acc'
          end
      end
  end.

(** [printfunc] tells whether a print function was passed, [totals] is the
    accumulator passed, if any; the result is the line handed to the print
    function and the accumulator after the call. *)
Definition SlabStats (context : Z) (printfunc : bool) (totals : option MemoryContextCounters)
    (st : State) : outcome (option stats_string * option MemoryContextCounters) :=
  match contexts st !! context with
  | None => Undefined
  | Some s =>
      (* Include context header in totalspace *)
      match SlabStats_freelists (Z.to_nat (chunksPerBlock s + 1)) 0 s st
              (mkMemoryContextCounters 0 0 (headerSize s) 0) with
      | None => Undefined
      | Some r =>
          Done
            (if printfunc
             then Some (mk_stats_string (counters_totalspace r) (counters_nblocks r)
                          (counters_freespace r) (counters_freechunks r)
                          (to_size (counters_totalspace r - counters_freespace r)))
             else None,
             match totals with
             | None => None
             | Some t =>
                 Some (mkMemoryContextCounters
                         (to_size (counters_nblocks t + counters_nblocks r))
                         (to_size (counters_freechunks t + counters_freechunks r))
                         (to_size (counters_totalspace t + counters_totalspace r))
                         (to_size (counters_freespace t + counters_freespace r)))
             end) st
      end
  end.

(** ** The walk of SlabCheck over a block's free list

    [while (idx < slab->chunksPerBlock)]: every index met is recorded, then
    the index stored in that chunk is read.  The result is the list of the
    indices visited and the index the loop stopped at; [fuel] bounds the
    number of iterations. *)
Fixpoint SlabCheck_walk (fuel : nat) (s : SlabContext) (block idx : Z) (w : gmap Z Z)
    : option (list Z * Z) :=
  if decide (idx < chunksPerBlock s) then
    match fuel with
    | O => None
    | S fuel' =>
        if decide (idx < 0) then None
        else
          match w !! MemoryChunkGetPointer (SlabBlockGetChunk s block idx) with
          | None => None
          | Some next =>
              match SlabCheck_walk fuel' s block next w with
              | None => None
              | Some (l, stop) => Some (idx :: l, stop)
              end
          end
    end
  else Some ([], idx).

(** ** SlabCheck

    SlabCheck is compiled with MEMORY_CONTEXT_CHECKING only.  It reads the
    lists, the block headers, the free lists inside the blocks and the chunk
    headers, and for a chunk in use it calls sentinel_ok(chunk,
    slab->chunkSize), which reads one byte.  The memory of this model
    carries no such bytes, so the answer of that call for a chunk is an
    argument, [sentinel_ok].  The bitmap slab->freechunks is the list of the
    indices set in it. *)

(** The warnings SlabCheck reports through elog(WARNING, ...), in the order
    of the source. *)
Inductive SlabCheckWarning :=
  | NfreeNotFreelist (block nfree i : Z)
      (* number of free chunks %d in block %p does not match freelist %d *)
  | BogusSlabLink (block : Z)
      (* bogus slab link in block %p *)
  | BogusBlockLink (block chunk : Z)
      (* bogus block link in block %p, chunk %p *)
  | WritePastChunkEnd (block chunk : Z)
      (* detected write past chunk end in block %p, chunk %p *)
  | NfreeNotBitmap (block nfree count : Z).
      (* number of free chunks %d in block %p does not match bitmap %d *)

(** [for (j = 0; j < slab->chunksPerBlock; j++)], from [j] on, [n] chunks in
    all; [freechunks] lists the indices set in the bitmap. *)
Fixpoint SlabCheck_chunks (n : nat) (j : Z) (s : SlabContext) (block : Z)
    (freechunks : list Z) (sentinel_ok : Z → bool) (st : State)
    : option (list SlabCheckWarning) :=
  match n with
  | O => Some []
  | S n' =>
      if decide (j ∈ freechunks) then
        SlabCheck_chunks n' (j + 1) s block freechunks sentinel_ok st
      else
        let chunk := SlabBlockGetChunk s block j in
        match MemoryChunkGetBlock chunk st with
        | None => None
        | Some chunkblock =>
            match SlabCheck_chunks n' (j + 1) s block freechunks sentinel_ok st with
            | None => None
            | Some ws =>
                Some ((if decide (chunkblock ≠ block)
                       then [BogusBlockLink block chunk] else [])
                      ++ (if decide (chunkSize s < fullChunkSize s - Slab_CHUNKHDRSZ)
                          then if sentinel_ok chunk then []
                               else [WritePastChunkEnd block chunk]
                          else [])
                      ++ ws)
            end
        end
  end.

(** The body of dlist_foreach: the checks on one block of list [i]. *)
Definition SlabCheck_block (fuel : nat) (context : Z) (s : SlabContext) (i block : Z)
    (sentinel_ok : Z → bool) (st : State) : option (list SlabCheckWarning) :=
  match blocks st !! block with
  | None => None
  | Some B =>
      match SlabCheck_walk fuel s block (firstFreeChunk B) (words st) with
      | None => None
      | Some (freechunks, _) =>
          let nfree' := to_int (Z.of_nat (length freechunks)) in
          match SlabCheck_chunks (Z.to_nat (chunksPerBlock s)) 0 s block freechunks
                  sentinel_ok st with
          | None => None
          | Some ws =>
              Some ((if decide (nfree B ≠ i) then [NfreeNotFreelist block (nfree B) i] else [])
                    ++ (if decide (slab B ≠ context) then [BogusSlabLink block] else [])
                    ++ ws
                    ++ (if decide (nfree' ≠ nfree B)
                        then [NfreeNotBitmap block (nfree B) nfree'] else []))
          end
      end
  end.

Fixpoint SlabCheck_blocks (fuel : nat) (context : Z) (s : SlabContext) (i : Z)
    (nodes : list Z) (sentinel_ok : Z → bool) (st : State)
    : option (list SlabCheckWarning) :=
  match nodes with
  | [] => Some []
  | block :: rest =>
      match SlabCheck_block fuel context s i block sentinel_ok st with
      | None => None
      | Some ws =>
          match SlabCheck_blocks fuel context s i rest sentinel_ok st with
          | None => None
          | Some ws' => Some (ws ++ ws')
          end
      end
  end.

(** The walk over freelist[i], freelist[i + 1], ..., [n] lists in all. *)
Fixpoint SlabCheck_freelists (fuel n : nat) (context : Z) (s : SlabContext) (i : Z)
    (sentinel_ok : Z → bool) (st : State) : option (list SlabCheckWarning) :=
  match n with
  | O => Some []
  | S n' =>
      match bucket (freelist s) i with
      | None => None
      | Some nodes =>
          match SlabCheck_blocks fuel context s i nodes sentinel_ok st with
          | None => None
          | Some ws =>
              match SlabCheck_freelists fuel n' context s (i + 1) sentinel_ok st with
              | None => None
              | Some ws' => Some (ws ++ ws')
              end
          end
      end
  end.

(** [fuel] bounds the walk over the free list of each block. *)
Definition SlabCheck (fuel : nat) (sentinel_ok : Z → bool) (context : Z) (st : State)
    : outcome (list SlabCheckWarning) :=
  match contexts st !! context with
  | None => Undefined
  | Some s =>
      match SlabCheck_freelists fuel (Z.to_nat (chunksPerBlock s + 1)) context s 0
              sentinel_ok st with
      | None => Undefined
      | Some ws => Done ws st
      end
  end.

(** Consecutive calls of SlabAlloc, one per element of [ms] (the answers of
    malloc, should it be called). *)
Fixpoint SlabAlloc_many (ms : list (option Z)) (context size : Z) (st : State)
    : outcome (list (option Z)) :=
  match ms with
  | [] => Done [] st
  | m :: ms' =>
      match SlabAlloc m context size st with
      | Done p st' =>
          match SlabAlloc_many ms' context size st' with
          | Done ps st'' => Done (p :: ps) st''
          | Raised e st'' => Raised e st''
          | Undefined => Undefined
          end
      | Raised e st' => Raised e st'
      | Undefined => Undefined
      end
  end.

(** ** Reachable states

    A configuration is the memory together with the chunks handed out and not
    yet given back, each with the context it was allocated in.  The second
    component is not part of the program: it records what the callers hold,
    so that the contract of SlabFree (the pointer came from SlabAlloc and was
    not freed since) can be stated. *)
Definition config : Type := State * gmap Z Z.

(** What callers of SlabContextCreate owe: the sizes are values of [Size],
    the Assert that opens the function, and a block size for which the number
    of chunks and the length of [freelist], which the function computes in
    [int] without a check, are values of [int]. *)
Definition SlabContextCreate_pre (blockSize0 chunkSize0 : Z) : Prop :=
  0 ≤ chunkSize0 ∧ 0 ≤ blockSize0 < SIZE_MODULUS ∧
  MAXALIGN chunkSize0 ≤ MEMORYCHUNK_MAX_VALUE ∧
  (blockSize0 - sizeof_SlabBlock)
    / (Slab_CHUNKHDRSZ + MAXALIGN (Z.max chunkSize0 sizeof_int)) < INT_MAX.

Definition drop_context (c : Z) (L : gmap Z Z) : gmap Z Z :=
  filter (λ pc, pc.2 ≠ c) L.

(** The completed public operations, and a caller writing into the payload
    of a chunk it holds.  Calls that raise an error or return NULL leave the
    memory as it was (see [SlabAlloc_wrong_size], [SlabAlloc_null_inv],
    [SlabContextCreate_raised] below) and need no step. *)
Inductive step : config → config → Prop :=
  | step_create m blockSize0 chunkSize0 st L c st' s :
      SlabContextCreate_pre blockSize0 chunkSize0 →
      SlabContextCreate m blockSize0 chunkSize0 st = Done c st' →
      contexts st' !! c = Some s →
      malloc_fresh st c (headerSize s) →
      step (st, L) (st', L)
  | step_alloc m c size st L s p st' :
      contexts st !! c = Some s →
      malloc_valid st m (blockSize s) →
      SlabAlloc m c size st = Done (Some p) st' →
      step (st, L) (st', <[p := c]> L)
  | step_free p c st L st' :
      L !! p = Some c →
      SlabFree p st = Done () st' →
      step (st, L) (st', delete p L)
  | step_reset c st L st' :
      SlabReset c st = Done () st' →
      step (st, L) (st', drop_context c L)
  | step_delete c st L st' :
      SlabDelete c st = Done () st' →
      step (st, L) (st', drop_context c L)
  | step_write p c v st L :
      L !! p = Some c →
      step (st, L) (set_words (<[p := v]> (words st)) st, L).

Definition reachable (cfg : config) : Prop := rtc step (empty_State, ∅) cfg.

(** ** The state invariant *)

(** The payload of chunk [idx] of [block]. *)
Definition chunk_pointer (s : SlabContext) (block idx : Z) : Z :=
  MemoryChunkGetPointer (SlabBlockGetChunk s block idx).

(** [chain s block w first l]: following the indices stored in the chunks of
    [block] from [first] goes through [l] and ends at chunksPerBlock. *)
Fixpoint chain (s : SlabContext) (block : Z) (w : gmap Z Z) (first : Z) (l : list Z) : Prop :=
  match l with
  | [] => first = chunksPerBlock s
  | i :: l' =>
      first = i ∧ 0 ≤ i < chunksPerBlock s ∧
      ∃ next, w !! chunk_pointer s block i = Some next ∧ chain s block w next l'
  end.

Definition in_bucket (fl : list (list Z)) (k : nat) (b : Z) : Prop :=
  ∃ l, fl !! k = Some l ∧ b ∈ l.

Definition geometry_ok (s : SlabContext) : Prop :=
  0 < chunksPerBlock s < INT_MAX ∧
  fullChunkSize s = Slab_CHUNKHDRSZ + MAXALIGN (chunkSize s) ∧
  sizeof_int ≤ chunkSize s ∧
  sizeof_SlabBlock + chunksPerBlock s * fullChunkSize s ≤ blockSize s ∧
  length (freelist s) = Z.to_nat (chunksPerBlock s + 1).

Definition same_geometry (s s' : SlabContext) : Prop :=
  chunkSize s' = chunkSize s ∧ fullChunkSize s' = fullChunkSize s ∧
  blockSize s' = blockSize s ∧ headerSize s' = headerSize s ∧
  chunksPerBlock s' = chunksPerBlock s ∧ length (freelist s') = length (freelist s).

(** What holds of a block [b] linked into list [k] of context [c]: its
    header, its region, its free list [l], and for every chunk whether a
    caller holds it; the chunks held carry a header that leads back to [b]. *)
Definition block_inv (st : State) (L : gmap Z Z) (c : Z) (s : SlabContext) (b : Z) (k : Z)
    : Prop :=
  ∃ B l,
    blocks st !! b = Some B ∧ nfree B = k ∧ slab B = c ∧
    regions st !! b = Some (blockSize s) ∧
    chain s b (words st) (firstFreeChunk B) l ∧ NoDup l ∧ Z.of_nat (length l) = k ∧
    ∀ i, 0 ≤ i < chunksPerBlock s →
      if decide (i ∈ l) then L !! chunk_pointer s b i = None
      else L !! chunk_pointer s b i = Some c ∧
           chunkhdrs st !! SlabBlockGetChunk s b i
             = Some (mkMemoryChunk b (MAXALIGN (chunkSize s)) MCTX_SLAB_ID).

(** The part of a context's invariant that also holds in the middle of
    SlabAlloc, between the arrival of a new block and the allocation from it. *)
Definition ctx_core (st : State) (L : gmap Z Z) (c : Z) (s : SlabContext) : Prop :=
  geometry_ok s ∧
  regions st !! c = Some (headerSize s) ∧
  (∀ k b, in_bucket (freelist s) k b → block_inv st L c s b (Z.of_nat k)) ∧
  NoDup (concat (freelist s)) ∧
  nblocks s = to_int (Z.of_nat (length (concat (freelist s)))) ∧
  mem_allocated s = to_size (Z.of_nat (length (concat (freelist s))) * blockSize s).

(** What the code keeps of minFreeChunks: it is 0 or the index of a list,
    below chunksPerBlock, that is not empty. *)
Definition minFreeChunks_ok (s : SlabContext) : Prop :=
  minFreeChunks s = 0 ∨
  (0 < minFreeChunks s < chunksPerBlock s ∧
   ∃ b l, bucket (freelist s) (minFreeChunks s) = Some (b :: l)).

(** What the spec asks of minFreeChunks (its invariant 6 and property P5):
    0 when the lists 1 .. chunksPerBlock - 1 are all empty, and otherwise the
    smallest index among them of a list that is not empty. *)
Definition minFreeChunks_exact (s : SlabContext) : Prop :=
  (minFreeChunks s = 0 ∧
   ∀ k, 1 ≤ k < chunksPerBlock s → bucket (freelist s) k = Some [])
  ∨ (1 ≤ minFreeChunks s < chunksPerBlock s ∧
     (∃ b l, bucket (freelist s) (minFreeChunks s) = Some (b :: l)) ∧
     ∀ k, 1 ≤ k < minFreeChunks s → bucket (freelist s) k = Some []).

Definition ctx_inv (st : State) (L : gmap Z Z) (c : Z) (s : SlabContext) : Prop :=
  ctx_core st L c s ∧
  bucket (freelist s) (chunksPerBlock s) = Some [] ∧
  minFreeChunks_ok s.

Definition regions_disjoint (st : State) : Prop :=
  ∀ a1 n1 a2 n2, regions st !! a1 = Some n1 → regions st !! a2 = Some n2 → a1 ≠ a2 →
    a1 + n1 ≤ a2 ∨ a2 + n2 ≤ a1.

Definition global_inv (st : State) (L : gmap Z Z) : Prop :=
  regions_disjoint st ∧
  (∀ b B, blocks st !! b = Some B →
     contexts st !! b = None ∧
     ∃ s, contexts st !! slab B = Some s ∧ b ∈ concat (freelist s)) ∧
  (∀ p c, L !! p = Some c →
     ∃ s b i, contexts st !! c = Some s ∧ b ∈ concat (freelist s) ∧
              0 ≤ i < chunksPerBlock s ∧ p = chunk_pointer s b i).

Definition state_inv (cfg : config) : Prop :=
  (∀ c s, contexts cfg.1 !! c = Some s → ctx_inv cfg.1 cfg.2 c s) ∧
  global_inv cfg.1 cfg.2.

(** ** Predicates of the proofs

    Shapes of memory and of changes to it that the lemmas below speak of. *)

(** A change of memory confined to the block at [b0], whose region is
    [n0] bytes long. *)
Definition local_change (st : State) (L : gmap Z Z) (st' : State) (L' : gmap Z Z)
    (b0 n0 : Z) : Prop :=
  (∀ b, b ≠ b0 → blocks st' !! b = blocks st !! b ∧ regions st' !! b = regions st !! b) ∧
  (∀ a, ¬ (b0 < a < b0 + n0) →
     words st' !! a = words st !! a ∧ L' !! a = L !! a ∧
     chunkhdrs st' !! a = chunkhdrs st !! a).

(** The region at [b0] overlaps no other region of [st]. *)
Definition region_apart (st : State) (b0 n0 : Z) : Prop :=
  ∀ b n, b ≠ b0 → regions st !! b = Some n → b0 + n0 ≤ b ∨ b + n ≤ b0.

Definition others_inv (st : State) (L : gmap Z Z) (c : Z) : Prop :=
  ∀ c' s', c' ≠ c → contexts st !! c' = Some s' → ctx_inv st L c' s'.

(** The state between the arrival of a block and the allocation from it:
    the list at minFreeChunks has a head, and the last list holds no block
    other than that head. *)
Definition take_pre (st : State) (L : gmap Z Z) (c : Z) (s : SlabContext) : Prop :=
  contexts st !! c = Some s ∧ ctx_core st L c s ∧
  0 < minFreeChunks s ≤ chunksPerBlock s ∧
  (∃ b l, bucket (freelist s) (minFreeChunks s) = Some (b :: l) ∧
     ∀ b', in_bucket (freelist s) (Z.to_nat (chunksPerBlock s)) b' → b' = b) ∧
  others_inv st L c ∧ global_inv st L.

(** The state SlabAlloc leaves when it takes chunk [first B] of block [b]. *)
Definition take_state (c : Z) (s : SlabContext) (st : State) (b : Z) (B : SlabBlock)
    (next : Z) (fl' : list (list Z)) (mfc : Z) : State :=
  let st1 := set_blocks (<[b := mkSlabBlock (nfree B - 1) next (slab B)]> (blocks st)) st in
  let st2 := MemoryChunkSetHdrMask (SlabBlockGetChunk s b (firstFreeChunk B)) b
               (MAXALIGN (chunkSize s)) MCTX_SLAB_ID st1 in
  set_contexts (<[c := set_minFreeChunks mfc (set_freelist fl' s)]> (contexts st2)) st2.

(** The memory after the first half of SlabFree: the chunk at [p] is back on
    the free list of block [b]. *)
Definition free_pushed (st : State) (p b : Z) (B : SlabBlock) (i : Z) : State :=
  set_blocks (<[b := mkSlabBlock (nfree B + 1) i (slab B)]> (blocks st))
    (set_words (<[p := firstFreeChunk B]> (words st)) st).

(** The state SlabFree leaves when it gives the block back to the system. *)
Definition free_state_reclaim (st : State) (p b : Z) (B : SlabBlock) (i : Z)
    (s : SlabContext) (mfc : Z) : State :=
  let st1 := free_pushed st p b B i in
  let st2 := set_blocks (delete b (blocks st1)) (set_regions (delete b (regions st1)) st1) in
  let s' := set_minFreeChunks mfc (set_freelist (dlist_delete b (freelist s)) s) in
  set_contexts
    (<[slab B := set_mem_allocated (to_size (mem_allocated s' - blockSize s'))
                   (set_nblocks (to_int (nblocks s' - 1)) s')]> (contexts st2)) st2.

(** The state SlabFree leaves when the block stays, in list [fl2]. *)
Definition free_state_keep (st : State) (p b : Z) (B : SlabBlock) (i : Z)
    (s : SlabContext) (mfc : Z) (fl2 : list (list Z)) : State :=
  let st1 := free_pushed st p b B i in
  let s' := set_minFreeChunks mfc (set_freelist (dlist_delete b (freelist s)) s) in
  set_contexts (<[slab B := set_freelist fl2 s']> (contexts st1)) st1.

(** The state of the loops of SlabReset once the blocks [D] have been
    freed, in terms of the state [s], [st] the function started from. *)
Definition reset_rel (s : SlabContext) (st : State) (D : list Z)
    (s1 : SlabContext) (st1 : State) : Prop :=
  freelist s1 = map (filter (λ x, x ∉ D)) (freelist s) ∧
  chunkSize s1 = chunkSize s ∧ fullChunkSize s1 = fullChunkSize s ∧
  blockSize s1 = blockSize s ∧ headerSize s1 = headerSize s ∧
  chunksPerBlock s1 = chunksPerBlock s ∧
  nblocks s1 = to_int (nblocks s - Z.of_nat (length D)) ∧
  mem_allocated s1 = to_size (mem_allocated s - Z.of_nat (length D) * blockSize s) ∧
  (∀ x, blocks st1 !! x = if decide (x ∈ D) then None else blocks st !! x) ∧
  (∀ x, regions st1 !! x = if decide (x ∈ D) then None else regions st !! x) ∧
  contexts st1 = contexts st ∧ words st1 = words st ∧ chunkhdrs st1 = chunkhdrs st.

(** ** Predicates of the further properties *)

(** A call on context [c] left alone the other contexts, the blocks of the
    other contexts, and the payload word and header of every chunk of [L]. *)
Definition others_untouched (c : Z) (L : gmap Z Z) (st st' : State) : Prop :=
  (∀ c', c' ≠ c → contexts st' !! c' = contexts st !! c') ∧
  (∀ b B, blocks st !! b = Some B → slab B ≠ c →
     blocks st' !! b = Some B ∧ regions st' !! b = regions st !! b) ∧
  (∀ q cq, L !! q = Some cq →
     words st' !! q = words st !! q ∧
     chunkhdrs st' !! PointerGetMemoryChunk q = chunkhdrs st !! PointerGetMemoryChunk q).

(** The geometry SlabContextCreate derives from the block and chunk sizes. *)
Definition created_geometry (s : SlabContext) : Prop :=
  0 ≤ blockSize s < SIZE_MODULUS ∧
  sizeof_int ≤ chunkSize s ∧
  fullChunkSize s = Slab_CHUNKHDRSZ + MAXALIGN (chunkSize s) ∧
  chunksPerBlock s = (blockSize s - sizeof_SlabBlock) / fullChunkSize s ∧
  1 ≤ chunksPerBlock s < INT_MAX ∧
  headerSize s
    = to_size (offsetof_freelist + to_size (sizeof_dlist_head * (chunksPerBlock s + 1))) ∧
  length (freelist s) = Z.to_nat (chunksPerBlock s + 1).

(** The number of chunks of context [c] that callers hold. *)
Definition held_chunks (c : Z) (L : gmap Z Z) : Z :=
  Z.of_nat (size (filter (λ pc, pc.2 = c) L)).

(** The number of blocks linked into the lists of a context, and the number
    of its chunks that no caller holds. *)
Definition linked_blocks (s : SlabContext) : Z := Z.of_nat (length (concat (freelist s))).
Definition free_chunks (c : Z) (s : SlabContext) (L : gmap Z Z) : Z :=
  linked_blocks s * chunksPerBlock s - held_chunks c L.

(** The sum of nfree over the blocks [nodes]. *)
Definition free_in (st : State) (nodes : list Z) : Z :=
  foldr (λ b a, from_option nfree 0 (blocks st !! b) + a) 0 nodes.

(** The chunks of block [b] that callers hold. *)
Definition held_in (L : gmap Z Z) (c : Z) (s : SlabContext) (b : Z) : list Z :=
  chunk_pointer s b
    <$> filter (λ i, L !! chunk_pointer s b i = Some c) (seqZ 0 (chunksPerBlock s)).

(** [acc] after [len] more blocks with [free] free chunks between them. *)
Definition stats_add (s : SlabContext) (acc : MemoryContextCounters) (len free : Z)
    : MemoryContextCounters :=
  mkMemoryContextCounters
    (to_size (counters_nblocks acc + len))
    (to_size (counters_freechunks acc + free))
    (to_size (counters_totalspace acc + len * blockSize s))
    (to_size (counters_freespace acc + fullChunkSize s * free)).

Definition counters_in_range (acc : MemoryContextCounters) : Prop :=
  0 ≤ counters_nblocks acc < SIZE_MODULUS ∧ 0 ≤ counters_freechunks acc < SIZE_MODULUS ∧
  0 ≤ counters_totalspace acc < SIZE_MODULUS ∧ 0 ≤ counters_freespace acc < SIZE_MODULUS.

(** A warning from the sentinel test on a chunk that a caller holds. *)
Definition sentinel_warning (L : gmap Z Z) (c : Z) (sentinel_ok : Z → bool)
    (w : SlabCheckWarning) : Prop :=
  ∃ block chunk, w = WritePastChunkEnd block chunk ∧ sentinel_ok chunk = false ∧
                 L !! MemoryChunkGetPointer chunk = Some c.

(** Every region the system allocator has handed out is a context header
    or a block. *)
Definition regions_tracked (st : State) : Prop :=
  ∀ a n, regions st !! a = Some n → is_Some (contexts st !! a) ∨ is_Some (blocks st !! a).

End Slab.

(** ** A concrete platform

    The layout of the usual 64-bit build: an 8-byte chunk header, a 32-byte
    block header (list node, two ints, one pointer), 8-byte alignment. *)
Definition lp64 : Layout.
Proof.
  refine {| sizeof_SlabBlock := 32; Slab_CHUNKHDRSZ := 8; sizeof_int := 4;
            sizeof_dlist_head := 16; offsetof_freelist := 128;
            MAXIMUM_ALIGNOF := 8; MEMORYCHUNK_MAX_VALUE := 1073741823 |};
    first [reflexivity | discriminate].
Defined.

(** ** A concrete history

    A context created on the platform above, filled and partly emptied; the
    states it goes through serve as concrete inputs below. *)
Section Scenario.
#[local] Existing Instance lp64.

(** A context at address 1000 with 128-byte blocks of four 16-byte chunks. *)
Definition ex_created : State :=
  match SlabContextCreate (Some 1000) 128 16 empty_State with
  | Done _ st => st
  | _ => empty_State
  end.

(** The memory and the chunks held after the calls [ms] of SlabAlloc. *)
Fixpoint ex_allocs (ms : list (option Z)) (cfg : config) : config :=
  match ms with
  | [] => cfg
  | m :: ms' =>
      match SlabAlloc m 1000 16 cfg.1 with
      | Done (Some p) st' => ex_allocs ms' (st', <[p := 1000]> cfg.2)
      | _ => cfg
      end
  end.

(** The answers [ms] of malloc are addresses malloc may return. *)
Definition ex_malloc_ok (m : option Z) (st : State) (n : Z) : bool :=
  match m with
  | None => true
  | Some a =>
      bool_decide (0 < a ∧ regions st !! a = None ∧
                   map_Forall (λ a' size', a + n ≤ a' ∨ a' + size' ≤ a) (regions st))
  end.

Fixpoint ex_allocs_ok (ms : list (option Z)) (cfg : config) : bool :=
  match ms with
  | [] => true
  | m :: ms' =>
      match contexts cfg.1 !! 1000 with
      | None => false
      | Some s =>
          ex_malloc_ok m cfg.1 (blockSize s) &&
          match SlabAlloc m 1000 16 cfg.1 with
          | Done (Some p) st' => ex_allocs_ok ms' (st', <[p := 1000]> cfg.2)
          | _ => true
          end
      end
  end.

Definition ex_free (p : Z) (cfg : config) : config :=
  match SlabFree p cfg.1 with
  | Done _ st' => (st', delete p cfg.2)
  | _ => cfg
  end.

(** One chunk allocated; four chunks, which fill the block at 2000; eight
    chunks, which fill a second block at 3000; then the first chunk freed. *)
Definition ex_one : config := ex_allocs [Some 2000] (ex_created, ∅).
Definition ex_four : config := ex_allocs [None; None; None] ex_one.
Definition ex_eight : config := ex_allocs [Some 3000; None; None; None] ex_four.
Definition ex_freed : config := ex_free 2040 ex_eight.

Definition ex_context_created : SlabContext :=
  mkSlabContext 0 16 24 128 208 4 0 0 [[]; []; []; []; []].
Definition ex_context_eight : SlabContext :=
  mkSlabContext 256 16 24 128 208 4 0 2 [[3000; 2000]; []; []; []; []].
Definition ex_context_freed : SlabContext :=
  mkSlabContext 256 16 24 128 208 4 0 2 [[3000]; [2000]; []; []; []].

End Scenario.

(** * Proofs *)

(** ** Machine arithmetic and lists of blocks *)

Lemma to_int_id z : INT_MIN ≤ z ≤ INT_MAX → to_int z = z.
Proof.
  unfold to_int, INT_MIN, INT_MAX. intros Hz.
  rewrite Z.mod_small by lia. lia.
Qed.

Lemma to_int_idemp_add a b : to_int (to_int a + b) = to_int (a + b).
Proof.
  unfold to_int.
  replace ((a + 2147483648) mod 4294967296 - 2147483648 + b + 2147483648)
    with ((a + 2147483648) mod 4294967296 + b) by lia.
  rewrite Zplus_mod_idemp_l. f_equal. f_equal. lia.
Qed.

Lemma to_size_idemp_add a b : to_size (to_size a + b) = to_size (a + b).
Proof. unfold to_size. apply Zplus_mod_idemp_l. Qed.

Lemma to_int_idemp_sub a b : to_int (to_int a - b) = to_int (a - b).
Proof. replace (to_int a - b) with (to_int a + - b) by lia. by rewrite to_int_idemp_add. Qed.

Lemma to_size_idemp_sub a b : to_size (to_size a - b) = to_size (a - b).
Proof. unfold to_size. apply Zminus_mod_idemp_l. Qed.

Lemma to_int_idemp a : to_int (to_int a) = to_int a.
Proof. pose proof (to_int_idemp_add a 0) as E. by rewrite !Z.add_0_r in E. Qed.

Lemma to_size_idemp a : to_size (to_size a) = to_size a.
Proof. unfold to_size. by rewrite Zmod_mod. Qed.

Lemma to_size_id z : 0 ≤ z < SIZE_MODULUS → to_size z = z.
Proof. intros. unfold to_size. by apply Z.mod_small. Qed.

Lemma TYPEALIGN_ge a x : 0 < a → x ≤ TYPEALIGN a x.
Proof.
  intros Ha. unfold TYPEALIGN.
  pose proof (Z.div_mod (x + (a - 1)) a ltac:(lia)) as Hdm.
  pose proof (Z.mod_pos_bound (x + (a - 1)) a Ha) as Hb.
  nia.
Qed.

Lemma TYPEALIGN_mono a x y : 0 < a → x ≤ y → TYPEALIGN a x ≤ TYPEALIGN a y.
Proof.
  intros Ha Hxy. unfold TYPEALIGN.
  apply Z.mul_le_mono_nonneg_r; [lia|].
  apply Z.div_le_mono; lia.
Qed.

(** Lists of blocks *)

Lemma bucket_Some fl k l :
  bucket fl k = Some l ↔ 0 ≤ k ∧ fl !! Z.to_nat k = Some l.
Proof.
  unfold bucket. case_decide; split; try done.
  - by intros [? ?].
  - by intros [? ?].
Qed.

Lemma bucket_of_nat fl (k : nat) : bucket fl (Z.of_nat k) = fl !! k.
Proof. unfold bucket. case_decide; [by rewrite Nat2Z.id | lia]. Qed.

Lemma bucket_lookup fl k :
  0 ≤ k < Z.of_nat (length fl) → ∃ l, bucket fl k = Some l.
Proof.
  intros Hk. unfold bucket. case_decide; [|lia].
  apply lookup_lt_is_Some. lia.
Qed.

Lemma elem_of_concat_bucket fl b : b ∈ concat fl ↔ ∃ k, in_bucket fl k b.
Proof.
  unfold in_bucket. induction fl as [|l0 fl IH]; simpl.
  - split; [by intros ?%elem_of_nil | by intros (k & l & Hk & _)].
  - rewrite elem_of_app, IH. split.
    + intros [Hb|(k & l & Hk & Hb)]; [by exists 0%nat, l0 | by exists (S k), l].
    + intros ([|k] & l & Hk & Hb); simpl in Hk; [left; congruence | right; eauto].
Qed.

Lemma dlist_delete_concat x fl :
  concat (dlist_delete x fl) = filter (λ y, y ≠ x) (concat fl).
Proof.
  unfold dlist_delete. induction fl as [|l fl IH]; [done|].
  simpl. by rewrite filter_app, IH.
Qed.

Lemma dlist_delete_length x fl : length (dlist_delete x fl) = length fl.
Proof. unfold dlist_delete. by rewrite length_map. Qed.

Lemma dlist_delete_lookup x fl (k : nat) :
  dlist_delete x fl !! k = filter (λ y, y ≠ x) <$> fl !! k.
Proof. unfold dlist_delete. by rewrite list_lookup_fmap. Qed.

Lemma dlist_delete_bucket x fl k :
  bucket (dlist_delete x fl) k = filter (λ y, y ≠ x) <$> bucket fl k.
Proof. unfold bucket. case_decide; [apply dlist_delete_lookup | done]. Qed.

Lemma in_bucket_delete x fl k b :
  in_bucket (dlist_delete x fl) k b ↔ b ≠ x ∧ in_bucket fl k b.
Proof.
  unfold in_bucket. setoid_rewrite dlist_delete_lookup. split.
  - intros (l & Hl & Hb). destruct (fl !! k) as [l0|]; [|done].
    simpl in Hl. inversion Hl; subst. apply list_elem_of_filter in Hb as [? ?]. eauto.
  - intros (Hne & l & Hl & Hb). rewrite Hl. eexists. split; [done|].
    by apply list_elem_of_filter.
Qed.

Lemma NoDup_concat_delete x fl : NoDup (concat fl) → NoDup (concat (dlist_delete x fl)).
Proof. intros. rewrite dlist_delete_concat. by apply NoDup_filter. Qed.

Lemma filter_ne_notin (x : Z) (l : list Z) : x ∉ l → filter (λ y, y ≠ x) l = l.
Proof.
  induction l as [|z l IH]; [done|]. intros [? ?]%not_elem_of_cons.
  rewrite filter_cons, decide_True by congruence. f_equal. by apply IH.
Qed.

Lemma filter_ne_length (x : Z) (l : list Z) :
  NoDup l → x ∈ l → S (length (filter (λ y, y ≠ x) l)) = length l.
Proof.
  induction 1 as [|y l Hy Hnd IH]; intros Hx; [by apply elem_of_nil in Hx|].
  rewrite filter_cons. destruct (decide (y = x)) as [->|Hne].
  - rewrite decide_False by (intros Hn; by apply Hn).
    by rewrite filter_ne_notin.
  - rewrite decide_True by done. simpl. f_equal. apply IH.
    apply elem_of_cons in Hx as [?|?]; [congruence | done].
Qed.

Lemma length_concat_delete x fl :
  NoDup (concat fl) → x ∈ concat fl →
  S (length (concat (dlist_delete x fl))) = length (concat fl).
Proof. intros. rewrite dlist_delete_concat. by apply filter_ne_length. Qed.

Lemma concat_insert_cons (fl : list (list Z)) (k : nat) l x :
  fl !! k = Some l → concat (<[k := x :: l]> fl) ≡ₚ x :: concat fl.
Proof.
  revert k. induction fl as [|l0 fl IH]; intros k Hk; [done|].
  destruct k as [|k]; simpl in *.
  - by inversion Hk; subst.
  - rewrite (IH _ Hk). by rewrite Permutation_middle.
Qed.

Lemma dlist_push_head_Some fl k x fl' :
  dlist_push_head fl k x = Some fl' ↔
  ∃ l, bucket fl k = Some l ∧ fl' = <[Z.to_nat k := x :: l]> fl.
Proof.
  unfold dlist_push_head. destruct (bucket fl k) as [l|]; naive_solver.
Qed.

Lemma dlist_push_head_concat fl k x fl' :
  dlist_push_head fl k x = Some fl' → concat fl' ≡ₚ x :: concat fl.
Proof.
  intros (l & Hl & ->)%dlist_push_head_Some.
  apply bucket_Some in Hl as [? Hl]. by apply concat_insert_cons.
Qed.

Lemma dlist_push_head_length fl k x fl' :
  dlist_push_head fl k x = Some fl' → length fl' = length fl.
Proof. intros (l & Hl & ->)%dlist_push_head_Some. by rewrite length_insert. Qed.

Lemma dlist_push_head_bucket fl k x fl' j :
  dlist_push_head fl k x = Some fl' →
  bucket fl' j = if decide (j = k) then cons x <$> bucket fl j else bucket fl j.
Proof.
  intros (l & Hl & ->)%dlist_push_head_Some.
  apply bucket_Some in Hl as [Hk Hl].
  unfold bucket. case_decide as Hj.
  - case_decide as Hjk.
    + subst j. rewrite list_lookup_insert_eq, Hl; [done|].
      by apply lookup_lt_Some in Hl.
    + rewrite list_lookup_insert_ne; [done|]. lia.
  - case_decide; [subst; lia | done].
Qed.

Lemma in_bucket_push fl k x fl' j b :
  dlist_push_head fl k x = Some fl' →
  in_bucket fl' j b ↔ (j = Z.to_nat k ∧ b = x) ∨ in_bucket fl j b.
Proof.
  intros (l & Hl & ->)%dlist_push_head_Some.
  apply bucket_Some in Hl as [Hk Hl]. unfold in_bucket.
  destruct (decide (j = Z.to_nat k)) as [->|Hne].
  - rewrite list_lookup_insert_eq by (by apply lookup_lt_Some in Hl). split.
    + intros (l' & [= <-] & Hb). apply elem_of_cons in Hb as [->|Hb]; eauto.
    + intros [[_ ->]|(l' & Hl' & Hb)].
      * eexists. split; [done|]. apply elem_of_cons; auto.
      * rewrite Hl in Hl'. inversion Hl'; subst.
        eexists. split; [done|]. apply elem_of_cons; auto.
  - rewrite list_lookup_insert_ne by done. naive_solver.
Qed.

Lemma dlist_push_head_is_Some fl k x :
  0 ≤ k < Z.of_nat (length fl) → is_Some (dlist_push_head fl k x).
Proof.
  intros Hk. destruct (bucket_lookup fl k Hk) as [l Hl].
  unfold dlist_push_head. rewrite Hl. eauto.
Qed.

Section SlabProofs.
Context `{Layout}.

Lemma MAXALIGN_ge x : x ≤ MAXALIGN x.
Proof. apply TYPEALIGN_ge, MAXIMUM_ALIGNOF_pos. Qed.

Lemma geometry_fullChunkSize s :
  geometry_ok s → Slab_CHUNKHDRSZ + sizeof_int ≤ fullChunkSize s.
Proof.
  intros (_ & -> & Hcs & _). pose proof (MAXALIGN_ge (chunkSize s)). lia.
Qed.

Lemma geometry_fullChunkSize_pos s : geometry_ok s → 0 < fullChunkSize s.
Proof.
  intros Hg%geometry_fullChunkSize.
  pose proof Slab_CHUNKHDRSZ_pos. pose proof sizeof_int_pos. lia.
Qed.

(** Every chunk of a block lies inside the block's region. *)
Lemma chunk_in_region s b i :
  geometry_ok s → 0 ≤ i < chunksPerBlock s →
  b < SlabBlockGetChunk s b i ∧
  SlabBlockGetChunk s b i < chunk_pointer s b i ∧
  chunk_pointer s b i < b + blockSize s.
Proof.
  intros Hg Hi. pose proof (geometry_fullChunkSize s Hg) as Hf.
  destruct Hg as (Hc & _ & _ & Hb & _).
  pose proof sizeof_SlabBlock_pos. pose proof Slab_CHUNKHDRSZ_pos. pose proof sizeof_int_pos.
  unfold chunk_pointer, MemoryChunkGetPointer, SlabBlockGetChunk.
  assert (0 ≤ i * fullChunkSize s) by nia.
  assert ((i + 1) * fullChunkSize s ≤ chunksPerBlock s * fullChunkSize s) by nia.
  lia.
Qed.

Lemma chunk_pointer_inj s b i j :
  geometry_ok s → chunk_pointer s b i = chunk_pointer s b j → i = j.
Proof.
  intros Hg%geometry_fullChunkSize_pos.
  unfold chunk_pointer, MemoryChunkGetPointer, SlabBlockGetChunk. nia.
Qed.

Lemma SlabBlockGetChunk_inj s b i j :
  geometry_ok s → SlabBlockGetChunk s b i = SlabBlockGetChunk s b j → i = j.
Proof.
  intros Hg%geometry_fullChunkSize_pos. unfold SlabBlockGetChunk. nia.
Qed.

Lemma PointerGetMemoryChunk_pointer s b i :
  PointerGetMemoryChunk (chunk_pointer s b i) = SlabBlockGetChunk s b i.
Proof. unfold PointerGetMemoryChunk, chunk_pointer, MemoryChunkGetPointer. lia. Qed.

(** SlabChunkIndex gives back the index a chunk was addressed by. *)
Lemma SlabChunkIndex_chunk s b i :
  geometry_ok s → 0 ≤ i < chunksPerBlock s →
  to_int (SlabChunkIndex s b (SlabBlockGetChunk s b i)) = i.
Proof.
  intros Hg Hi. pose proof (geometry_fullChunkSize_pos s Hg).
  destruct Hg as (Hc & _).
  unfold SlabChunkIndex, SlabBlockStart, SlabBlockGetChunk.
  replace (b + sizeof_SlabBlock + i * fullChunkSize s - (b + sizeof_SlabBlock))
    with (i * fullChunkSize s) by lia.
  rewrite Z.div_mul by lia. apply to_int_id. unfold INT_MIN, INT_MAX in *. lia.
Qed.

(** Chunks of blocks in regions that do not overlap have different addresses. *)
Lemma chunks_apart s1 b1 i1 s2 b2 i2 :
  geometry_ok s1 → geometry_ok s2 →
  0 ≤ i1 < chunksPerBlock s1 → 0 ≤ i2 < chunksPerBlock s2 →
  b1 + blockSize s1 ≤ b2 ∨ b2 + blockSize s2 ≤ b1 →
  chunk_pointer s1 b1 i1 ≠ chunk_pointer s2 b2 i2 ∧
  SlabBlockGetChunk s1 b1 i1 ≠ SlabBlockGetChunk s2 b2 i2.
Proof.
  intros Hg1 Hg2 Hi1 Hi2 Hd.
  pose proof (chunk_in_region s1 b1 i1 Hg1 Hi1).
  pose proof (chunk_in_region s2 b2 i2 Hg2 Hi2). lia.
Qed.

(** ** Free lists *)

Lemma chain_frame s b w w' first l :
  (∀ i, i ∈ l → w' !! chunk_pointer s b i = w !! chunk_pointer s b i) →
  chain s b w first l → chain s b w' first l.
Proof.
  revert first. induction l as [|i l IH]; intros first Hw; [done|].
  simpl. intros (-> & Hi & next & Hn & Hc). split; [done|]. split; [done|].
  exists next. split.
  - rewrite Hw; [done | apply elem_of_cons; auto].
  - apply IH; [|done]. intros j Hj. apply Hw, elem_of_cons; auto.
Qed.

Lemma chain_same_geometry s s' b w first l :
  same_geometry s s' → chain s b w first l → chain s' b w first l.
Proof.
  intros (_ & Hf & _ & _ & Hc & _). revert first.
  induction l as [|i l IH]; intros first; simpl.
  - by rewrite Hc.
  - intros (-> & Hi & next & Hn & Hch). rewrite Hc. split; [done|]. split; [done|].
    exists next. split; [|by apply IH].
    unfold chunk_pointer, SlabBlockGetChunk in *. by rewrite Hf.
Qed.

Lemma chain_range s b w first l :
  chain s b w first l → Forall (λ i, 0 ≤ i < chunksPerBlock s) l.
Proof.
  revert first. induction l as [|i l IH]; intros first; simpl; [constructor|].
  intros (_ & Hi & next & _ & Hc). constructor; eauto.
Qed.

Lemma chain_first_nil s b w first l :
  chain s b w first l → (first = chunksPerBlock s ↔ l = []).
Proof.
  destruct l as [|i l]; simpl; [done|].
  intros (-> & Hi & _). split; [lia | done].
Qed.

Lemma chain_walk s b w first l fuel :
  chain s b w first l → (length l ≤ fuel)%nat →
  SlabCheck_walk fuel s b first w = Some (l, chunksPerBlock s).
Proof.
  revert first fuel. induction l as [|i l IH]; intros first fuel; simpl.
  - intros -> _. destruct fuel; simpl; by rewrite decide_False by lia.
  - intros (-> & Hi & next & Hn & Hc) Hf. destruct fuel as [|fuel]; [lia|].
    simpl. rewrite decide_True by lia. rewrite decide_False by lia.
    unfold chunk_pointer in Hn. rewrite Hn.
    rewrite (IH next fuel Hc) by lia. done.
Qed.

Lemma same_geometry_refl s : same_geometry s s.
Proof. by repeat split. Qed.

Lemma same_geometry_pointer s s' b i :
  same_geometry s s' → chunk_pointer s' b i = chunk_pointer s b i.
Proof.
  intros (_ & Hf & _). unfold chunk_pointer, SlabBlockGetChunk. by rewrite Hf.
Qed.

Lemma same_geometry_chunk s s' b i :
  same_geometry s s' → SlabBlockGetChunk s' b i = SlabBlockGetChunk s b i.
Proof. intros (_ & Hf & _). unfold SlabBlockGetChunk. by rewrite Hf. Qed.

Lemma geometry_ok_same s s' : same_geometry s s' → geometry_ok s → geometry_ok s'.
Proof.
  intros (H1 & H2 & H3 & H4 & H5 & H6) (G1 & G2 & G3 & G4 & G5).
  unfold geometry_ok. rewrite H1, H2, H3, H5, H6. done.
Qed.

(** ** Frame properties of the block invariant *)

Lemma block_inv_same_geometry st L c s s' b k :
  same_geometry s s' → block_inv st L c s b k → block_inv st L c s' b k.
Proof.
  intros Hs (B & l & HB & Hn & Hsl & Hr & Hch & Hnd & Hlen & Hlive).
  exists B, l. pose proof Hs as (H1 & H2 & H3 & H4 & H5 & H6).
  rewrite H3. repeat (split; [done|]).
  split; [by eapply chain_same_geometry|]. repeat (split; [done|]).
  intros i Hi. rewrite H5 in Hi. specialize (Hlive i Hi).
  rewrite (same_geometry_pointer s s'), (same_geometry_chunk s s'), H1 by done. done.
Qed.

Lemma block_inv_frame st L st' L' c s b k :
  block_inv st L c s b k →
  blocks st' !! b = blocks st !! b →
  regions st' !! b = regions st !! b →
  (∀ i, 0 ≤ i < chunksPerBlock s →
     words st' !! chunk_pointer s b i = words st !! chunk_pointer s b i ∧
     L' !! chunk_pointer s b i = L !! chunk_pointer s b i ∧
     chunkhdrs st' !! SlabBlockGetChunk s b i = chunkhdrs st !! SlabBlockGetChunk s b i) →
  block_inv st' L' c s b k.
Proof.
  intros (B & l & HB & Hn & Hsl & Hr & Hch & Hnd & Hlen & Hlive) Hb Hreg Hmem.
  exists B, l. rewrite Hb, Hreg. repeat (split; [done|]).
  split.
  - eapply chain_frame; [|done]. intros i Hi. apply Hmem.
    apply chain_range in Hch. by rewrite Forall_forall in Hch; apply Hch.
  - repeat (split; [done|]). intros i Hi. specialize (Hlive i Hi).
    destruct (Hmem i Hi) as (_ & -> & ->). done.
Qed.

Lemma region_apart_disjoint st b0 n0 :
  regions_disjoint st → regions st !! b0 = Some n0 → region_apart st b0 n0.
Proof. intros Hd Hb b n Hne Hr. by eapply Hd. Qed.

Lemma region_apart_fresh st b0 n0 : malloc_fresh st b0 n0 → region_apart st b0 n0.
Proof. intros (_ & _ & Hall) b n _ Hr. by apply (Hall b n). Qed.

Lemma block_inv_local st L st' L' c s b k b0 n0 :
  block_inv st L c s b k → geometry_ok s → b ≠ b0 →
  local_change st L st' L' b0 n0 → region_apart st b0 n0 →
  block_inv st' L' c s b k.
Proof.
  intros Hb Hg Hne [Hblk Hmem] Hap.
  pose proof Hb as (B & l & _ & _ & _ & Hr & _).
  destruct (Hblk b Hne) as [Hb1 Hb2].
  eapply block_inv_frame; [done..|].
  intros i Hi. pose proof (chunk_in_region s b i Hg Hi) as Hin.
  specialize (Hap b _ Hne Hr).
  destruct (Hmem (chunk_pointer s b i)) as (? & ? & _); [lia|].
  destruct (Hmem (SlabBlockGetChunk s b i)) as (_ & _ & ?); [lia|]. done.
Qed.

Lemma ctx_core_local st L st' L' c s b0 n0 :
  ctx_core st L c s → c ≠ b0 → b0 ∉ concat (freelist s) →
  local_change st L st' L' b0 n0 → region_apart st b0 n0 →
  ctx_core st' L' c s.
Proof.
  intros (Hg & Hr & Hbl & Hrest) Hc Hb0 Hch Hap.
  split; [done|]. split; [by rewrite (proj2 (proj1 Hch c Hc))|].
  split; [|done]. intros k b Hkb.
  eapply block_inv_local; [by apply Hbl|done| |done..].
  intros ->. apply Hb0, elem_of_concat_bucket. eauto.
Qed.

Lemma ctx_inv_local st L st' L' c s b0 n0 :
  ctx_inv st L c s → c ≠ b0 → b0 ∉ concat (freelist s) →
  local_change st L st' L' b0 n0 → region_apart st b0 n0 →
  ctx_inv st' L' c s.
Proof. intros (Hc & ?) ????. split; [by eapply ctx_core_local | done]. Qed.

(** A block linked into a list of one context is in no list of another. *)
Lemma block_of_other_context st L c s c' s' b :
  ctx_core st L c s → ctx_core st L c' s' → c ≠ c' →
  b ∈ concat (freelist s) → b ∉ concat (freelist s').
Proof.
  intros (_ & _ & Hb & _) (_ & _ & Hb' & _) Hne [k Hk]%elem_of_concat_bucket
    [k' Hk']%elem_of_concat_bucket.
  destruct (Hb _ _ Hk) as (B & ? & HB & _ & Hs & _).
  destruct (Hb' _ _ Hk') as (B' & ? & HB' & _ & Hs' & _). congruence.
Qed.

(** A block is linked into one list only, the one of its count. *)
Lemma in_bucket_unique st L c s b k k' :
  ctx_core st L c s → in_bucket (freelist s) k b → in_bucket (freelist s) k' b → k = k'.
Proof.
  intros (_ & _ & Hb & _) Hk Hk'.
  destruct (Hb _ _ Hk) as (B & ? & HB & Hn & _).
  destruct (Hb _ _ Hk') as (B' & ? & HB' & Hn' & _).
  rewrite HB in HB'. inversion HB'; subst. lia.
Qed.

Lemma bucket_in_range s k l :
  geometry_ok s → bucket (freelist s) k = Some l → 0 ≤ k ≤ chunksPerBlock s.
Proof.
  intros (Hc & _ & _ & _ & Hlen) [Hk Hl]%bucket_Some.
  apply lookup_lt_Some in Hl. lia.
Qed.

Lemma bucket_empty fl k l :
  bucket fl k = Some l → (∀ b, ¬ in_bucket fl (Z.to_nat k) b) → l = [].
Proof.
  intros [Hk Hl]%bucket_Some Hno. destruct l as [|b l]; [done|].
  exfalso. apply (Hno b). exists (b :: l). split; [done | apply elem_of_cons; auto].
Qed.

Lemma bucket_head_in fl k b l :
  bucket fl k = Some (b :: l) → in_bucket fl (Z.to_nat k) b.
Proof.
  intros [Hk Hl]%bucket_Some. exists (b :: l). split; [done | apply elem_of_cons; auto].
Qed.

(** The walk of SlabAlloc for a list that is not empty. *)
Lemma SlabAlloc_rescan_spec n idx fl :
  0 ≤ idx → idx + Z.of_nat n ≤ Z.of_nat (length fl) →
  ∃ r, SlabAlloc_rescan n idx fl 0 = Some r ∧
       (r = 0 ∧ (∀ j, idx ≤ j < idx + Z.of_nat n → bucket fl j = Some [])
        ∨ idx ≤ r < idx + Z.of_nat n ∧ (∃ b l, bucket fl r = Some (b :: l)) ∧
          ∀ j, idx ≤ j < r → bucket fl j = Some []).
Proof.
  revert idx. induction n as [|n IH]; intros idx Hidx Hlen; simpl.
  - exists 0. split; [done|]. left. split; [done|]. intros; lia.
  - destruct (bucket_lookup fl idx) as [l Hl]; [lia|]. rewrite Hl.
    destruct l as [|b l]; simpl.
    + destruct (IH (idx + 1)) as (r & Hr & Hcases); [lia..|].
      exists r. split; [done|].
      destruct Hcases as [[-> Hall]|(Hrng & Hne & Hall)].
      * left. split; [done|]. intros j Hj.
        destruct (decide (j = idx)) as [->|]; [done | apply Hall; lia].
      * right. split; [lia|]. split; [done|]. intros j Hj.
        destruct (decide (j = idx)) as [->|]; [done | apply Hall; lia].
    + exists idx. split; [done|]. right. split; [lia|]. split; [eauto|]. intros; lia.
Qed.

(** Moving a block from its list to the head of another. *)
Lemma move_block_concat fl k b fl' :
  NoDup (concat fl) → b ∈ concat fl →
  dlist_push_head (dlist_delete b fl) k b = Some fl' →
  NoDup (concat fl') ∧ length (concat fl') = length (concat fl) ∧
  (∀ x, x ∈ concat fl' ↔ x ∈ concat fl) ∧ length fl' = length fl.
Proof.
  intros Hnd Hb Hp. pose proof (dlist_push_head_concat _ _ _ _ Hp) as Hperm.
  pose proof (dlist_push_head_length _ _ _ _ Hp) as Hlen.
  rewrite dlist_delete_length in Hlen.
  rewrite dlist_delete_concat in Hperm. split; [|split; [|split]].
  - rewrite Hperm. apply NoDup_cons. split.
    + rewrite list_elem_of_filter. intros [Hne _]. by apply Hne.
    + by apply NoDup_filter.
  - rewrite Hperm. simpl. by apply filter_ne_length.
  - intros x. rewrite Hperm, elem_of_cons, list_elem_of_filter.
    destruct (decide (x = b)) as [->|]; naive_solver.
  - done.
Qed.

Lemma state_inv_intro st L :
  (∀ c s, contexts st !! c = Some s → ctx_inv st L c s) → global_inv st L →
  state_inv (st, L).
Proof. by split. Qed.

Lemma SlabAlloc_take_eq c s st b l B next fl' :
  geometry_ok s →
  bucket (freelist s) (minFreeChunks s) = Some (b :: l) →
  blocks st !! b = Some B →
  words st !! chunk_pointer s b (firstFreeChunk B) = Some next →
  0 < nfree B ≤ chunksPerBlock s →
  dlist_push_head (dlist_delete b (freelist s)) (nfree B - 1) b = Some fl' →
  ∃ mfc,
    SlabAlloc_take c s st
      = Done (Some (chunk_pointer s b (firstFreeChunk B))) (take_state c s st b B next fl' mfc) ∧
    (nfree B - 1 ≠ 0 → mfc = nfree B - 1) ∧
    (mfc = 0 ∨ 0 < mfc < chunksPerBlock s ∧ ∃ b' l', bucket fl' mfc = Some (b' :: l')).
Proof.
  intros Hg Hbk HB Hw Hn Hp. pose proof Hg as (Hc & _ & _ & _ & Hlen).
  unfold SlabAlloc_take. rewrite Hbk. simpl. rewrite HB.
  unfold chunk_pointer in Hw. rewrite Hw.
  rewrite (to_int_id (nfree B - 1)) by (unfold INT_MIN, INT_MAX in *; lia).
  rewrite Hp. pose proof (dlist_push_head_length _ _ _ _ Hp) as Hlen'.
  rewrite dlist_delete_length in Hlen'.
  destruct (decide (nfree B - 1 = 0)) as [H0|H0].
  - destruct (SlabAlloc_rescan_spec (Z.to_nat (chunksPerBlock s)) 1 fl') as (r & Hr & Hcases);
      [lia | lia |].
    rewrite H0 in *. rewrite Hr.
    exists (if decide (r = chunksPerBlock s) then 0 else r).
    split; [by unfold take_state; rewrite H0 | split; [done|]].
    case_decide; [by left|].
    destruct Hcases as [[-> _]|(Hrng & Hne & _)]; [by left | right].
    split; [lia | done].
  - exists (nfree B - 1). rewrite decide_False by lia. split; [done | split; [done|]].
    right. split; [lia|].
    rewrite (dlist_push_head_bucket _ _ _ _ (nfree B - 1) Hp), decide_True by done.
    destruct (bucket_lookup (dlist_delete b (freelist s)) (nfree B - 1)) as [l0 ->];
      [rewrite dlist_delete_length; lia | simpl; eauto].
Qed.

Lemma global_block_not_context st L b B c s :
  global_inv st L → blocks st !! b = Some B → contexts st !! c = Some s → c ≠ b.
Proof.
  intros (_ & Hb & _) HB Hc ->. destruct (Hb _ _ HB) as [Hn _]. congruence.
Qed.

Lemma take_state_inv st L c s b l B next fl' mfc :
  take_pre st L c s →
  bucket (freelist s) (minFreeChunks s) = Some (b :: l) →
  blocks st !! b = Some B →
  words st !! chunk_pointer s b (firstFreeChunk B) = Some next →
  dlist_push_head (dlist_delete b (freelist s)) (nfree B - 1) b = Some fl' →
  (mfc = 0 ∨ 0 < mfc < chunksPerBlock s ∧ ∃ b' l', bucket fl' mfc = Some (b' :: l')) →
  state_inv (take_state c s st b B next fl' mfc,
             <[chunk_pointer s b (firstFreeChunk B) := c]> L).
Proof.
  intros (Hctx & Hcore & Hmin & (b0 & l0 & Hbk0 & Hlast) & Hoth & Hglob) Hbk HB Hw Hp Hmfc.
  rewrite Hbk in Hbk0. inversion Hbk0; subst b0 l0. clear Hbk0.
  pose proof Hcore as (Hg & Hreg & Hblocks & Hnd & Hnb & Hmem).
  pose proof (bucket_head_in _ _ _ _ Hbk) as Hin.
  destruct (Hblocks _ _ Hin) as (B0 & lf & HB0 & Hnf & Hsl & Hrb & Hch & Hndl & Hlen & Hlive).
  rewrite HB in HB0. inversion HB0; subst B0. clear HB0.
  rewrite Z2Nat.id in Hnf, Hlen by lia.
  destruct lf as [|i lf]; [simpl in Hlen; lia|].
  simpl in Hch. destruct Hch as (Hfirst & Hi & next0 & Hnext0 & Hch).
  rewrite Hfirst in *.
  rewrite Hw in Hnext0. inversion Hnext0; subst next0. clear Hnext0.
  apply NoDup_cons in Hndl as [Hil Hndl].
  assert (Hbin : b ∈ concat (freelist s)) by (apply elem_of_concat_bucket; eauto).
  destruct (move_block_concat _ _ _ _ Hnd Hbin Hp) as (Hnd' & Hlen' & Hmem' & Hfll).
  set (s' := set_minFreeChunks mfc (set_freelist fl' s)).
  assert (Hsg : same_geometry s s') by (by repeat split).
  set (p := chunk_pointer s b i). set (L' := <[p := c]> L).
  set (st' := take_state c s st b B next fl' mfc).
  pose proof (chunk_in_region s b i Hg Hi) as Hpin. fold p in Hpin.
  assert (Hlc : local_change st L st' L' b (blockSize s)).
  { split.
    - intros x Hx. simpl. by rewrite lookup_insert_ne.
    - intros a Ha. simpl. split; [done|]. split.
      + unfold L'. rewrite lookup_insert_ne; [done | clearbody p; lia].
      + rewrite Hfirst, lookup_insert_ne; [done | clearbody p; lia]. }
  assert (Hap : region_apart st b (blockSize s))
    by (apply region_apart_disjoint; [apply Hglob | done]).
  assert (Hcb : c ≠ b) by (by eapply global_block_not_context).
  apply state_inv_intro.
  - (* the contexts *)
    intros c' s'' Hc'. simpl in Hc'.
    destruct (decide (c' = c)) as [->|Hne].
    + rewrite lookup_insert_eq in Hc'. inversion Hc'; subst s''. clear Hc'.
      split; [|split].
      * (* ctx_core *)
        split; [by eapply geometry_ok_same|]. split; [done|]. split; [|split; [done|]].
        -- intros k x Hkx. simpl in Hkx.
           apply (in_bucket_push _ _ _ _ _ _ Hp) in Hkx as [[-> ->]|Hkx].
           ++ (* the block allocated from *)
              apply (block_inv_same_geometry _ _ _ s); [done|].
              exists (mkSlabBlock (nfree B - 1) next (slab B)), lf. simpl.
              rewrite lookup_insert_eq. rewrite Z2Nat.id by lia.
              repeat (split; [done|]).
              split; [simpl in Hlen; lia|]. rewrite Hfirst.
              intros j Hj. specialize (Hlive j Hj). unfold L'.
              destruct (decide (j = i)) as [->|Hji].
              ** rewrite decide_False by done. fold p.
                 by rewrite !lookup_insert_eq.
              ** assert (chunk_pointer s b j ≠ p)
                   by (intros ?%chunk_pointer_inj; done).
                 assert (SlabBlockGetChunk s b j ≠ SlabBlockGetChunk s b i)
                   by (intros ?%SlabBlockGetChunk_inj; done).
                 rewrite !lookup_insert_ne by done.
                 destruct (decide (j ∈ lf)) as [Hjl|Hjl].
                 --- rewrite decide_True in Hlive by (apply elem_of_cons; auto). done.
                 --- rewrite decide_False in Hlive; [done|].
                     intros [?|?]%elem_of_cons; done.
           ++ apply in_bucket_delete in Hkx as [Hxb Hkx].
              apply (block_inv_same_geometry _ _ _ s); [done|].
              eapply block_inv_local; [by apply Hblocks | done..].
        -- simpl. rewrite Hlen'. done.
      * (* the last list is empty *)
        simpl. destruct (bucket_lookup fl' (chunksPerBlock s)) as [lc Hlc'].
        { destruct Hg as (? & _ & _ & _ & Hl). rewrite Hfll, Hl. lia. }
        rewrite Hlc'. f_equal. eapply bucket_empty; [done|].
        intros x Hx. apply (in_bucket_push _ _ _ _ _ _ Hp) in Hx as [[Hk ->]|Hx]; [lia|].
        apply in_bucket_delete in Hx as [Hxb Hx]. by apply Hxb, Hlast.
      * (* minFreeChunks *)
        unfold minFreeChunks_ok. simpl. done.
    + rewrite lookup_insert_ne in Hc' by done.
      pose proof (Hoth _ _ Hne Hc') as Hinv.
      eapply ctx_inv_local; [done| |  |done..].
      * by eapply global_block_not_context.
      * intros Hb'. eapply (block_of_other_context st L c s c' s''); try done.
        by destruct Hinv.
  - (* the global part *)
    destruct Hglob as (Hdisj & Hown & Hlive').
    split; [done|]. split.
    + intros x X HX. simpl in HX. simpl.
      destruct (decide (x = b)) as [->|Hxb].
      * rewrite lookup_insert_eq in HX. inversion HX; subst X. simpl.
        rewrite Hsl. rewrite lookup_insert_eq. rewrite lookup_insert_ne by done.
        split; [by destruct (Hown _ _ HB)|].
        exists s'. split; [done|]. simpl. by apply Hmem'.
      * rewrite lookup_insert_ne in HX by done.
        destruct (Hown _ _ HX) as (Hnc & s0 & Hs0 & Hx0).
        assert (x ≠ c) by congruence.
        rewrite lookup_insert_ne by done. split; [done|].
        destruct (decide (slab X = c)) as [Hsx|Hsx].
        -- rewrite Hsx in *. rewrite lookup_insert_eq. exists s'. split; [done|].
           simpl. apply Hmem'. congruence.
        -- rewrite lookup_insert_ne by done. eauto.
    + intros q cq Hq. unfold L' in Hq. simpl.
      destruct (decide (q = p)) as [->|Hqp].
      * rewrite lookup_insert_eq in Hq. inversion Hq; subst cq.
        exists s', b, i. rewrite lookup_insert_eq. split; [done|].
        split; [by apply Hmem'|]. split; [done|].
        by rewrite (same_geometry_pointer s s').
      * rewrite lookup_insert_ne in Hq by done.
        destruct (Hlive' _ _ Hq) as (s0 & b0 & i0 & Hs0 & Hb0 & Hi0 & ->).
        destruct (decide (cq = c)) as [->|Hcq].
        -- rewrite Hctx in Hs0. inversion Hs0; subst s0.
           exists s', b0, i0. rewrite lookup_insert_eq. split; [done|].
           split; [by apply Hmem'|]. split; [done|].
           by rewrite (same_geometry_pointer s s').
        -- exists s0, b0, i0. by rewrite lookup_insert_ne.
Qed.

(** The loop over a new block stores [idx + 1] in chunk [idx] and touches
    nothing else. *)
Lemma SlabAlloc_init_chunks_other s b n idx w a :
  (∀ j, idx ≤ j < idx + Z.of_nat n → a ≠ chunk_pointer s b j) →
  SlabAlloc_init_chunks n idx s b w !! a = w !! a.
Proof.
  revert idx w. induction n as [|n IH]; intros idx w Ha; [done|].
  simpl. rewrite IH by (intros; apply Ha; lia).
  rewrite lookup_insert_ne; [done|]. intros Heq. by apply (Ha idx); [lia|].
Qed.

Lemma SlabAlloc_init_chunks_lookup s b n idx w j :
  geometry_ok s → idx ≤ j < idx + Z.of_nat n →
  INT_MIN ≤ j + 1 ≤ INT_MAX →
  SlabAlloc_init_chunks n idx s b w !! chunk_pointer s b j = Some (j + 1).
Proof.
  intros Hg. revert idx w. induction n as [|n IH]; intros idx w Hj Hr; [lia|].
  simpl. destruct (decide (j = idx)) as [->|Hne].
  - rewrite SlabAlloc_init_chunks_other.
    + fold (chunk_pointer s b idx). rewrite lookup_insert_eq. f_equal. by apply to_int_id.
    + intros k Hk ?%chunk_pointer_inj; [lia | done].
  - apply IH; lia.
Qed.

Lemma chain_seqZ s b w j (n : nat) :
  0 ≤ j → j + Z.of_nat n = chunksPerBlock s →
  (∀ i, j ≤ i < chunksPerBlock s → w !! chunk_pointer s b i = Some (i + 1)) →
  chain s b w j (seqZ j (Z.of_nat n)).
Proof.
  revert j. induction n as [|n IH]; intros j Hj Hn Hw.
  - simpl. lia.
  - rewrite seqZ_cons by lia. simpl. split; [done|]. split; [lia|].
    exists (j + 1). split; [apply Hw; lia|].
    replace (Z.succ j) with (j + 1) by lia.
    replace (Z.pred (Z.of_nat (S n))) with (Z.of_nat n) by lia.
    apply IH; [lia | lia |]. intros i Hi. apply Hw. lia.
Qed.

(** No caller holds a chunk inside a region that malloc has just handed out. *)
Lemma fresh_region_not_live st L a n p c :
  state_inv (st, L) → malloc_fresh st a n → L !! p = Some c → ¬ (a < p < a + n).
Proof.
  intros [Hctx (_ & _ & Hlive)] (_ & _ & Hall) Hp Hin. simpl in *.
  destruct (Hlive _ _ Hp) as (s0 & b0 & i0 & Hs0 & Hb0 & Hi0 & ->).
  destruct (Hctx _ _ Hs0) as ((Hg & _ & Hbl & _) & _).
  apply elem_of_concat_bucket in Hb0 as [k Hk].
  destruct (Hbl _ _ Hk) as (B0 & ? & _ & _ & _ & Hr & _).
  specialize (Hall _ _ Hr). simpl in Hall.
  pose proof (chunk_in_region s0 b0 i0 Hg Hi0). lia.
Qed.


Lemma new_block_pre st L c s a :
  state_inv (st, L) → contexts st !! c = Some s → malloc_fresh st a (blockSize s) →
  ∃ s1 st2,
    SlabAlloc_new_block c s a (malloc (Some a) (blockSize s) st).2 = Some (s1, st2) ∧
    take_pre (set_contexts (<[c := s1]> (contexts st2)) st2) L c s1 ∧
    minFreeChunks s1 = chunksPerBlock s ∧ same_geometry s s1 ∧
    bucket (freelist s1) (chunksPerBlock s) = Some [a] ∧
    blocks st2 !! a = Some (mkSlabBlock (chunksPerBlock s) 0 c) ∧
    (∀ i, 0 ≤ i < chunksPerBlock s → words st2 !! chunk_pointer s a i = Some (i + 1)) ∧
    contexts st2 = contexts st.
Proof.
  intros Hinv Hctx Hfresh. pose proof Hinv as [Hall Hglob]. simpl in Hall, Hglob.
  pose proof (Hall _ _ Hctx) as (Hcore & Hlast & Hmfc).
  pose proof Hcore as (Hg & Hreg & Hblocks & Hnd & Hnb & Hmem).
  pose proof Hg as (Hcpb & _ & _ & _ & Hlen).
  pose proof Hfresh as (Ha0 & Hanew & Hafar).
  unfold SlabAlloc_new_block, dlist_push_head. rewrite Hlast.
  eexists _, _. split; [done|]. simpl.
  set (fl1 := <[Z.to_nat (chunksPerBlock s) := [a]]> (freelist s)).
  set (s1 := set_mem_allocated _ _).
  set (w2 := SlabAlloc_init_chunks _ _ _ _ _).
  set (st2w := set_contexts _ _).
  assert (Hpush : dlist_push_head (freelist s) (chunksPerBlock s) a = Some fl1)
    by (unfold dlist_push_head; by rewrite Hlast).
  assert (Hsg : same_geometry s s1).
  { repeat split; try done. simpl. unfold fl1. by rewrite length_insert. }
  assert (Hw2 : ∀ i, 0 ≤ i < chunksPerBlock s → w2 !! chunk_pointer s a i = Some (i + 1)).
  { intros i Hi. apply SlabAlloc_init_chunks_lookup; [done | lia |].
    unfold INT_MIN, INT_MAX in *. lia. }
  assert (Hlc : local_change st L st2w L a (blockSize s)).
  { split.
    - intros x Hx. simpl. by rewrite !lookup_insert_ne.
    - intros p Hp. simpl. split; [|done]. unfold w2.
      apply SlabAlloc_init_chunks_other. intros j Hj ->.
      apply Hp. pose proof (chunk_in_region s a j Hg ltac:(lia)). lia. }
  assert (Hap : region_apart st a (blockSize s)) by (by apply region_apart_fresh).
  assert (Hca : ∀ c' s', contexts st !! c' = Some s' → c' ≠ a).
  { intros c' s' Hc' ->. destruct (Hall _ _ Hc') as ((_ & Hr & _) & _). congruence. }
  assert (Hanot : ∀ c' s', contexts st !! c' = Some s' → a ∉ concat (freelist s')).
  { intros c' s' Hc' [k Hk]%elem_of_concat_bucket.
    destruct (Hall _ _ Hc') as ((_ & _ & Hbl & _) & _).
    destruct (Hbl _ _ Hk) as (? & ? & _ & _ & _ & Hr & _). congruence. }
  assert (Hperm : concat fl1 ≡ₚ a :: concat (freelist s))
    by (by eapply dlist_push_head_concat).
  split; [|split; [done|split; [done|split; [|split; [|split; [done|done]]]]]].
  - (* take_pre *)
    split; [by simpl; rewrite lookup_insert_eq|]. split; [|split; [|split; [|split]]].
    + (* ctx_core *)
      split; [by eapply geometry_ok_same|].
      split; [simpl; rewrite lookup_insert_ne; [done | by apply not_eq_sym; eapply Hca]|].
      split; [|split; [|split]].
      * intros k x Hkx. simpl in Hkx.
        apply (in_bucket_push _ _ _ _ _ _ Hpush) in Hkx as [[-> ->]|Hkx].
        -- apply (block_inv_same_geometry _ _ _ s); [done|].
           exists (mkSlabBlock (chunksPerBlock s) 0 c), (seqZ 0 (chunksPerBlock s)).
           simpl. rewrite !lookup_insert_eq. rewrite Z2Nat.id by lia.
           repeat (split; [done|]). split; [|split; [|split]].
           ++ replace (seqZ 0 (chunksPerBlock s))
                with (seqZ 0 (Z.of_nat (Z.to_nat (chunksPerBlock s))))
                by (by rewrite Z2Nat.id by lia).
              apply chain_seqZ; [lia | lia |]. intros i Hi. apply Hw2. lia.
           ++ apply NoDup_seqZ.
           ++ rewrite length_seqZ. lia.
           ++ intros i Hi. rewrite decide_True by (apply elem_of_seqZ; lia).
              destruct (L !! chunk_pointer s a i) as [c0|] eqn:HL; [|done].
              exfalso. eapply (fresh_region_not_live st L a); [done..|].
              pose proof (chunk_in_region s a i Hg Hi). lia.
        -- apply (block_inv_same_geometry _ _ _ s); [done|].
           eapply block_inv_local; [by apply Hblocks | done | | done..].
           intros ->. eapply Hanot; [done|]. apply elem_of_concat_bucket. eauto.
      * simpl. rewrite Hperm. apply NoDup_cons. split; [by eapply Hanot | done].
      * simpl. rewrite Hperm. simpl. rewrite Hnb, to_int_idemp_add. f_equal. lia.
      * simpl. rewrite Hperm. simpl. rewrite Hmem, to_size_idemp_add. f_equal. lia.
    + simpl. lia.
    + exists a, []. simpl. split.
      * rewrite (dlist_push_head_bucket _ _ _ _ _ Hpush), decide_True by done.
        by rewrite Hlast.
      * intros b' Hb'. apply (in_bucket_push _ _ _ _ _ _ Hpush) in Hb' as [[_ ->]|Hb']; [done|].
        destruct Hb' as (l & Hl & Hb').
        apply bucket_Some in Hlast as [_ Hlast]. rewrite Hlast in Hl.
        inversion Hl; subst. by apply elem_of_nil in Hb'.
    + intros c' s' Hne Hc'. simpl in Hc'. rewrite lookup_insert_ne in Hc' by done.
      eapply ctx_inv_local; [by apply Hall | by eapply Hca | by eapply Hanot | done..].
    + (* global_inv *)
      destruct Hglob as (Hdisj & Hown & Hlive). split; [|split].
      * intros a1 n1 a2 n2. simpl. intros H1 H2 Hne.
        destruct (decide (a1 = a)) as [->|Ha1]; destruct (decide (a2 = a)) as [->|Ha2];
          try done.
        -- rewrite lookup_insert_eq in H1. rewrite lookup_insert_ne in H2 by done.
           inversion H1; subst. by apply (Hafar _ _ H2).
        -- rewrite lookup_insert_eq in H2. rewrite lookup_insert_ne in H1 by done.
           inversion H2; subst. specialize (Hafar _ _ H1). simpl in Hafar. lia.
        -- rewrite lookup_insert_ne in H1, H2 by done. by eapply Hdisj.
      * intros x X. simpl. intros HX.
        destruct (decide (x = a)) as [->|Hxa].
        -- rewrite lookup_insert_eq in HX. inversion HX; subst X. simpl.
           rewrite lookup_insert_eq. split.
           ++ rewrite lookup_insert_ne by (by eapply Hca).
              destruct (contexts st !! a) eqn:Hca'; [|done]. by destruct (Hca _ _ Hca').
           ++ exists s1. split; [done|]. simpl. rewrite Hperm. apply elem_of_cons; auto.
        -- rewrite lookup_insert_ne in HX by done.
           destruct (Hown _ _ HX) as (Hnc & s0 & Hs0 & Hx0).
           assert (x ≠ c) by congruence.
           rewrite lookup_insert_ne by done. split; [done|].
           destruct (decide (slab X = c)) as [Hsx|Hsx].
           ++ rewrite Hsx in *. rewrite lookup_insert_eq. exists s1. split; [done|].
              simpl. rewrite Hperm. apply elem_of_cons. right. congruence.
           ++ rewrite lookup_insert_ne by done. eauto.
      * intros q cq Hq. simpl.
        destruct (Hlive _ _ Hq) as (s0 & b0 & i0 & Hs0 & Hb0 & Hi0 & ->).
        destruct (decide (cq = c)) as [->|Hcq].
        -- rewrite Hctx in Hs0. inversion Hs0; subst s0.
           exists s1, b0, i0. rewrite lookup_insert_eq. split; [done|].
           split; [simpl; rewrite Hperm; apply elem_of_cons; auto|]. split; [done|].
           by rewrite (same_geometry_pointer s s1).
        -- exists s0, b0, i0. by rewrite lookup_insert_ne.
  - simpl. rewrite (dlist_push_head_bucket _ _ _ _ _ Hpush), decide_True by done.
    by rewrite Hlast.
  - simpl. by rewrite lookup_insert_eq.
Qed.

Lemma take_pre_of_inv st L c s :
  state_inv (st, L) → contexts st !! c = Some s → minFreeChunks s ≠ 0 →
  take_pre st L c s.
Proof.
  intros [Hall Hglob] Hctx Hmin. simpl in *.
  destruct (Hall _ _ Hctx) as (Hcore & Hlast & [Hm|[Hm (b & l & Hb)]]); [done|].
  split; [done|]. split; [done|]. split; [lia|]. split; [|split; [|done]].
  - exists b, l. split; [done|]. intros b' (l' & Hl' & Hb').
    apply bucket_Some in Hlast as [_ Hlast]. rewrite Hlast in Hl'.
    inversion Hl'; subst. by apply elem_of_nil in Hb'.
  - intros c' s' _ Hc'. by apply Hall.
Qed.

(** SlabAlloc_take reads the context from its argument, not from memory. *)
Lemma SlabAlloc_take_contexts c s s0 st :
  SlabAlloc_take c s (set_contexts (<[c := s0]> (contexts st)) st) = SlabAlloc_take c s st.
Proof.
  unfold SlabAlloc_take. simpl.
  repeat case_match; try done;
    unfold MemoryChunkSetHdrMask, set_contexts, set_blocks, set_chunkhdrs; simpl;
    by rewrite insert_insert_eq.
Qed.

(** What one allocation from the head [b] of list minFreeChunks does. *)
Lemma SlabAlloc_take_ok st L c s :
  take_pre st L c s →
  ∃ b l B next fl' mfc,
    bucket (freelist s) (minFreeChunks s) = Some (b :: l) ∧
    blocks st !! b = Some B ∧ nfree B = minFreeChunks s ∧
    words st !! chunk_pointer s b (firstFreeChunk B) = Some next ∧
    dlist_push_head (dlist_delete b (freelist s)) (nfree B - 1) b = Some fl' ∧
    (nfree B - 1 ≠ 0 → mfc = nfree B - 1) ∧
    SlabAlloc_take c s st
      = Done (Some (chunk_pointer s b (firstFreeChunk B)))
             (take_state c s st b B next fl' mfc) ∧
    state_inv (take_state c s st b B next fl' mfc,
               <[chunk_pointer s b (firstFreeChunk B) := c]> L).
Proof.
  intros Hpre.
  pose proof Hpre as (Hctx & Hcore & Hmin & (b & l & Hbk & Hlast) & Hoth & Hglob).
  pose proof Hcore as (Hg & Hreg & Hblocks & Hnd & Hnb & Hmem).
  pose proof Hg as (Hcpb & _ & _ & _ & Hlen).
  destruct (Hblocks _ _ (bucket_head_in _ _ _ _ Hbk))
    as (B & lf & HB & Hnf & Hsl & Hrb & Hch & Hndl & Hlenl & Hlive).
  rewrite Z2Nat.id in Hnf, Hlenl by lia.
  destruct lf as [|i lf]; [simpl in Hlenl; lia|].
  destruct Hch as (Hfirst & Hi & next & Hnext & Hch).
  destruct (dlist_push_head_is_Some (dlist_delete b (freelist s)) (nfree B - 1) b)
    as [fl' Hp]; [rewrite dlist_delete_length; lia|].
  destruct (SlabAlloc_take_eq c s st b l B next fl') as (mfc & Heq & Hmfc1 & Hmfc2);
    [done | done | done | by rewrite Hfirst | lia | done |].
  exists b, l, B, next, fl', mfc. rewrite Hfirst in *.
  repeat (split; [done|]). rewrite <- Hfirst.
  eapply take_state_inv; try done. by rewrite Hfirst.
Qed.

Lemma SlabAlloc_ok st L c s m :
  state_inv (st, L) → contexts st !! c = Some s → malloc_valid st m (blockSize s) →
  (m = None ∧ minFreeChunks s = 0 ∧ SlabAlloc m c (chunkSize s) st = Done None st) ∨
  (∃ p st', SlabAlloc m c (chunkSize s) st = Done (Some p) st' ∧
            state_inv (st', <[p := c]> L) ∧ (minFreeChunks s = 0 → is_Some m)).
Proof.
  intros Hinv Hctx Hm. unfold SlabAlloc. rewrite Hctx.
  rewrite decide_False by (intros Hn; by apply Hn).
  destruct (decide (minFreeChunks s = 0)) as [H0|H0].
  - destruct m as [a|]; [right | by left].
    destruct (new_block_pre st L c s a Hinv Hctx Hm) as (s1 & st2 & Hnew & Hpre & _).
    simpl in Hnew. simpl. rewrite Hnew.
    destruct (SlabAlloc_take_ok _ _ _ _ Hpre)
      as (b & l & B & next & fl' & mfc & _ & _ & _ & _ & _ & _ & Heq & Hinv').
    rewrite SlabAlloc_take_contexts in Heq. rewrite Heq. eauto 10.
  - right. pose proof (take_pre_of_inv _ _ _ _ Hinv Hctx H0) as Hpre.
    destruct (SlabAlloc_take_ok _ _ _ _ Hpre)
      as (b & l & B & next & fl' & mfc & _ & _ & _ & _ & _ & _ & Heq & Hinv').
    rewrite Heq. eexists _, _. split; [done|]. split; [done|]. done.
Qed.

Lemma SlabFree_minFreeChunks_Some s fl1 k :
  geometry_ok s → length fl1 = length (freelist s) →
  0 ≤ minFreeChunks s < chunksPerBlock s → 0 ≤ k < chunksPerBlock s →
  ∃ mfc, SlabFree_minFreeChunks s fl1 (k + 1) = Some mfc ∧
    (minFreeChunks s = k →
       ∃ l, bucket fl1 k = Some l ∧
         mfc = if dlist_is_empty l
               then if decide (k + 1 = chunksPerBlock s) then 0 else k + 1
               else k) ∧
    (minFreeChunks s ≠ k → mfc = minFreeChunks s).
Proof.
  intros (Hc & _ & _ & _ & Hlen) Hl Hm Hk. unfold SlabFree_minFreeChunks.
  replace (k + 1 - 1) with k by lia.
  rewrite (to_int_id k) by (unfold INT_MIN, INT_MAX in *; lia).
  destruct (decide (minFreeChunks s = k)) as [Heq|Hne].
  - rewrite Heq. destruct (bucket_lookup fl1 k) as [l Hbl]; [lia|]. rewrite Hbl.
    rewrite (to_int_id (k + 1)) by (unfold INT_MIN, INT_MAX in *; lia).
    destruct l; simpl; case_decide; eexists; (split; [done|]); split; try done; eauto.
  - eexists. split; [done|]. split; done.
Qed.

Lemma SlabFree_eq st p s b i B n :
  geometry_ok s → 0 ≤ i < chunksPerBlock s → p = chunk_pointer s b i →
  hdr_block <$> chunkhdrs st !! SlabBlockGetChunk s b i = Some b →
  blocks st !! b = Some B → contexts st !! slab B = Some s →
  0 ≤ nfree B < chunksPerBlock s → 0 ≤ minFreeChunks s < chunksPerBlock s →
  regions st !! b = Some n →
  ∃ mfc, SlabFree_minFreeChunks s (dlist_delete b (freelist s)) (nfree B + 1) = Some mfc ∧
    if decide (nfree B + 1 = chunksPerBlock s)
    then SlabFree p st = Done () (free_state_reclaim st p b B i s mfc)
    else ∃ fl2, dlist_push_head (dlist_delete b (freelist s)) (nfree B + 1) b = Some fl2 ∧
                SlabFree p st = Done () (free_state_keep st p b B i s mfc fl2).
Proof.
  intros Hg Hi -> Hhdr HB Hctx Hn Hm Hr. pose proof Hg as (Hc & _ & _ & _ & Hlen).
  destruct (SlabFree_minFreeChunks_Some s (dlist_delete b (freelist s)) (nfree B))
    as (mfc & Hmfc & _); [done | apply dlist_delete_length | done | done |].
  exists mfc. split; [done|].
  unfold SlabFree, MemoryChunkGetBlock.
  rewrite PointerGetMemoryChunk_pointer, Hhdr, HB, Hctx.
  rewrite SlabChunkIndex_chunk by done. simpl.
  rewrite (to_int_id (nfree B + 1)) by (unfold INT_MIN, INT_MAX in *; lia).
  rewrite Hmfc. simpl.
  destruct (decide (nfree B + 1 = chunksPerBlock s)) as [Hfull|Hpart].
  - unfold free_SlabBlock, free. simpl. rewrite Hr. done.
  - destruct (dlist_push_head_is_Some (dlist_delete b (freelist s)) (nfree B + 1) b)
      as [fl2 Hp]; [rewrite dlist_delete_length; lia|].
    exists fl2. split; [done|]. by rewrite Hp.
Qed.

(** Indices without repetition below [n] are at most [n]. *)
Lemma NoDup_range_length (l : list Z) n :
  NoDup l → Forall (λ i, 0 ≤ i < n) l → Z.of_nat (length l) ≤ Z.max n 0.
Proof.
  intros Hnd Hall.
  assert (l ⊆+ seqZ 0 n) as Hsub.
  { apply NoDup_submseteq; [done|]. intros x Hx. apply elem_of_seqZ.
    rewrite Forall_forall in Hall. specialize (Hall x Hx). lia. }
  apply submseteq_length in Hsub. rewrite length_seqZ in Hsub. lia.
Qed.

(** What the invariant says of a chunk a caller holds. *)
Lemma live_chunk st L p c :
  state_inv (st, L) → L !! p = Some c →
  ∃ s b i B lf (k : nat),
    contexts st !! c = Some s ∧ ctx_inv st L c s ∧ in_bucket (freelist s) k b ∧
    0 ≤ i < chunksPerBlock s ∧ p = chunk_pointer s b i ∧
    blocks st !! b = Some B ∧ nfree B = Z.of_nat k ∧ slab B = c ∧
    regions st !! b = Some (blockSize s) ∧
    chain s b (words st) (firstFreeChunk B) lf ∧ NoDup lf ∧
    Z.of_nat (length lf) = Z.of_nat k ∧ (i ∉ lf) ∧
    chunkhdrs st !! SlabBlockGetChunk s b i
      = Some (mkMemoryChunk b (MAXALIGN (chunkSize s)) MCTX_SLAB_ID) ∧
    0 ≤ nfree B < chunksPerBlock s ∧
    (∀ j, 0 ≤ j < chunksPerBlock s →
       if decide (j ∈ lf) then L !! chunk_pointer s b j = None
       else L !! chunk_pointer s b j = Some c ∧
            chunkhdrs st !! SlabBlockGetChunk s b j
              = Some (mkMemoryChunk b (MAXALIGN (chunkSize s)) MCTX_SLAB_ID)).
Proof.
  intros [Hall (Hdisj & Hown & Hlive)] Hp. simpl in *.
  destruct (Hlive _ _ Hp) as (s & b & i & Hs & Hb & Hi & ->).
  pose proof (Hall _ _ Hs) as Hinv. pose proof Hinv as ((Hg & _ & Hbl & _) & Hlast & _).
  apply elem_of_concat_bucket in Hb as [k Hk].
  destruct (Hbl _ _ Hk) as (B & lf & HB & Hnf & Hsl & Hr & Hch & Hnd & Hlen & Hlv).
  pose proof (Hlv i Hi) as Hlvi. rewrite Hp in Hlvi.
  destruct (decide (i ∈ lf)) as [|Hni]; [done|]. destruct Hlvi as [_ Hhdr].
  exists s, b, i, B, lf, k. repeat (split; [done|]). split; [|done].
  destruct Hk as (l & Hl & Hbl').
  pose proof (lookup_lt_Some _ _ _ Hl) as Hlt.
  destruct Hg as (Hc & _ & _ & _ & Hlen').
  destruct (decide (Z.of_nat k = chunksPerBlock s)) as [Hkc|Hkc]; [|lia].
  exfalso. apply bucket_Some in Hlast as [_ Hlast].
  rewrite <- Hkc, Nat2Z.id, Hl in Hlast. inversion Hlast; subst.
  by apply elem_of_nil in Hbl'.
Qed.

Lemma others_of_inv st L c : state_inv (st, L) → others_inv st L c.
Proof. intros [Hall _] c' s' _ Hc'. by apply Hall. Qed.

(** A list that does not hold [b] is as it was after [b] has been unlinked. *)
Lemma dlist_delete_bucket_other st L c s b (kb : nat) j l :
  ctx_core st L c s → in_bucket (freelist s) kb b → j ≠ Z.of_nat kb →
  bucket (freelist s) j = Some l → bucket (dlist_delete b (freelist s)) j = Some l.
Proof.
  intros Hcore Hkb Hj Hl. rewrite dlist_delete_bucket, Hl. simpl. f_equal.
  apply filter_ne_notin. intros Hbl. apply Hj.
  apply bucket_Some in Hl as [Hj0 Hl].
  assert (in_bucket (freelist s) (Z.to_nat j) b) as Hin by (by exists l).
  rewrite (in_bucket_unique _ _ _ _ _ _ _ Hcore Hkb Hin). lia.
Qed.

Lemma SlabFree_ok st L p c :
  state_inv (st, L) → L !! p = Some c →
  ∃ s b i B mfc,
    contexts st !! c = Some s ∧ 0 ≤ i < chunksPerBlock s ∧ p = chunk_pointer s b i ∧
    blocks st !! b = Some B ∧ slab B = c ∧ 0 ≤ nfree B < chunksPerBlock s ∧
    MemoryChunkGetBlock (PointerGetMemoryChunk p) st = Some b ∧
    if decide (nfree B + 1 = chunksPerBlock s)
    then SlabFree p st = Done () (free_state_reclaim st p b B i s mfc) ∧
         state_inv (free_state_reclaim st p b B i s mfc, delete p L)
    else ∃ fl2,
         dlist_push_head (dlist_delete b (freelist s)) (nfree B + 1) b = Some fl2 ∧
         SlabFree p st = Done () (free_state_keep st p b B i s mfc fl2) ∧
         state_inv (free_state_keep st p b B i s mfc fl2, delete p L).
Proof.
  intros Hinv Hp.
  destruct (live_chunk _ _ _ _ Hinv Hp)
    as (s & b & i & B & lf & k & Hctx & Hcinv & Hkb & Hi & -> & HB & Hnf & Hsl & Hrb
        & Hch & Hndl & Hlen & Hil & Hhdr & Hnr & Hlv).
  pose proof Hinv as [Hall Hglob]. simpl in Hall, Hglob.
  pose proof Hcinv as (Hcore & Hlast & Hmok).
  pose proof Hcore as (Hg & Hreg & Hblocks & Hnd & Hnb & Hmem).
  pose proof Hg as (Hcpb & _ & _ & _ & Hflen).
  assert (Hmr : 0 ≤ minFreeChunks s < chunksPerBlock s) by (destruct Hmok; lia).
  assert (Hbin : b ∈ concat (freelist s)) by (apply elem_of_concat_bucket; eauto).
  destruct (SlabFree_minFreeChunks_Some s (dlist_delete b (freelist s)) (nfree B))
    as (mfc & Hmfc & Hmfc1 & Hmfc2); [done | apply dlist_delete_length | done | done |].
  destruct (SlabFree_eq st _ s b i B (blockSize s) Hg Hi eq_refl) as (mfc' & Hmfc' & Heq);
    [by rewrite Hhdr | done | by rewrite Hsl | done | done | done |].
  rewrite Hmfc in Hmfc'. inversion Hmfc'; subst mfc'. clear Hmfc'.
  exists s, b, i, B, mfc. repeat (split; [done|]).
  split; [by unfold MemoryChunkGetBlock; rewrite PointerGetMemoryChunk_pointer, Hhdr|].
  set (p := chunk_pointer s b i) in *.
  pose proof (chunk_in_region s b i Hg Hi) as Hpin. fold p in Hpin.
  assert (Hap : region_apart st b (blockSize s))
    by (apply region_apart_disjoint; [apply Hglob | done]).
  assert (Hcb : c ≠ b) by (by eapply global_block_not_context).
  set (fl1 := dlist_delete b (freelist s)) in *.
  assert (Hnd1 : NoDup (concat fl1)) by (by apply NoDup_concat_delete).
  assert (Hlen1 : S (length (concat fl1)) = length (concat (freelist s)))
    by (by apply length_concat_delete).
  assert (Hin1 : ∀ x, x ∈ concat fl1 ↔ x ≠ b ∧ x ∈ concat (freelist s)).
  { intros x. unfold fl1. rewrite dlist_delete_concat, list_elem_of_filter. done. }
  assert (Hlast1 : bucket fl1 (chunksPerBlock s) = Some []).
  { unfold fl1. by rewrite dlist_delete_bucket, Hlast. }
  (* minFreeChunks after the call *)
  assert (Hmin1 : mfc = 0 ∨
            (0 < mfc < chunksPerBlock s ∧
             (mfc = nfree B + 1 ∧ nfree B + 1 ≠ chunksPerBlock s
              ∨ ∃ b' l', bucket fl1 mfc = Some (b' :: l')))).
  { destruct (decide (minFreeChunks s = nfree B)) as [Hmk|Hmk].
    - destruct (Hmfc1 Hmk) as (l & Hl & ->).
      destruct l as [|b' l']; simpl.
      + case_decide; [by left | right; split; [lia | left; done]].
      + destruct (decide (nfree B = 0)); [by left | right].
        split; [lia | right; eauto].
    - rewrite (Hmfc2 Hmk). destruct Hmok as [?|[? (b' & l' & Hbl)]]; [by left | right].
      split; [done | right]. exists b', l'.
      eapply (dlist_delete_bucket_other st L c s b k); [done | done | lia | done]. }
  clear Hmfc1 Hmfc2.
  destruct (decide (nfree B + 1 = chunksPerBlock s)) as [Hfull|Hpart].
  - (* the block goes back to the system *)
    split; [done|].
    set (st' := free_state_reclaim st p b B i s mfc).
    set (s' := set_mem_allocated (to_size (mem_allocated s - blockSize s))
                 (set_nblocks (to_int (nblocks s - 1))
                    (set_minFreeChunks mfc (set_freelist fl1 s)))).
    assert (Hst'c : contexts st' = <[c := s']> (contexts st)) by (by simpl; rewrite Hsl).
    assert (Hsg : same_geometry s s').
    { repeat split; try done. simpl. unfold fl1. by rewrite dlist_delete_length. }
    assert (Hlc : local_change st L st' (delete p L) b (blockSize s)).
    { split.
      - intros x Hx. simpl. by rewrite !lookup_delete_ne, ?lookup_insert_ne.
      - intros a Ha. simpl. split; [|split; [|done]].
        + rewrite lookup_insert_ne; [done | clearbody p; lia].
        + rewrite lookup_delete_ne; [done | clearbody p; lia]. }
    apply state_inv_intro.
    + intros c' s'' Hc'. rewrite Hst'c in Hc'.
      destruct (decide (c' = c)) as [->|Hne].
      * rewrite lookup_insert_eq in Hc'. inversion Hc'; subst s''. clear Hc'.
        split; [|split].
        -- split; [by eapply geometry_ok_same|].
           split; [simpl; by rewrite lookup_delete_ne|].
           split; [|split; [done|split]].
           ++ intros j x Hjx. simpl in Hjx. apply in_bucket_delete in Hjx as [Hxb Hjx].
              apply (block_inv_same_geometry _ _ _ s); [done|].
              eapply block_inv_local; [by apply Hblocks | done..].
           ++ simpl. rewrite Hnb, to_int_idemp_sub. f_equal. lia.
           ++ simpl. rewrite Hmem, to_size_idemp_sub. f_equal. lia.
        -- done.
        -- unfold minFreeChunks_ok. simpl.
           destruct Hmin1 as [?|[? [[? ?]|?]]]; [by left | done | by right].
      * rewrite lookup_insert_ne in Hc' by done.
        eapply ctx_inv_local; [by apply Hall | | | done..].
        -- by eapply global_block_not_context.
        -- intros Hb'. eapply (block_of_other_context st L c s c' s''); try done.
           by destruct (Hall _ _ Hc').
    + destruct Hglob as (Hdisj & Hown & Hlive). split; [|split].
      * intros a1 n1 a2 n2. simpl. intros H1 H2 Hne.
        apply lookup_delete_Some in H1 as [_ H1]. apply lookup_delete_Some in H2 as [_ H2].
        by eapply Hdisj.
      * intros x X. rewrite Hst'c. simpl. intros HX.
        apply lookup_delete_Some in HX as [Hxb HX].
        rewrite lookup_insert_ne in HX by done.
        destruct (Hown _ _ HX) as (Hnc & s0 & Hs0 & Hx0).
        assert (x ≠ c) by congruence.
        rewrite lookup_insert_ne by done. split; [done|].
        destruct (decide (slab X = c)) as [Hsx|Hsx].
        -- rewrite Hsx in *. rewrite lookup_insert_eq. exists s'. split; [done|].
           simpl. apply Hin1. split; [done | congruence].
        -- rewrite lookup_insert_ne by done. eauto.
      * intros q cq Hq. rewrite Hst'c.
        apply lookup_delete_Some in Hq as [Hqp Hq].
        destruct (live_chunk _ _ _ _ Hinv Hq)
          as (s0 & b0 & i0 & B0 & lf0 & k0 & Hctx0 & _ & Hkb0 & Hi0 & -> & HB0 & _ & _ & _
              & Hch0 & Hndl0 & _ & Hil0 & _).
        destruct (decide (cq = c)) as [->|Hcq].
        -- rewrite Hctx in Hctx0. inversion Hctx0; subst s0.
           exists s', b0, i0. rewrite lookup_insert_eq. split; [done|]. split; [|split; [done|]].
           ++ simpl. apply Hin1. split; [|apply elem_of_concat_bucket; eauto].
              intros ->. rewrite HB in HB0. inversion HB0; subst B0.
              (* no other chunk of the reclaimed block is live *)
              assert (lf0 = lf) as ->.
              { pose proof (chain_walk _ _ _ _ _ (length lf0 + length lf) Hch0 ltac:(lia)) as W0.
                pose proof (chain_walk _ _ _ _ _ (length lf0 + length lf) Hch ltac:(lia)) as W.
                congruence. }
              assert (i0 ≠ i) by (intros ->; done).
              apply chain_range in Hch.
              assert (Hpg : Z.of_nat (length (i0 :: i :: lf)) ≤ Z.max (chunksPerBlock s) 0).
              { apply NoDup_range_length.
                - apply NoDup_cons. split; [|by apply NoDup_cons].
                  intros [?|?]%elem_of_cons; done.
                - apply Forall_cons. split; [done|]. by apply Forall_cons. }
              simpl length in Hpg. lia.
           ++ by rewrite (same_geometry_pointer s s').
        -- exists s0, b0, i0. rewrite lookup_insert_ne by done. split; [done|].
           split; [apply elem_of_concat_bucket; eauto | done].
  - (* the block stays *)
    destruct Heq as (fl2 & Hpush & Heq). exists fl2. split; [done|]. split; [done|].
    set (st' := free_state_keep st p b B i s mfc fl2).
    set (s' := set_freelist fl2 (set_minFreeChunks mfc (set_freelist fl1 s))).
    assert (Hst'c : contexts st' = <[c := s']> (contexts st)) by (by simpl; rewrite Hsl).
    assert (Hperm : concat fl2 ≡ₚ b :: concat fl1) by (by eapply dlist_push_head_concat).
    assert (Hin2 : ∀ x, x ∈ concat fl2 ↔ x ∈ concat (freelist s)).
    { intros x. rewrite Hperm, elem_of_cons, Hin1.
      destruct (decide (x = b)) as [->|]; naive_solver. }
    assert (Hsg : same_geometry s s').
    { repeat split; try done. simpl.
      rewrite (dlist_push_head_length _ _ _ _ Hpush). unfold fl1.
      by rewrite dlist_delete_length. }
    assert (Hlc : local_change st L st' (delete p L) b (blockSize s)).
    { split.
      - intros x Hx. simpl. by rewrite ?lookup_insert_ne.
      - intros a Ha. simpl. split; [|split; [|done]].
        + rewrite lookup_insert_ne; [done | clearbody p; lia].
        + rewrite lookup_delete_ne; [done | clearbody p; lia]. }
    apply state_inv_intro.
    + intros c' s'' Hc'. rewrite Hst'c in Hc'.
      destruct (decide (c' = c)) as [->|Hne].
      * rewrite lookup_insert_eq in Hc'. inversion Hc'; subst s''. clear Hc'.
        split; [|split].
        -- split; [by eapply geometry_ok_same|]. split; [done|].
           split; [|split; [|split]].
           ++ intros j x Hjx. simpl in Hjx.
              apply (in_bucket_push _ _ _ _ _ _ Hpush) in Hjx as [[-> ->]|Hjx].
              ** apply (block_inv_same_geometry _ _ _ s); [done|].
                 exists (mkSlabBlock (nfree B + 1) i (slab B)), (i :: lf). simpl.
                 rewrite lookup_insert_eq. rewrite Z2Nat.id by lia.
                 repeat (split; [done|]). split; [|split; [|split]].
                 --- split; [done|]. split; [done|]. exists (firstFreeChunk B).
                     split; [by fold p; rewrite lookup_insert_eq|].
                     eapply chain_frame; [|done]. intros j Hj. simpl.
                     rewrite lookup_insert_ne; [done|].
                     intros ?%chunk_pointer_inj; [|done]. congruence.
                 --- by apply NoDup_cons.
                 --- simpl length. lia.
                 --- intros j Hj. specialize (Hlv j Hj).
                     destruct (decide (j = i)) as [->|Hji].
                     +++ rewrite decide_True by (apply elem_of_cons; auto).
                         fold p. by rewrite lookup_delete_eq.
                     +++ assert (chunk_pointer s b j ≠ p)
                           by (intros ?%chunk_pointer_inj; done).
                         rewrite lookup_delete_ne by done.
                         destruct (decide (j ∈ lf)) as [Hjl|Hjl].
                         *** by rewrite decide_True by (apply elem_of_cons; auto).
                         *** rewrite decide_False; [done|].
                             intros [?|?]%elem_of_cons; done.
              ** apply in_bucket_delete in Hjx as [Hxb Hjx].
                 apply (block_inv_same_geometry _ _ _ s); [done|].
                 eapply block_inv_local; [by apply Hblocks | done..].
           ++ simpl. rewrite Hperm. apply NoDup_cons. split; [|done].
              rewrite Hin1. intros [? _]. done.
           ++ simpl. rewrite Hperm. simpl. rewrite Hlen1. done.
           ++ simpl. rewrite Hperm. simpl. rewrite Hlen1. done.
        -- simpl. rewrite (dlist_push_head_bucket _ _ _ _ _ Hpush).
           rewrite decide_False by lia. done.
        -- unfold minFreeChunks_ok. simpl.
           destruct Hmin1 as [?|[? Hcases]]; [by left | right]. split; [done|].
           rewrite (dlist_push_head_bucket _ _ _ _ _ Hpush).
           destruct (bucket_lookup fl1 mfc) as [l1 Hl1];
             [unfold fl1; rewrite dlist_delete_length; lia|].
           rewrite Hl1. case_decide; simpl; [eauto|].
           destruct Hcases as [[? ?]|(b' & l' & Hbl')]; [done|].
           rewrite Hl1 in Hbl'. inversion Hbl'; subst. eauto.
      * rewrite lookup_insert_ne in Hc' by done.
        eapply ctx_inv_local; [by apply Hall | | | done..].
        -- by eapply global_block_not_context.
        -- intros Hb'. eapply (block_of_other_context st L c s c' s''); try done.
           by destruct (Hall _ _ Hc').
    + destruct Hglob as (Hdisj & Hown & Hlive). split; [done|]. split.
      * intros x X. rewrite Hst'c. simpl. intros HX.
        destruct (decide (x = b)) as [->|Hxb].
        -- rewrite lookup_insert_eq in HX. inversion HX; subst X. simpl.
           rewrite Hsl, lookup_insert_eq, lookup_insert_ne by done.
           split; [by destruct (Hown _ _ HB)|]. exists s'. split; [done|].
           simpl. by apply Hin2.
        -- rewrite lookup_insert_ne in HX by done.
           destruct (Hown _ _ HX) as (Hnc & s0 & Hs0 & Hx0).
           assert (x ≠ c) by congruence.
           rewrite lookup_insert_ne by done. split; [done|].
           destruct (decide (slab X = c)) as [Hsx|Hsx].
           ++ rewrite Hsx in *. rewrite lookup_insert_eq. exists s'. split; [done|].
              simpl. apply Hin2. congruence.
           ++ rewrite lookup_insert_ne by done. eauto.
      * intros q cq Hq. rewrite Hst'c.
        apply lookup_delete_Some in Hq as [Hqp Hq].
        destruct (Hlive _ _ Hq) as (s0 & b0 & i0 & Hs0 & Hb0 & Hi0 & ->).
        destruct (decide (cq = c)) as [->|Hcq].
        -- rewrite Hctx in Hs0. inversion Hs0; subst s0.
           exists s', b0, i0. rewrite lookup_insert_eq. split; [done|].
           split; [by apply Hin2|]. split; [done|].
           by rewrite (same_geometry_pointer s s').
        -- exists s0, b0, i0. by rewrite lookup_insert_ne.
Qed.

Lemma ctx_inv_frame st L st' L' c s :
  ctx_inv st L c s →
  regions st' !! c = regions st !! c →
  (∀ b, b ∈ concat (freelist s) →
     blocks st' !! b = blocks st !! b ∧ regions st' !! b = regions st !! b ∧
     ∀ i, 0 ≤ i < chunksPerBlock s →
       words st' !! chunk_pointer s b i = words st !! chunk_pointer s b i ∧
       L' !! chunk_pointer s b i = L !! chunk_pointer s b i ∧
       chunkhdrs st' !! SlabBlockGetChunk s b i = chunkhdrs st !! SlabBlockGetChunk s b i) →
  ctx_inv st' L' c s.
Proof.
  intros ((Hg & Hr & Hbl & Hrest) & Hlast) Hrc Hfr.
  split; [|done]. split; [done|]. split; [congruence|]. split; [|done].
  intros k b Hkb.
  destruct (Hfr b) as (Hb1 & Hb2 & Hmem); [apply elem_of_concat_bucket; eauto|].
  eapply block_inv_frame; [by apply Hbl | done..].
Qed.

Lemma regions_disjoint_insert st a n :
  regions_disjoint st → malloc_fresh st a n →
  regions_disjoint (set_regions (<[a := n]> (regions st)) st).
Proof.
  intros Hdisj (_ & _ & Hafar) a1 n1 a2 n2. simpl. intros H1 H2 Hne.
  destruct (decide (a1 = a)) as [->|Ha1]; destruct (decide (a2 = a)) as [->|Ha2];
    try done.
  - rewrite lookup_insert_eq in H1. rewrite lookup_insert_ne in H2 by done.
    inversion H1; subst. by apply (Hafar _ _ H2).
  - rewrite lookup_insert_eq in H2. rewrite lookup_insert_ne in H1 by done.
    inversion H2; subst. specialize (Hafar _ _ H1). simpl in Hafar. lia.
  - rewrite lookup_insert_ne in H1, H2 by done. by eapply Hdisj.
Qed.

(** The geometry SlabContextCreate computes. *)
Lemma SlabContextCreate_Done m blockSize0 chunkSize0 st c st' :
  SlabContextCreate_pre blockSize0 chunkSize0 →
  SlabContextCreate m blockSize0 chunkSize0 st = Done c st' →
  ∃ s, m = Some c ∧
    st' = set_contexts (<[c := s]> (contexts st))
            (set_regions (<[c := headerSize s]> (regions st)) st) ∧
    geometry_ok s ∧ chunkSize s = Z.max chunkSize0 sizeof_int ∧ blockSize s = blockSize0 ∧
    minFreeChunks s = 0 ∧ nblocks s = 0 ∧ mem_allocated s = 0 ∧
    freelist s = replicate (Z.to_nat (chunksPerBlock s + 1)) [].
Proof.
  intros (Hcs & Hbs & Hmax & Hq). unfold SlabContextCreate.
  set (cs1 := if decide (chunkSize0 < sizeof_int) then sizeof_int else chunkSize0).
  assert (Hcs1 : cs1 = Z.max chunkSize0 sizeof_int) by (unfold cs1; case_decide; lia).
  pose proof sizeof_SlabBlock_pos. pose proof Slab_CHUNKHDRSZ_pos. pose proof sizeof_int_pos.
  pose proof MEMORYCHUNK_MAX_VALUE_fits. pose proof sizeof_int_fits as Hif.
  fold (MAXALIGN sizeof_int) in Hif.
  assert (Hal : cs1 ≤ MAXALIGN cs1 ≤ MEMORYCHUNK_MAX_VALUE).
  { split; [apply MAXALIGN_ge|]. unfold cs1. by case_decide. }
  assert (Hcs1' : sizeof_int ≤ cs1) by lia.
  rewrite (to_size_id (Slab_CHUNKHDRSZ + MAXALIGN cs1)) by lia.
  rewrite (to_size_id (Slab_CHUNKHDRSZ + MAXALIGN cs1 + sizeof_SlabBlock)) by lia.
  case_decide as Hsmall; [done|].
  rewrite (to_size_id (blockSize0 - sizeof_SlabBlock)) by lia.
  rewrite <- Hcs1 in Hq.
  set (fcs := Slab_CHUNKHDRSZ + MAXALIGN cs1) in *.
  set (q := (blockSize0 - sizeof_SlabBlock) / fcs) in *.
  assert (Hq1 : 1 ≤ q).
  { unfold q. apply Z.div_le_lower_bound; lia. }
  assert (Hqm : q * fcs ≤ blockSize0 - sizeof_SlabBlock).
  { unfold q. rewrite Z.mul_comm. apply Z.mul_div_le. lia. }
  rewrite (to_int_id q) by (unfold INT_MIN, INT_MAX in *; lia).
  rewrite (to_int_id (q + 1)) by (unfold INT_MIN, INT_MAX in *; lia).
  destruct m as [a|]; simpl; [|done]. intros [= <- <-].
  match goal with |- context [<[a := ?x]> (contexts st)] => exists x end.
  split; [done|]. split; [done|]. simpl.
  split; [|by rewrite Hcs1].
  unfold geometry_ok. simpl. rewrite length_replicate.
  split; [unfold INT_MAX in *; lia|]. repeat split; try done. lia.
Qed.

Lemma SlabContextCreate_raised m blockSize0 chunkSize0 st e st' :
  SlabContextCreate m blockSize0 chunkSize0 st = Raised e st' → st' = st.
Proof.
  unfold SlabContextCreate. case_decide; [by intros [= _ <-]|].
  destruct m; simpl; [done | by intros [= _ <-]].
Qed.

Lemma in_bucket_replicate n k b : ¬ in_bucket (replicate n []) k b.
Proof.
  intros (l & Hl & Hb). apply lookup_replicate in Hl as [-> _].
  by apply elem_of_nil in Hb.
Qed.

Lemma concat_replicate_nil n : concat (replicate n ([] : list Z)) = [].
Proof. induction n; [done | by simpl]. Qed.

Lemma state_inv_block_region st L b B :
  state_inv (st, L) → blocks st !! b = Some B → is_Some (regions st !! b).
Proof.
  intros [Hall (_ & Hown & _)] HB. simpl in *.
  destruct (Hown _ _ HB) as (_ & s & Hs & [k Hk]%elem_of_concat_bucket).
  destruct (Hall _ _ Hs) as ((_ & _ & Hbl & _) & _).
  destruct (Hbl _ _ Hk) as (? & ? & _ & _ & _ & Hr & _). eauto.
Qed.

Lemma SlabContextCreate_inv m blockSize0 chunkSize0 st L c st' s :
  state_inv (st, L) →
  SlabContextCreate_pre blockSize0 chunkSize0 →
  SlabContextCreate m blockSize0 chunkSize0 st = Done c st' →
  contexts st' !! c = Some s → malloc_fresh st c (headerSize s) →
  state_inv (st', L).
Proof.
  intros Hinv Hpre Hdone Hs Hfresh.
  destruct (SlabContextCreate_Done _ _ _ _ _ _ Hpre Hdone)
    as (s0 & -> & -> & Hg & Hcs & Hbs & Hmin & Hnb & Hmem & Hfl).
  simpl in Hs. rewrite lookup_insert_eq in Hs. inversion Hs; subst s0. clear Hs.
  pose proof Hinv as [Hall (Hdisj & Hown & Hlive)]. simpl in Hall, Hdisj, Hown, Hlive.
  pose proof Hfresh as (_ & Hnew & _).
  assert (Hcnew : contexts st !! c = None).
  { destruct (contexts st !! c) as [s0|] eqn:Hc0; [|done].
    destruct (Hall _ _ Hc0) as ((_ & Hr & _) & _). congruence. }
  assert (Hbnew : ∀ b B, blocks st !! b = Some B → b ≠ c).
  { intros b B HB ->. destruct (state_inv_block_region _ _ _ _ Hinv HB). congruence. }
  apply state_inv_intro.
  - intros c' s' Hc'. simpl in Hc'. destruct (decide (c' = c)) as [->|Hne].
    + rewrite lookup_insert_eq in Hc'. inversion Hc'; subst s'. clear Hc'.
      split; [|split].
      * split; [done|]. split; [by simpl; rewrite lookup_insert_eq|].
        rewrite Hfl, concat_replicate_nil. split; [|split; [constructor|split]].
        -- intros k b Hkb. by apply in_bucket_replicate in Hkb.
        -- by rewrite Hnb.
        -- by rewrite Hmem.
      * rewrite Hfl. unfold bucket. destruct Hg as (? & _).
        rewrite decide_True by lia. apply lookup_replicate. split; [done | lia].
      * by left.
    + rewrite lookup_insert_ne in Hc' by done.
      eapply ctx_inv_frame; [by apply Hall | by simpl; rewrite lookup_insert_ne |].
      intros b [k Hk]%elem_of_concat_bucket. simpl.
      destruct (Hall _ _ Hc') as ((_ & _ & Hbl & _) & _).
      destruct (Hbl _ _ Hk) as (? & ? & _ & _ & _ & Hr & _).
      rewrite lookup_insert_ne by congruence. done.
  - split; [by apply regions_disjoint_insert|]. split.
    + intros b B HB. simpl in *. destruct (Hown _ _ HB) as (Hnc & s0 & Hs0 & Hb0).
      rewrite !lookup_insert_ne; [eauto | congruence | by apply not_eq_sym; eapply Hbnew].
    + intros p cp Hp. simpl. destruct (Hlive _ _ Hp) as (s0 & b0 & i0 & Hs0 & Hrest).
      exists s0, b0, i0. rewrite lookup_insert_ne by congruence. done.
Qed.

(** A caller writing into a chunk it holds. *)
Lemma write_inv st L p c v :
  state_inv (st, L) → L !! p = Some c →
  state_inv (set_words (<[p := v]> (words st)) st, L).
Proof.
  intros Hinv Hp.
  destruct (live_chunk _ _ _ _ Hinv Hp)
    as (s & b & i & B & lf & k & Hctx & Hcinv & Hkb & Hi & -> & HB & Hnf & Hsl & Hrb
        & Hch & Hndl & Hlen & Hil & Hhdr & Hnr & Hlv).
  pose proof Hinv as [Hall Hglob]. simpl in Hall, Hglob.
  pose proof Hcinv as ((Hg & _) & _).
  pose proof (chunk_in_region s b i Hg Hi) as Hpin.
  set (st' := set_words _ st).
  assert (Hlc : local_change st L st' L b (blockSize s)).
  { split; [done|]. intros a Ha. simpl. split; [|done].
    rewrite lookup_insert_ne; [done | lia]. }
  assert (Hap : region_apart st b (blockSize s))
    by (apply region_apart_disjoint; [apply Hglob | done]).
  apply state_inv_intro; [|done].
  intros c' s' Hc'. simpl in Hc'.
  destruct (decide (c' = c)) as [->|Hne].
  - rewrite Hctx in Hc'. inversion Hc'; subst s'.
    destruct Hcinv as ((_ & Hreg & Hblocks & Hrest) & Hlast).
    split; [|done]. split; [done|]. split; [done|]. split; [|done].
    intros j x Hjx. destruct (decide (x = b)) as [->|Hxb].
    + destruct (Hblocks _ _ Hjx) as (B' & lf' & HB' & Hrest').
      exists B', lf'. split; [done|].
      destruct Hrest' as (? & ? & ? & Hch' & ? & ? & Hlv').
      repeat (split; [done|]). split; [|done].
      eapply chain_frame; [|done]. intros i' Hi'. simpl.
      rewrite lookup_insert_ne; [done|]. intros ?%chunk_pointer_inj; [|done]. subst i'.
      apply chain_range in Hch'. rewrite Forall_forall in Hch'.
      specialize (Hlv' i Hi). rewrite decide_True in Hlv' by done. congruence.
    + eapply block_inv_local; [by apply Hblocks | done..].
  - eapply ctx_inv_local; [by apply Hall | | | done..].
    + by eapply global_block_not_context.
    + intros Hb'. eapply (block_of_other_context st L c s c' s'); try done.
      * by destruct Hcinv.
      * by destruct (Hall _ _ Hc').
      * apply elem_of_concat_bucket; eauto.
Qed.

Lemma filter_not_in_cons (x : Z) (D l : list Z) :
  filter (λ y, y ≠ x) (filter (λ y, y ∉ D) l) = filter (λ y, y ∉ x :: D) l.
Proof.
  rewrite list_filter_filter. apply list_filter_iff. intros y.
  rewrite not_elem_of_cons. tauto.
Qed.

Lemma filter_not_in_nil (l : list Z) : filter (λ y, y ∉ []) l = l.
Proof.
  induction l as [|y l IH]; [done|].
  rewrite filter_cons, decide_True by apply not_elem_of_nil. by rewrite IH.
Qed.

Lemma filter_not_in_all (D l : list Z) : l ⊆ D → filter (λ y, y ∉ D) l = [].
Proof.
  induction l as [|y l IH]; intros Hsub; [done|].
  rewrite filter_cons, decide_False.
  - apply IH. intros z Hz. apply Hsub, elem_of_cons; auto.
  - intros Hn. apply Hn, Hsub, elem_of_cons; auto.
Qed.

Lemma NoDup_concat_lookup (fl : list (list Z)) k l :
  NoDup (concat fl) → fl !! k = Some l → NoDup l.
Proof.
  revert k. induction fl as [|l0 fl IH]; intros k Hnd Hk; [done|].
  simpl in Hnd. apply NoDup_app in Hnd as (H1 & _ & H2).
  destruct k; simpl in Hk; [by inversion Hk; subst | eauto].
Qed.

Lemma SlabReset_blocks_rel s st nodes : ∀ D s1 st1,
  reset_rel s st D s1 st1 → NoDup D → NoDup nodes →
  (∀ x, x ∈ nodes → (x ∉ D) ∧ is_Some (regions st !! x)) →
  ∃ D' s2 st2,
    SlabReset_blocks nodes s1 st1 = Some (s2, st2) ∧ reset_rel s st D' s2 st2 ∧
    NoDup D' ∧ (∀ y, y ∈ D' ↔ y ∈ nodes ∨ y ∈ D).
Proof.
  induction nodes as [|x nodes IH]; intros D s1 st1 Hrel HndD Hnd Hnodes.
  - exists D, s1, st1. split; [done|]. split; [done|]. split; [done|].
    intros y. rewrite elem_of_nil. tauto.
  - apply NoDup_cons in Hnd as [Hx Hnd].
    destruct (Hnodes x) as [HxD [n Hn]]; [apply elem_of_cons; auto|].
    destruct Hrel as (Hfl & H1 & H2 & H3 & H4 & H5 & Hnb & Hmem & Hbl & Hrg & H6 & H7 & H8).
    simpl. unfold free_SlabBlock, free.
    rewrite Hrg, decide_False, Hn by done. simpl.
    edestruct (IH (x :: D)) as (D' & s2 & st2 & Heq & Hrel' & HndD' & HD');
      [ | by apply NoDup_cons | done | | ].
    2:{ intros y Hy. destruct (Hnodes y) as [? ?]; [apply elem_of_cons; auto|].
        split; [|done]. apply not_elem_of_cons. split; [|done]. intros ->. done. }
    2:{ exists D', s2, st2. split; [exact Heq|]. split; [done|]. split; [done|].
        intros y. rewrite HD', !elem_of_cons. tauto. }
    unfold reset_rel. simpl. rewrite Hfl. unfold dlist_delete. rewrite map_map.
    split; [apply map_ext; intros; apply filter_not_in_cons|].
    repeat (split; [done|]). split; [|split; [|split; [|split]]].
    + rewrite Hnb, to_int_idemp_sub. f_equal. lia.
    + rewrite Hmem, H3, to_size_idemp_sub. f_equal. lia.
    + intros y. destruct (decide (y = x)) as [->|Hyx].
      * rewrite lookup_delete_eq, decide_True; [done | apply elem_of_cons; auto].
      * rewrite lookup_delete_ne, Hbl by done.
        destruct (decide (y ∈ D)).
        -- rewrite decide_True; [done | apply elem_of_cons; auto].
        -- rewrite decide_False; [done | intros [?|?]%elem_of_cons; done].
    + intros y. destruct (decide (y = x)) as [->|Hyx].
      * rewrite lookup_delete_eq, decide_True; [done | apply elem_of_cons; auto].
      * rewrite lookup_delete_ne, Hrg by done.
        destruct (decide (y ∈ D)).
        -- rewrite decide_True; [done | apply elem_of_cons; auto].
        -- rewrite decide_False; [done | intros [?|?]%elem_of_cons; done].
    + done.
Qed.

Lemma SlabReset_freelists_rel s st n : ∀ i D s1 st1,
  reset_rel s st D s1 st1 → NoDup D → 0 ≤ i →
  i + Z.of_nat n ≤ Z.of_nat (length (freelist s)) →
  NoDup (concat (freelist s)) →
  (∀ x, x ∈ concat (freelist s) → is_Some (regions st !! x)) →
  (∀ x, x ∈ D → x ∈ concat (freelist s)) →
  ∃ D' s2 st2,
    SlabReset_freelists n i s1 st1 = Some (s2, st2) ∧ reset_rel s st D' s2 st2 ∧
    NoDup D' ∧ (∀ x, x ∈ D → x ∈ D') ∧ (∀ x, x ∈ D' → x ∈ concat (freelist s)) ∧
    (∀ j l x, i ≤ j < i + Z.of_nat n → bucket (freelist s) j = Some l → x ∈ l → x ∈ D').
Proof.
  induction n as [|n IH]; intros i D s1 st1 Hrel HndD Hi Hn Hnd Hreg HD.
  - exists D, s1, st1. repeat (split; [done|]). intros; lia.
  - simpl. destruct (bucket_lookup (freelist s) i) as [l Hl]; [lia|].
    pose proof Hrel as (Hfl & _).
    assert (Hl1 : bucket (freelist s1) i = Some (filter (λ x, x ∉ D) l)).
    { apply bucket_Some in Hl as [? Hl]. apply bucket_Some. split; [done|].
      by rewrite Hfl, list_lookup_fmap, Hl. }
    rewrite Hl1.
    assert (Hlsub : ∀ x, x ∈ l → x ∈ concat (freelist s)).
    { intros x Hx. apply elem_of_concat_bucket. exists (Z.to_nat i), l.
      apply bucket_Some in Hl as [? Hl]. done. }
    destruct (SlabReset_blocks_rel s st (filter (λ x, x ∉ D) l) D s1 st1)
      as (D1 & s2 & st2 & Heq & Hrel1 & HndD1 & HD1); [done | done | | |].
    { apply NoDup_filter. apply bucket_Some in Hl as [? Hl].
      by eapply NoDup_concat_lookup. }
    { intros x [Hx1 Hx2]%list_elem_of_filter. split; [done|]. by apply Hreg, Hlsub. }
    rewrite Heq.
    destruct (IH (i + 1) D1 s2 st2) as (D' & s3 & st3 & Heq' & Hrel' & HndD' & Hsub & Hsup & Hall);
      [done | done | lia | lia | done | done | |].
    { intros x [[_ Hx]%list_elem_of_filter|Hx]%HD1; auto. }
    exists D', s3, st3. split; [done|]. split; [done|]. split; [done|].
    split; [|split; [done|]].
    + intros x Hx. apply Hsub, HD1. auto.
    + intros j l' x Hj Hl' Hx. destruct (decide (j = i)) as [->|Hji].
      * rewrite Hl in Hl'. inversion Hl'; subst l'. apply Hsub, HD1.
        destruct (decide (x ∈ D)); [by right | left].
        by apply list_elem_of_filter.
      * eapply Hall; [|done..]. lia.
Qed.

Lemma drop_context_lookup c L p :
  drop_context c L !! p = match L !! p with
                          | Some c' => if decide (c' = c) then None else Some c'
                          | None => None
                          end.
Proof.
  unfold drop_context. destruct (L !! p) as [c'|] eqn:HL.
  - case_decide as Hc.
    + apply map_lookup_filter_None. right. intros c'' HL'. simpl.
      rewrite HL in HL'. inversion HL'; subst. intros Hn. by apply Hn.
    + apply map_lookup_filter_Some. split; [done|]. simpl. done.
  - apply map_lookup_filter_None. by left.
Qed.

Lemma SlabReset_ok st L c s :
  state_inv (st, L) → contexts st !! c = Some s →
  ∃ st' s',
    SlabReset c st = Done () st' ∧ state_inv (st', drop_context c L) ∧
    contexts st' !! c = Some s' ∧ same_geometry s s' ∧
    minFreeChunks s' = 0 ∧ nblocks s' = 0 ∧ mem_allocated s' = 0 ∧
    freelist s' = replicate (Z.to_nat (chunksPerBlock s + 1)) [] ∧
    regions st' !! c = Some (headerSize s) ∧
    (∀ b B, blocks st !! b = Some B → slab B = c →
       blocks st' !! b = None ∧ regions st' !! b = None) ∧
    (∀ b B, blocks st !! b = Some B → slab B ≠ c →
       blocks st' !! b = Some B ∧ regions st' !! b = regions st !! b).
Proof.
  intros Hinv Hctx. pose proof Hinv as [Hall (Hdisj & Hown & Hlive)].
  simpl in Hall, Hdisj, Hown, Hlive.
  pose proof (Hall _ _ Hctx) as ((Hg & Hreg & Hblocks & Hnd & Hnb & Hmem) & Hlast & Hmok).
  pose proof Hg as (Hcpb & _ & _ & _ & Hflen).
  assert (Hrel0 : reset_rel s st [] s st).
  { unfold reset_rel. simpl length. rewrite !Z.sub_0_r.
    split; [by rewrite (map_ext _ id), map_id by apply filter_not_in_nil|].
    repeat (split; [done|]). split; [|split; [|done]].
    - by rewrite Hnb, to_int_idemp.
    - by rewrite Hmem, to_size_idemp. }
  destruct (SlabReset_freelists_rel s st (Z.to_nat (chunksPerBlock s + 1)) 0 [] s st)
    as (D & s2 & st2 & Heq & Hrel & HndD & _ & HDsub & HDall);
    [done | constructor | lia | lia | done | | by intros ? ?%elem_of_nil |].
  { intros x [k Hk]%elem_of_concat_bucket.
    destruct (Hblocks _ _ Hk) as (? & ? & _ & _ & _ & Hr & _). eauto. }
  unfold SlabReset. rewrite Hctx, Heq.
  destruct Hrel as (Hfl & H1 & H2 & H3 & H4 & H5 & Hnb2 & Hmem2 & Hbl2 & Hrg2 & H6 & H7 & H8).
  (* D holds exactly the blocks of the context *)
  assert (HDeq : ∀ x, x ∈ D ↔ x ∈ concat (freelist s)).
  { intros x. split; [apply HDsub|]. intros (k & l & Hl & Hx)%elem_of_concat_bucket.
    apply (HDall (Z.of_nat k) l); [|by rewrite bucket_of_nat|done].
    apply lookup_lt_Some in Hl. lia. }
  assert (HDlen : length D = length (concat (freelist s))).
  { apply Permutation_length, NoDup_Permutation; done. }
  assert (Hfl2 : freelist s2 = replicate (Z.to_nat (chunksPerBlock s + 1)) []).
  { rewrite Hfl, <- Hflen. clear -HDeq.
    assert (Hsub : ∀ l, l ∈ freelist s → l ⊆ D).
    { intros l [k Hk]%list_elem_of_lookup x Hx. apply HDeq, elem_of_concat_bucket.
      by exists k, l. }
    clear HDeq. induction (freelist s) as [|l fl IH]; [done|]. simpl. f_equal.
    - apply filter_not_in_all, Hsub, elem_of_cons; auto.
    - apply IH. intros l' Hl'. apply Hsub, elem_of_cons; auto. }
  set (s' := set_minFreeChunks 0 s2).
  set (st' := set_contexts (<[c := s']> (contexts st2)) st2).
  assert (Hsg : same_geometry s s').
  { repeat split; try done. simpl. by rewrite Hfl, length_map. }
  assert (Hnb' : nblocks s' = 0).
  { simpl. rewrite Hnb2, Hnb, HDlen, to_int_idemp_sub, Z.sub_diag. done. }
  assert (Hmem' : mem_allocated s' = 0).
  { simpl. rewrite Hmem2, Hmem, HDlen, to_size_idemp_sub, Z.sub_diag. done. }
  assert (HcD : c ∉ D).
  { intros [k Hk]%HDeq%elem_of_concat_bucket.
    destruct (Hblocks _ _ Hk) as (B & ? & HB & _).
    by eapply (global_block_not_context st L c B c s). }
  assert (Hgone : ∀ b B, blocks st !! b = Some B → slab B = c → b ∈ D).
  { intros b B HB Hsl. destruct (Hown _ _ HB) as (_ & s0 & Hs0 & Hb0).
    rewrite Hsl, Hctx in Hs0. inversion Hs0; subst s0. by apply HDeq. }
  assert (Hkept : ∀ b B, blocks st !! b = Some B → slab B ≠ c → b ∉ D).
  { intros b B HB Hsl [k Hk]%HDeq%elem_of_concat_bucket.
    destruct (Hblocks _ _ Hk) as (B' & ? & HB' & _ & Hs' & _). congruence. }
  exists st', s'. split; [done|]. split; [|split; [by simpl; rewrite lookup_insert_eq|]].
  2:{ repeat (split; [done|]). split; [|split].
      - simpl. rewrite Hrg2, decide_False by done. done.
      - intros b B HB Hsl. simpl. rewrite Hbl2, Hrg2.
        rewrite !decide_True by (by eapply Hgone). done.
      - intros b B HB Hsl. simpl. rewrite Hbl2, Hrg2.
        rewrite !decide_False by (by eapply Hkept). done. }
  apply state_inv_intro.
  - intros c' s'' Hc'. simpl in Hc'. destruct (decide (c' = c)) as [->|Hne].
    + rewrite lookup_insert_eq in Hc'. inversion Hc'; subst s''. clear Hc'.
      split; [|split].
      * split; [by eapply geometry_ok_same|].
        split; [simpl; rewrite Hrg2, decide_False by done; by rewrite H4|].
        simpl freelist. rewrite Hfl2, concat_replicate_nil.
        split; [|split; [constructor|split]].
        -- intros k b Hkb. by apply in_bucket_replicate in Hkb.
        -- by rewrite Hnb'.
        -- by rewrite Hmem'.
      * simpl. rewrite Hfl2, H5. unfold bucket.
        rewrite decide_True by lia. apply lookup_replicate. split; [done | lia].
      * by left.
    + rewrite lookup_insert_ne, H6 in Hc' by done.
      pose proof (Hall _ _ Hc') as Hinv'. pose proof Hinv' as ((Hg' & _ & Hbl' & _) & _).
      eapply ctx_inv_frame; [done | |].
      * simpl. rewrite Hrg2, decide_False; [done|].
        intros [k Hk]%HDeq%elem_of_concat_bucket.
        destruct (Hblocks _ _ Hk) as (B & ? & HB & _).
        by eapply (global_block_not_context st L c' B c' s'').
      * intros b [k Hk]%elem_of_concat_bucket. simpl.
        destruct (Hbl' _ _ Hk) as (B & lf & HB & _ & Hsl & _ & _ & _ & _ & Hlv).
        assert (b ∉ D) by (eapply Hkept; [done | congruence]).
        rewrite Hbl2, Hrg2, !decide_False by done. rewrite H7, H8.
        split; [done|]. split; [done|]. intros i Hi. split; [done|]. split; [|done].
        rewrite drop_context_lookup. specialize (Hlv i Hi).
        destruct (decide (i ∈ lf)); [by rewrite Hlv|].
        destruct Hlv as [-> _]. by rewrite decide_False.
  - split; [|split].
    + intros a1 n1 a2 n2. simpl. rewrite !Hrg2. intros Ha1 Ha2.
      destruct (decide (a1 ∈ D)); [done|]. destruct (decide (a2 ∈ D)); [done|].
      by eapply Hdisj.
    + intros b B. simpl. rewrite Hbl2, H6. destruct (decide (b ∈ D)) as [|HbD]; [done|].
      intros HB. destruct (Hown _ _ HB) as (Hnc & s0 & Hs0 & Hb0).
      assert (slab B ≠ c).
      { intros Hsl. apply HbD. by eapply Hgone. }
      rewrite !lookup_insert_ne by congruence. eauto.
    + intros p cp. rewrite drop_context_lookup.
      destruct (L !! p) as [c0|] eqn:HL; [|done]. case_decide; [done|].
      intros [= <-]. destruct (Hlive _ _ HL) as (s0 & b0 & i0 & Hs0 & Hrest).
      exists s0, b0, i0. simpl. rewrite lookup_insert_ne, H6 by done. done.
Qed.

Lemma SlabDelete_ok st L c s :
  state_inv (st, L) → contexts st !! c = Some s →
  ∃ st', SlabDelete c st = Done () st' ∧ state_inv (st', drop_context c L) ∧
         contexts st' !! c = None.
Proof.
  intros Hinv Hctx.
  destruct (SlabReset_ok _ _ _ _ Hinv Hctx)
    as (st1 & s1 & Heq & Hinv1 & Hctx1 & Hsg & _ & _ & _ & Hfl & Hreg & _).
  unfold SlabDelete, free. rewrite Heq, Hreg.
  eexists. split; [done|]. split; [|by simpl; rewrite lookup_delete_eq].
  pose proof Hinv1 as [Hall (Hdisj & Hown & Hlive)].
  simpl in Hall, Hdisj, Hown, Hlive.
  apply state_inv_intro.
  - intros c' s' Hc'. simpl in Hc'. apply lookup_delete_Some in Hc' as [Hne Hc'].
    pose proof (Hall _ _ Hc') as Hinv'. pose proof Hinv' as ((_ & _ & Hbl' & _) & _).
    eapply ctx_inv_frame; [done | by simpl; rewrite lookup_delete_ne |].
    intros b [k Hk]%elem_of_concat_bucket. simpl.
    destruct (Hbl' _ _ Hk) as (B & lf & HB & _).
    rewrite lookup_delete_ne; [done|].
    by eapply (global_block_not_context st1 _ b B c s1).
  - split; [|split].
    + intros a1 n1 a2 n2. simpl. intros [_ H1]%lookup_delete_Some [_ H2]%lookup_delete_Some.
      by eapply Hdisj.
    + intros b B HB. simpl in *. destruct (Hown _ _ HB) as (Hnc & s0 & Hs0 & Hb0).
      split; [by rewrite lookup_delete_None; right|].
      exists s0. split; [|done]. rewrite lookup_delete_ne; [done|].
      intros Hsl. rewrite Hsl, Hs0 in Hctx1. inversion Hctx1; subst s0.
      rewrite Hfl, concat_replicate_nil in Hb0. by apply elem_of_nil in Hb0.
    + intros p cp Hp. simpl. pose proof Hp as Hp'.
      rewrite drop_context_lookup in Hp'.
      destruct (L !! p) as [c0|]; [|done]. case_decide; [done|]. inversion Hp'; subst c0.
      destruct (Hlive _ _ Hp) as (s0 & b0 & i0 & Hs0 & Hrest).
      exists s0, b0, i0. by rewrite lookup_delete_ne.
Qed.

Lemma state_inv_empty : state_inv (empty_State, ∅).
Proof.
  split; [|split; [|split]]; unfold empty_State; simpl.
  - intros c s Hc. by rewrite lookup_empty in Hc.
  - intros a1 n1 a2 n2 H1. simpl in H1. by rewrite lookup_empty in H1.
  - intros b B HB. by rewrite lookup_empty in HB.
  - intros p c Hp. by rewrite lookup_empty in Hp.
Qed.

Lemma SlabAlloc_wrong_size m c size st s :
  contexts st !! c = Some s → size ≠ chunkSize s →
  SlabAlloc m c size st = Raised UnexpectedAllocChunkSize st.
Proof. intros Hc Hs. unfold SlabAlloc. by rewrite Hc, decide_True. Qed.

Lemma SlabAlloc_Done_size m c size st r st' :
  SlabAlloc m c size st = Done r st' →
  ∃ s, contexts st !! c = Some s ∧ size = chunkSize s.
Proof.
  unfold SlabAlloc. destruct (contexts st !! c) as [s|]; [|done].
  case_decide as Hs; [done|]. intros _. exists s. split; [done|].
  by destruct (decide (size = chunkSize s)).
Qed.

Lemma step_inv cfg cfg' : state_inv cfg → step cfg cfg' → state_inv cfg'.
Proof.
  intros Hinv Hstep. destruct Hstep.
  - by eapply SlabContextCreate_inv.
  - match goal with Hd : SlabAlloc _ _ _ _ = _ |- _ =>
      pose proof Hd as Hd'; apply SlabAlloc_Done_size in Hd' as (s0 & Hs0 & ->) end.
    assert (s0 = s) as -> by congruence.
    destruct (SlabAlloc_ok st L c s m) as [(_ & _ & Heq)|(p' & st'' & Heq & Hinv' & _)];
      [done..| congruence |].
    congruence.
  - destruct (SlabFree_ok st L p c Hinv) as (s & b & i & B & mfc & _ & _ & _ & _ & _ & _ & _ & Hc);
      [done|].
    case_decide; [destruct Hc as [Heq Hinv'] | destruct Hc as (fl2 & _ & Heq & Hinv')];
      congruence.
  - match goal with Hd : SlabReset _ _ = _ |- _ => pose proof Hd as Hd' end.
    unfold SlabReset in Hd'. destruct (contexts st !! c) as [s|] eqn:Hs; [|done].
    destruct (SlabReset_ok st L c s Hinv Hs) as (st'' & s' & Heq & Hinv' & _). congruence.
  - match goal with Hd : SlabDelete _ _ = _ |- _ => pose proof Hd as Hd' end.
    unfold SlabDelete, SlabReset in Hd'. destruct (contexts st !! c) as [s|] eqn:Hs; [|done].
    destruct (SlabDelete_ok st L c s Hinv Hs) as (st'' & Heq & Hinv' & _). congruence.
  - by eapply write_inv.
Qed.

Lemma reachable_inv cfg : reachable cfg → state_inv cfg.
Proof.
  unfold reachable. intros Hr.
  eapply (rtc_ind_r (λ cfg, state_inv cfg)); [apply state_inv_empty | | exact Hr].
  intros y z _ Hstep Hy. by eapply step_inv.
Qed.

(** What every reachable state does keep of minFreeChunks. *)
Lemma reachable_minFreeChunks_ok st L c s :
  reachable (st, L) → contexts st !! c = Some s → minFreeChunks_ok s.
Proof.
  intros [Hall _]%reachable_inv Hc. by destruct (Hall _ _ Hc) as (_ & _ & ?).
Qed.

(** What the invariant says of a block in memory. *)
Lemma owned_block st L b B :
  state_inv (st, L) → blocks st !! b = Some B →
  ∃ s lf, contexts st !! slab B = Some s ∧ ctx_inv st L (slab B) s ∧
    in_bucket (freelist s) (Z.to_nat (nfree B)) b ∧ 0 ≤ nfree B < chunksPerBlock s ∧
    chain s b (words st) (firstFreeChunk B) lf ∧ NoDup lf ∧
    Z.of_nat (length lf) = nfree B.
Proof.
  intros [Hall (_ & Hown & _)] HB. simpl in *.
  destruct (Hown _ _ HB) as (_ & s & Hs & [k Hk]%elem_of_concat_bucket).
  pose proof (Hall _ _ Hs) as Hinv. pose proof Hinv as ((Hg & _ & Hbl & _) & Hlast & _).
  destruct (Hbl _ _ Hk) as (B' & lf & HB' & Hn & _ & _ & Hch & Hnd & Hlen).
  rewrite HB in HB'. inversion HB'; subst B'.
  exists s, lf. rewrite Hn, Nat2Z.id. repeat (split; [done|]).
  split; [|by destruct Hlen].
  destruct Hk as (l & Hl & Hbl').
  pose proof (lookup_lt_Some _ _ _ Hl) as Hlt.
  destruct Hg as (Hc & _ & _ & _ & Hlen').
  destruct (decide (Z.of_nat k = chunksPerBlock s)) as [Hkc|Hkc]; [|lia].
  exfalso. apply bucket_Some in Hlast as [_ Hlast].
  rewrite <- Hkc, Nat2Z.id, Hl in Hlast. inversion Hlast; subst.
  by apply elem_of_nil in Hbl'.
Qed.

(** C2. In every reachable state a block owned by a context is linked into
    the lists of that context exactly once, and the index of the list it is
    in is the block's count of free chunks: it is in list [k] if and only if
    [k = nfree]. *)
Theorem C2_bucket_consistency st L c s b B :
  reachable (st, L) → contexts st !! c = Some s →
  blocks st !! b = Some B → slab B = c →
  (∀ k, in_bucket (freelist s) k b ↔ Z.of_nat k = nfree B) ∧
  b ∈ concat (freelist s) ∧ NoDup (concat (freelist s)).
Proof.
  intros Hr%reachable_inv Hc HB Hsl.
  destruct (owned_block _ _ _ _ Hr HB) as (s' & lf & Hs' & Hinv & Hin & Hn & _).
  rewrite Hsl, Hc in Hs'. inversion Hs'; subst s'. rewrite Hsl in Hinv.
  destruct Hinv as (Hcore & _). split; [|split].
  - intros k. split.
    + intros Hk. rewrite (in_bucket_unique _ _ _ _ _ _ _ Hcore Hk Hin). lia.
    + intros Hk. replace k with (Z.to_nat (nfree B)) by lia. done.
  - apply elem_of_concat_bucket. eauto.
  - by destruct Hcore as (_ & _ & _ & ? & _).
Qed.

(** C3. In every reachable state, for every block, the walk over the free
    list from firstFreeChunk visits exactly nfree indices, all different and
    all in [0, chunksPerBlock), and stops at chunksPerBlock; and
    firstFreeChunk is chunksPerBlock exactly when nfree is 0. *)
Theorem C3_free_list_wellformed st L b B s fuel :
  reachable (st, L) → blocks st !! b = Some B → contexts st !! slab B = Some s →
  (Z.to_nat (nfree B) ≤ fuel)%nat →
  ∃ l, SlabCheck_walk fuel s b (firstFreeChunk B) (words st) = Some (l, chunksPerBlock s) ∧
       Z.of_nat (length l) = nfree B ∧ NoDup l ∧
       Forall (λ i, 0 ≤ i < chunksPerBlock s) l ∧
       (firstFreeChunk B = chunksPerBlock s ↔ nfree B = 0).
Proof.
  intros Hr%reachable_inv HB Hc Hfuel.
  destruct (owned_block _ _ _ _ Hr HB) as (s' & lf & Hs' & _ & _ & Hn & Hch & Hnd & Hlen).
  rewrite Hc in Hs'. inversion Hs'; subst s'.
  exists lf. split; [apply chain_walk; [done | lia]|].
  repeat (split; [done|]). split; [by eapply chain_range|].
  rewrite (chain_first_nil _ _ _ _ _ Hch). destruct lf; simpl in *; split; (done || lia).
Qed.

(** C4. In every reachable state no block has nfree equal to chunksPerBlock;
    and when SlabFree brings a block's count to chunksPerBlock, the call
    gives the block back to the system allocator, takes one off nblocks and
    blockSize off mem_allocated (in the arithmetic of int and Size). *)
Theorem C4_eager_reclaim st L :
  reachable (st, L) →
  (∀ b B s, blocks st !! b = Some B → contexts st !! slab B = Some s →
     0 ≤ nfree B < chunksPerBlock s) ∧
  (∀ p c, L !! p = Some c →
     ∃ s b B st',
       contexts st !! c = Some s ∧
       MemoryChunkGetBlock (PointerGetMemoryChunk p) st = Some b ∧
       blocks st !! b = Some B ∧ SlabFree p st = Done () st' ∧
       (nfree B + 1 = chunksPerBlock s →
          blocks st' !! b = None ∧ regions st' !! b = None ∧
          ∃ s', contexts st' !! c = Some s' ∧
                nblocks s' = to_int (nblocks s - 1) ∧
                mem_allocated s' = to_size (mem_allocated s - blockSize s))).
Proof.
  intros Hr%reachable_inv. split.
  - intros b B s HB Hc.
    destruct (owned_block _ _ _ _ Hr HB) as (s' & lf & Hs' & _ & _ & Hn & _). congruence.
  - intros p c Hp.
    destruct (SlabFree_ok st L p c Hr Hp)
      as (s & b & i & B & mfc & Hctx & Hi & Hpe & HB & Hsl & Hn & Hblk & Hcase).
    case_decide as Hfull.
    + destruct Hcase as [Heq _]. eexists s, b, B, _. repeat (split; [done|]).
      intros _. simpl. rewrite !lookup_delete_eq. split; [done|]. split; [done|].
      rewrite Hsl, lookup_insert_eq. eexists. split; [done|]. done.
    + destruct Hcase as (fl2 & _ & Heq & _). eexists s, b, B, _.
      split; [done|]. split; [done|]. split; [done|]. split; [done|]. done.
Qed.

(** C5. SlabAlloc with a size other than the context's chunkSize raises
    UnexpectedAllocChunkSize, and the memory at the raise is the memory the
    call started with. *)
Theorem C5_wrong_size_raises m c size st s :
  contexts st !! c = Some s → size ≠ chunkSize s →
  SlabAlloc m c size st = Raised UnexpectedAllocChunkSize st.
Proof. apply SlabAlloc_wrong_size. Qed.

Lemma SlabAlloc_take_not_null c s st r st' :
  SlabAlloc_take c s st = Done r st' → is_Some r.
Proof.
  unfold SlabAlloc_take. repeat case_match; try done; intros [= <- _]; eauto.
Qed.

Lemma SlabAlloc_null_inv m c size st st' :
  SlabAlloc m c size st = Done None st' →
  m = None ∧ st' = st ∧
  ∃ s, contexts st !! c = Some s ∧ minFreeChunks s = 0 ∧ size = chunkSize s.
Proof.
  intros Hd. destruct (SlabAlloc_Done_size _ _ _ _ _ _ Hd) as (s & Hs & ->).
  unfold SlabAlloc in Hd. rewrite Hs in Hd. rewrite decide_False in Hd by (intros Hn; by apply Hn).
  destruct (decide (minFreeChunks s = 0)) as [H0|H0].
  - destruct m as [a|]; simpl in Hd.
    + destruct (SlabAlloc_new_block c s a _) as [[s1 st2]|]; [|done].
      by apply SlabAlloc_take_not_null in Hd as [? ?].
    + inversion Hd; subst. split; [done|]. split; [done|]. by exists s.
  - by apply SlabAlloc_take_not_null in Hd as [? ?].
Qed.

Lemma SlabRealloc_Done p size st r st' :
  SlabRealloc p size st = Done r st' → r = p ∧ st' = st.
Proof.
  unfold SlabRealloc. destruct (chunk_slab p st) as [[? s]|]; [|done].
  case_decide; [|done]. by intros [= <- <-].
Qed.

(** C6. When no block has a free chunk (minFreeChunks = 0) and malloc fails,
    SlabAlloc returns NULL, raises nothing and leaves the memory as it was;
    and no operation reports a failure without raising in any other way:
    SlabAlloc returns NULL only there, SlabRealloc returns its argument
    whenever it returns, and SlabContextCreate returns the new context
    whenever it returns. *)
Theorem C6_block_alloc_failure c st s :
  contexts st !! c = Some s → minFreeChunks s = 0 →
  SlabAlloc None c (chunkSize s) st = Done None st ∧
  (∀ m c' size st0 st',
     SlabAlloc m c' size st0 = Done None st' →
     m = None ∧ st' = st0 ∧
     ∃ s0, contexts st0 !! c' = Some s0 ∧ minFreeChunks s0 = 0 ∧ size = chunkSize s0) ∧
  (∀ p size st0 r st', SlabRealloc p size st0 = Done r st' → r = p ∧ st' = st0) ∧
  (∀ m blockSize0 chunkSize0 st0 c' st',
     SlabContextCreate m blockSize0 chunkSize0 st0 = Done c' st' →
     m = Some c' ∧ is_Some (contexts st' !! c')).
Proof.
  intros Hc Hm. split; [|split; [|split]].
  - unfold SlabAlloc. rewrite Hc, decide_False by (intros Hn; by apply Hn).
    by rewrite decide_True.
  - apply SlabAlloc_null_inv.
  - apply SlabRealloc_Done.
  - intros m bs cs st0 c' st'. unfold SlabContextCreate. case_decide; [done|].
    destruct m; simpl; [|done]. intros [= <- <-]. simpl.
    rewrite lookup_insert_eq. eauto.
Qed.

(** The context a chunk held by a caller leads back to. *)
Lemma chunk_slab_live st L p c :
  state_inv (st, L) → L !! p = Some c →
  ∃ s, contexts st !! c = Some s ∧ geometry_ok s ∧ chunk_slab p st = Some (c, s).
Proof.
  intros Hinv Hp.
  destruct (live_chunk _ _ _ _ Hinv Hp)
    as (s & b & i & B & lf & k & Hctx & Hcinv & _ & Hi & -> & HB & _ & Hsl & _ & _ & _ & _ & _
        & Hhdr & _).
  exists s. split; [done|]. split; [by destruct Hcinv as ((? & _) & _)|].
  unfold chunk_slab, MemoryChunkGetBlock.
  rewrite PointerGetMemoryChunk_pointer, Hhdr. simpl. by rewrite HB, Hsl, Hctx.
Qed.

(** C7. For a chunk returned by SlabAlloc and not freed since, SlabRealloc
    returns the same pointer when the size is the context's chunkSize, and
    raises ReallocUnsupported otherwise; the memory is unchanged either way. *)
Theorem C7_realloc st L p c size :
  reachable (st, L) → L !! p = Some c →
  ∃ s, contexts st !! c = Some s ∧
       SlabRealloc p size st
         = if decide (size = chunkSize s) then Done p st else Raised ReallocUnsupported st.
Proof.
  intros Hr%reachable_inv Hp.
  destruct (chunk_slab_live _ _ _ _ Hr Hp) as (s & Hs & _ & Hcs).
  exists s. split; [done|]. unfold SlabRealloc. by rewrite Hcs.
Qed.

(** C8. For a chunk returned by SlabAlloc and not freed since,
    SlabGetChunkContext returns the context the chunk was allocated in and
    SlabGetChunkSpace returns that context's fullChunkSize, which is
    sizeof(MemoryChunk) + MAXALIGN(chunkSize) whatever the chunk and block. *)
Theorem C8_chunk_roundtrip st L p c :
  reachable (st, L) → L !! p = Some c →
  ∃ s, contexts st !! c = Some s ∧
       SlabGetChunkContext p st = Done c st ∧
       SlabGetChunkSpace p st = Done (fullChunkSize s) st ∧
       fullChunkSize s = Slab_CHUNKHDRSZ + MAXALIGN (chunkSize s).
Proof.
  intros Hr%reachable_inv Hp.
  destruct (chunk_slab_live _ _ _ _ Hr Hp) as (s & Hs & Hg & Hcs).
  exists s. split; [done|]. unfold SlabGetChunkContext, SlabGetChunkSpace.
  rewrite Hcs. repeat (split; [done|]). by destruct Hg as (_ & ? & _).
Qed.

(** C9. SlabReset on a context of a reachable state completes; afterwards
    every block of the context is back with the system allocator,
    minFreeChunks, nblocks and mem_allocated are 0, SlabIsEmpty answers true,
    every list of freelist is empty, and the context header is still
    allocated and serves the next SlabAlloc. *)
Theorem C9_reset st L c s :
  reachable (st, L) → contexts st !! c = Some s →
  ∃ st' s',
    SlabReset c st = Done () st' ∧ reachable (st', drop_context c L) ∧
    contexts st' !! c = Some s' ∧
    minFreeChunks s' = 0 ∧ nblocks s' = 0 ∧ mem_allocated s' = 0 ∧
    SlabIsEmpty c st' = Done true st' ∧
    length (freelist s') = Z.to_nat (chunksPerBlock s + 1) ∧
    (∀ k l, freelist s' !! k = Some l → l = []) ∧
    (∀ b B, blocks st !! b = Some B → slab B = c →
       blocks st' !! b = None ∧ regions st' !! b = None) ∧
    regions st' !! c = Some (headerSize s') ∧
    chunkSize s' = chunkSize s ∧ blockSize s' = blockSize s ∧
    (∀ a, malloc_fresh st' a (blockSize s') →
       ∃ p st'', SlabAlloc (Some a) c (chunkSize s') st' = Done (Some p) st'').
Proof.
  intros Hr Hc. pose proof (reachable_inv _ Hr) as Hinv.
  destruct (SlabReset_ok _ _ _ _ Hinv Hc)
    as (st' & s' & Heq & Hinv' & Hc' & Hsg & Hm & Hn & Hmem & Hfl & Hreg & Hgone & _).
  exists st', s'. split; [done|]. split.
  { eapply rtc_r; [exact Hr|]. by apply step_reset. }
  repeat (split; [done|]).
  split; [by unfold SlabIsEmpty; rewrite Hc', Hn|].
  split; [by rewrite Hfl, length_replicate|].
  split; [by intros k l; rewrite Hfl; intros [-> _]%lookup_replicate|].
  split; [done|]. destruct Hsg as (H1 & _ & H3 & H4 & _).
  split; [by rewrite H4|]. split; [done|]. split; [done|].
  intros a Ha.
  destruct (SlabAlloc_ok st' _ c s' (Some a) Hinv' Hc' Ha)
    as [(? & _)|(p & st'' & Heq' & _)]; [done | eauto].
Qed.

Lemma SlabAlloc_new_block_blocks c s a st1 s1 st2 :
  SlabAlloc_new_block c s a st1 = Some (s1, st2) →
  blocks st2 = <[a := mkSlabBlock (chunksPerBlock s) 0 c]> (blocks st1).
Proof.
  unfold SlabAlloc_new_block.
  destruct (dlist_push_head _ _ _); [|done]. by intros [= _ <-].
Qed.

(** One allocation from a block whose chunks [j], [j + 1], ... are free and
    threaded in this order. *)
Lemma alloc_from_block_step st L c s a sj j :
  take_pre st L c sj → same_geometry s sj →
  0 ≤ j < chunksPerBlock s →
  minFreeChunks sj = chunksPerBlock s - j →
  (∃ l, bucket (freelist sj) (chunksPerBlock s - j) = Some (a :: l)) →
  blocks st !! a = Some (mkSlabBlock (chunksPerBlock s - j) j c) →
  (∀ i, j ≤ i < chunksPerBlock s → words st !! chunk_pointer s a i = Some (i + 1)) →
  ∃ st' sj',
    SlabAlloc_take c sj st = Done (Some (chunk_pointer s a j)) st' ∧
    state_inv (st', <[chunk_pointer s a j := c]> L) ∧
    contexts st' !! c = Some sj' ∧ same_geometry s sj' ∧
    blocks st' !! a = Some (mkSlabBlock (chunksPerBlock s - (j + 1)) (j + 1) c) ∧
    words st' = words st ∧
    (j + 1 < chunksPerBlock s →
       minFreeChunks sj' = chunksPerBlock s - (j + 1) ∧
       ∃ l, bucket (freelist sj') (chunksPerBlock s - (j + 1)) = Some (a :: l)).
Proof.
  intros Hpre Hsg Hj Hmin (l0 & Hl0) HB Hw.
  destruct (SlabAlloc_take_ok _ _ _ _ Hpre)
    as (b & l & B & next & fl' & mfc & Hbk & HB' & Hnf & Hnext & Hpush & Hmfc & Heq & Hinv).
  rewrite Hmin, Hl0 in Hbk. inversion Hbk; subst b l. clear Hbk.
  rewrite HB in HB'. inversion HB'; subst B. clear HB'. simpl in *.
  rewrite (same_geometry_pointer s sj) in * by done.
  rewrite Hw in Hnext by lia. inversion Hnext; subst next. clear Hnext.
  eexists _, _. split; [exact Heq|]. split; [exact Hinv|].
  simpl. rewrite !lookup_insert_eq. split; [done|]. split.
  { destruct Hsg as (? & ? & ? & ? & ? & Hlen). repeat split; try done. simpl.
    rewrite (dlist_push_head_length _ _ _ _ Hpush), dlist_delete_length. done. }
  split; [do 2 f_equal; lia|]. split; [done|].
  intros Hlt. simpl. split; [rewrite Hmfc; lia|].
  rewrite (dlist_push_head_bucket _ _ _ _ (chunksPerBlock s - (j + 1)) Hpush).
  rewrite decide_True by lia.
  destruct (dlist_push_head_Some (dlist_delete a (freelist sj)) (chunksPerBlock s - j - 1) a fl')
    as [(l1 & Hl1 & _) _]; [done|].
  replace (chunksPerBlock s - (j + 1)) with (chunksPerBlock s - j - 1) by lia.
  rewrite Hl1. simpl. eauto.
Qed.

Lemma alloc_many_from_block c s a ms : ∀ st L sj j,
  state_inv (st, L) → contexts st !! c = Some sj → same_geometry s sj →
  1 ≤ j → j + Z.of_nat (length ms) ≤ chunksPerBlock s →
  (j < chunksPerBlock s →
     minFreeChunks sj = chunksPerBlock s - j ∧
     ∃ l, bucket (freelist sj) (chunksPerBlock s - j) = Some (a :: l)) →
  blocks st !! a = Some (mkSlabBlock (chunksPerBlock s - j) j c) →
  (∀ i, j ≤ i < chunksPerBlock s → words st !! chunk_pointer s a i = Some (i + 1)) →
  ∃ st', SlabAlloc_many ms c (chunkSize s) st
         = Done ((λ i, Some (chunk_pointer s a i)) <$> seqZ j (Z.of_nat (length ms))) st'.
Proof.
  induction ms as [|m ms IH]; intros st L sj j Hinv Hctx Hsg Hj Hlen Hmin HB Hw.
  - simpl. eauto.
  - simpl length in *. destruct Hmin as [Hmin Hbk]; [lia|].
    assert (Hpre : take_pre st L c sj) by (apply take_pre_of_inv; [done | done | lia]).
    destruct (alloc_from_block_step st L c s a sj j Hpre Hsg ltac:(lia) Hmin Hbk HB Hw)
      as (st' & sj' & Heq & Hinv' & Hctx' & Hsg' & HB' & Hw' & Hmin').
    destruct (IH st' _ sj' (j + 1) Hinv' Hctx' Hsg') as (st'' & Heq'');
      [lia | lia | done | done | by intros i Hi; rewrite Hw'; apply Hw; lia |].
    exists st''. simpl. unfold SlabAlloc. rewrite Hctx.
    destruct Hsg as (Hcs & _). rewrite Hcs.
    rewrite decide_False by (intros Hn; by apply Hn).
    rewrite decide_False by lia. rewrite Heq.
    rewrite Heq''. rewrite (seqZ_cons j) by lia. simpl.
    replace (Z.succ j) with (j + 1) by lia.
    replace (Z.pred (Z.of_nat (S (length ms)))) with (Z.of_nat (length ms)) by lia.
    done.
Qed.

(** An allocation that changes the header of a block returns that block's
    first free chunk. *)
Lemma SlabAlloc_draws st L c s m size r st' b B :
  state_inv (st, L) → contexts st !! c = Some s → malloc_valid st m (blockSize s) →
  SlabAlloc m c size st = Done r st' →
  blocks st !! b = Some B → blocks st' !! b ≠ Some B →
  r = Some (chunk_pointer s b (firstFreeChunk B)).
Proof.
  intros Hinv Hctx Hm Hd HB Hch.
  destruct (SlabAlloc_Done_size _ _ _ _ _ _ Hd) as (s0 & Hs0 & ->).
  rewrite Hctx in Hs0. inversion Hs0; subst s0. clear Hs0.
  unfold SlabAlloc in Hd. rewrite Hctx in Hd.
  rewrite decide_False in Hd by (intros Hn; by apply Hn).
  destruct (decide (minFreeChunks s = 0)) as [H0|H0].
  - destruct m as [a|]; simpl in Hd; [|by inversion Hd; subst].
    destruct (new_block_pre st L c s a Hinv Hctx Hm)
      as (s1 & st2 & Hnew & Hpre & Hmin1 & _ & Hbk1 & _).
    simpl in Hnew. rewrite Hnew in Hd.
    apply SlabAlloc_new_block_blocks in Hnew. simpl in Hnew.
    destruct (SlabAlloc_take_ok _ _ _ _ Hpre)
      as (b' & l & B' & next & fl' & mfc & Hbk & _ & _ & _ & _ & _ & Heq & _).
    rewrite SlabAlloc_take_contexts, Hd in Heq. inversion Heq; subst.
    rewrite Hmin1, Hbk1 in Hbk. inversion Hbk; subst b' l.
    exfalso. apply Hch. simpl. rewrite Hnew.
    assert (b ≠ a).
    { intros ->. destruct (state_inv_block_region _ _ _ _ Hinv HB) as [n Hn].
      destruct Hm as (_ & Hnone & _). congruence. }
    by rewrite !lookup_insert_ne.
  - pose proof (take_pre_of_inv _ _ _ _ Hinv Hctx H0) as Hpre.
    destruct (SlabAlloc_take_ok _ _ _ _ Hpre)
      as (b' & l & B' & next & fl' & mfc & Hbk & HB' & _ & _ & _ & _ & Heq & _).
    rewrite Hd in Heq. inversion Heq; subst.
    destruct (decide (b' = b)) as [->|Hne].
    + rewrite HB in HB'. by inversion HB'; subst.
    + exfalso. apply Hch. simpl. by rewrite lookup_insert_ne.
Qed.

(** C10. A block that SlabAlloc has just obtained from malloc hands out its
    chunks in the order 0, 1, 2, ... under consecutive allocations; after
    SlabFree of [p] the block, if it stays, has firstFreeChunk at the index
    of [p]; and an allocation that draws from a block returns the chunk at
    that block's firstFreeChunk, so the next one drawing from the block of
    [p] returns [p]. *)
Theorem C10_chunk_reuse_order st L :
  reachable (st, L) →
  (∀ c s a ms,
     contexts st !! c = Some s → minFreeChunks s = 0 →
     malloc_fresh st a (blockSize s) →
     Z.of_nat (length ms) < chunksPerBlock s →
     ∃ st', SlabAlloc_many (Some a :: ms) c (chunkSize s) st
            = Done ((λ i, Some (chunk_pointer s a i))
                      <$> seqZ 0 (1 + Z.of_nat (length ms))) st') ∧
  (∀ p c, L !! p = Some c →
     ∃ s b i st1,
       contexts st !! c = Some s ∧ 0 ≤ i < chunksPerBlock s ∧ p = chunk_pointer s b i ∧
       MemoryChunkGetBlock (PointerGetMemoryChunk p) st = Some b ∧
       i = to_int (SlabChunkIndex s b (PointerGetMemoryChunk p)) ∧
       SlabFree p st = Done () st1 ∧
       ∀ B1, blocks st1 !! b = Some B1 →
         firstFreeChunk B1 = i ∧
         ∀ m size r st2 s1,
           contexts st1 !! c = Some s1 → malloc_valid st1 m (blockSize s1) →
           SlabAlloc m c size st1 = Done r st2 →
           blocks st2 !! b ≠ Some B1 → r = Some p) ∧
  (∀ c s m size r st' b B,
     contexts st !! c = Some s → malloc_valid st m (blockSize s) →
     SlabAlloc m c size st = Done r st' →
     blocks st !! b = Some B → blocks st' !! b ≠ Some B →
     r = Some (chunk_pointer s b (firstFreeChunk B))).
Proof.
  intros Hr%reachable_inv. split; [|split].
  - intros c s a ms Hctx Hmin Hfresh Hlen.
    assert (Hg : geometry_ok s).
    { destruct Hr as [Hall _]. by destruct (Hall _ _ Hctx) as ((? & _) & _). }
    destruct (new_block_pre st L c s a Hr Hctx Hfresh)
      as (s1 & st2 & Hnew & Hpre & Hmin1 & Hsg1 & Hbk1 & HB1 & Hw1 & _).
    destruct (alloc_from_block_step _ L c s a s1 0 Hpre Hsg1) as
      (st' & sj' & Heq & Hinv' & Hctx' & Hsg' & HB' & Hw' & Hmin');
      [destruct Hg; lia | lia | rewrite Z.sub_0_r; eauto | by rewrite Z.sub_0_r
      | by intros i Hi; apply Hw1; lia |].
    rewrite SlabAlloc_take_contexts in Heq.
    destruct (alloc_many_from_block c s a ms st' _ sj' 1 Hinv' Hctx' Hsg') as (st'' & Heq'');
      [lia | lia | done | done | by intros i Hi; rewrite Hw'; apply Hw1; lia |].
    exists st''. simpl. unfold SlabAlloc at 1. rewrite Hctx.
    rewrite decide_False by (intros Hn; by apply Hn).
    rewrite decide_True by done. simpl in Hnew. simpl. rewrite Hnew, Heq, Heq''.
    rewrite (seqZ_cons 0) by lia. simpl.
    replace (Z.pred (1 + Z.of_nat (length ms))) with (Z.of_nat (length ms)) by lia. done.
  - intros p c Hp.
    destruct (SlabFree_ok st L p c Hr Hp)
      as (s & b & i & B & mfc & Hctx & Hi & Hpe & HB & Hsl & Hn & Hblk & Hcase).
    assert (Hg : geometry_ok s).
    { destruct Hr as [Hall _]. by destruct (Hall _ _ Hctx) as ((? & _) & _). }
    assert (Hidx : i = to_int (SlabChunkIndex s b (PointerGetMemoryChunk p))).
    { subst p. by rewrite PointerGetMemoryChunk_pointer, SlabChunkIndex_chunk. }
    case_decide as Hfull.
    + destruct Hcase as [Heq _]. eexists s, b, i, _. repeat (split; [done|]).
      intros B1. simpl. by rewrite lookup_delete_eq.
    + destruct Hcase as (fl2 & Hpush & Heq & Hinv1). eexists s, b, i, _.
      repeat (split; [done|]).
      intros B1. simpl. rewrite lookup_insert_eq. intros [= <-]. simpl. split; [done|].
      intros m size r st2 s1 Hs1 Hm Hd Hch.
      rewrite (SlabAlloc_draws _ _ _ _ _ _ _ _ b (mkSlabBlock (nfree B + 1) i (slab B))
                 Hinv1 Hs1 Hm Hd); [| by simpl; rewrite lookup_insert_eq | done].
      simpl. f_equal. subst p. apply same_geometry_pointer.
      simpl in Hs1. rewrite Hsl, lookup_insert_eq in Hs1. inversion Hs1; subst s1.
      repeat split; try done. simpl.
      rewrite (dlist_push_head_length _ _ _ _ Hpush), dlist_delete_length. done.
  - intros c s m size r st' b B Hctx Hm Hd HB Hch. by eapply SlabAlloc_draws.
Qed.

End SlabProofs.

(** * Further properties *)

Section MoreProofs.
Context `{Layout}.

(** ** SlabContextCreate *)

(** The context SlabContextCreate builds and the memory it leaves. *)
Lemma SlabContextCreate_built m blockSize0 chunkSize0 st c st' :
  SlabContextCreate_pre blockSize0 chunkSize0 →
  SlabContextCreate m blockSize0 chunkSize0 st = Done c st' →
  ∃ s, m = Some c ∧ contexts st' = <[c := s]> (contexts st) ∧
    regions st' = <[c := headerSize s]> (regions st) ∧
    blocks st' = blocks st ∧ words st' = words st ∧ chunkhdrs st' = chunkhdrs st ∧
    chunkSize s = Z.max chunkSize0 sizeof_int ∧
    fullChunkSize s = Slab_CHUNKHDRSZ + MAXALIGN (chunkSize s) ∧
    blockSize s = blockSize0 ∧
    chunksPerBlock s = (blockSize0 - sizeof_SlabBlock) / fullChunkSize s ∧
    1 ≤ chunksPerBlock s ∧
    sizeof_SlabBlock + chunksPerBlock s * fullChunkSize s ≤ blockSize0 ∧
    blockSize0 < sizeof_SlabBlock + (chunksPerBlock s + 1) * fullChunkSize s ∧
    headerSize s
      = to_size (offsetof_freelist + to_size (sizeof_dlist_head * (chunksPerBlock s + 1))) ∧
    freelist s = replicate (Z.to_nat (chunksPerBlock s + 1)) [] ∧
    minFreeChunks s = 0 ∧ nblocks s = 0 ∧ mem_allocated s = 0.
Proof.
  intros (Hcs & Hbs & Hmax & Hq). unfold SlabContextCreate.
  set (cs1 := if decide (chunkSize0 < sizeof_int) then sizeof_int else chunkSize0).
  assert (Hcs1 : cs1 = Z.max chunkSize0 sizeof_int) by (unfold cs1; case_decide; lia).
  pose proof sizeof_SlabBlock_pos. pose proof Slab_CHUNKHDRSZ_pos. pose proof sizeof_int_pos.
  pose proof MEMORYCHUNK_MAX_VALUE_fits. pose proof sizeof_int_fits as Hif.
  fold (MAXALIGN sizeof_int) in Hif.
  assert (Hal : cs1 ≤ MAXALIGN cs1 ≤ MEMORYCHUNK_MAX_VALUE).
  { split; [apply MAXALIGN_ge|]. unfold cs1. by case_decide. }
  rewrite (to_size_id (Slab_CHUNKHDRSZ + MAXALIGN cs1)) by lia.
  rewrite (to_size_id (Slab_CHUNKHDRSZ + MAXALIGN cs1 + sizeof_SlabBlock)) by lia.
  case_decide as Hsmall; [done|].
  rewrite (to_size_id (blockSize0 - sizeof_SlabBlock)) by lia.
  rewrite <- Hcs1 in Hq.
  set (fcs := Slab_CHUNKHDRSZ + MAXALIGN cs1) in *.
  set (q := (blockSize0 - sizeof_SlabBlock) / fcs) in *.
  assert (Hq1 : 1 ≤ q) by (unfold q; apply Z.div_le_lower_bound; lia).
  assert (Hqm : q * fcs ≤ blockSize0 - sizeof_SlabBlock).
  { unfold q. rewrite Z.mul_comm. apply Z.mul_div_le. lia. }
  assert (Hqs : blockSize0 - sizeof_SlabBlock < (q + 1) * fcs).
  { unfold q. pose proof (Z.mul_succ_div_gt (blockSize0 - sizeof_SlabBlock) fcs). lia. }
  rewrite (to_int_id q) by (unfold INT_MIN, INT_MAX in *; lia).
  rewrite (to_int_id (q + 1)) by (unfold INT_MIN, INT_MAX in *; lia).
  destruct m as [a|]; simpl; [|done]. intros [= <- <-].
  match goal with |- context [<[a := ?x]> (contexts st)] => exists x end.
  simpl. repeat (split; [done|]).
  split; [clearbody q fcs; lia|]. split; [clearbody q fcs; lia|]. done.
Qed.

(** X1. What SlabContextCreate builds when it returns: the chunk size is the
    requested one raised to sizeof(int), a chunk slot is the header plus the
    aligned chunk size, chunksPerBlock is the number of slots that fit after
    the block header (one at least, and no more would fit), there is one
    empty list per possible count of free chunks, the counters are 0, the
    header region is recorded, and nothing else in memory changes. *)
Theorem X1_create_geometry m blockSize0 chunkSize0 st c st' :
  SlabContextCreate_pre blockSize0 chunkSize0 →
  SlabContextCreate m blockSize0 chunkSize0 st = Done c st' →
  ∃ s, m = Some c ∧ contexts st' = <[c := s]> (contexts st) ∧
    regions st' = <[c := headerSize s]> (regions st) ∧
    blocks st' = blocks st ∧ words st' = words st ∧ chunkhdrs st' = chunkhdrs st ∧
    chunkSize s = Z.max chunkSize0 sizeof_int ∧
    fullChunkSize s = Slab_CHUNKHDRSZ + MAXALIGN (chunkSize s) ∧
    blockSize s = blockSize0 ∧
    chunksPerBlock s = (blockSize0 - sizeof_SlabBlock) / fullChunkSize s ∧
    1 ≤ chunksPerBlock s ∧
    sizeof_SlabBlock + chunksPerBlock s * fullChunkSize s ≤ blockSize0 ∧
    blockSize0 < sizeof_SlabBlock + (chunksPerBlock s + 1) * fullChunkSize s ∧
    headerSize s
      = to_size (offsetof_freelist + to_size (sizeof_dlist_head * (chunksPerBlock s + 1))) ∧
    freelist s = replicate (Z.to_nat (chunksPerBlock s + 1)) [] ∧
    minFreeChunks s = 0 ∧ nblocks s = 0 ∧ mem_allocated s = 0.
Proof.
  intros (Hcs & Hbs & Hmax & Hq). unfold SlabContextCreate.
  set (cs1 := if decide (chunkSize0 < sizeof_int) then sizeof_int else chunkSize0).
  assert (Hcs1 : cs1 = Z.max chunkSize0 sizeof_int) by (unfold cs1; case_decide; lia).
  pose proof sizeof_SlabBlock_pos. pose proof Slab_CHUNKHDRSZ_pos. pose proof sizeof_int_pos.
  pose proof MEMORYCHUNK_MAX_VALUE_fits. pose proof sizeof_int_fits as Hif.
  fold (MAXALIGN sizeof_int) in Hif.
  assert (Hal : cs1 ≤ MAXALIGN cs1 ≤ MEMORYCHUNK_MAX_VALUE).
  { split; [apply MAXALIGN_ge|]. unfold cs1. by case_decide. }
  rewrite (to_size_id (Slab_CHUNKHDRSZ + MAXALIGN cs1)) by lia.
  rewrite (to_size_id (Slab_CHUNKHDRSZ + MAXALIGN cs1 + sizeof_SlabBlock)) by lia.
  case_decide as Hsmall; [done|].
  rewrite (to_size_id (blockSize0 - sizeof_SlabBlock)) by lia.
  rewrite <- Hcs1 in Hq.
  set (fcs := Slab_CHUNKHDRSZ + MAXALIGN cs1) in *.
  set (q := (blockSize0 - sizeof_SlabBlock) / fcs) in *.
  assert (Hq1 : 1 ≤ q) by (unfold q; apply Z.div_le_lower_bound; lia).
  assert (Hqm : q * fcs ≤ blockSize0 - sizeof_SlabBlock).
  { unfold q. rewrite Z.mul_comm. apply Z.mul_div_le. lia. }
  assert (Hqs : blockSize0 - sizeof_SlabBlock < (q + 1) * fcs).
  { unfold q. pose proof (Z.mul_succ_div_gt (blockSize0 - sizeof_SlabBlock) fcs). lia. }
  rewrite (to_int_id q) by (unfold INT_MIN, INT_MAX in *; lia).
  rewrite (to_int_id (q + 1)) by (unfold INT_MIN, INT_MAX in *; lia).
  destruct m as [a|]; simpl; [|done]. intros [= <- <-].
  match goal with |- context [<[a := ?x]> (contexts st)] => exists x end.
  simpl. repeat (split; [done|]).
  split; [clearbody q fcs; lia|]. split; [clearbody q fcs; lia|]. done.
Qed.

(** X2. How SlabContextCreate fails: a block too small for the block header
    and one chunk slot raises BlockGeometryInvalid before malloc is called,
    whatever malloc would answer; otherwise a failing malloc raises
    HeaderAllocFailed; the memory is unchanged in both cases. *)
Theorem X2_create_errors m blockSize0 chunkSize0 st :
  SlabContextCreate_pre blockSize0 chunkSize0 →
  (blockSize0 < Slab_CHUNKHDRSZ + MAXALIGN (Z.max chunkSize0 sizeof_int) + sizeof_SlabBlock →
     SlabContextCreate m blockSize0 chunkSize0 st = Raised BlockGeometryInvalid st) ∧
  (Slab_CHUNKHDRSZ + MAXALIGN (Z.max chunkSize0 sizeof_int) + sizeof_SlabBlock ≤ blockSize0 →
     SlabContextCreate None blockSize0 chunkSize0 st = Raised HeaderAllocFailed st ∧
     ∀ a, ∃ st', SlabContextCreate (Some a) blockSize0 chunkSize0 st = Done a st').
Proof.
  intros (Hcs & Hbs & Hmax & Hq).
  set (cs1 := if decide (chunkSize0 < sizeof_int) then sizeof_int else chunkSize0).
  assert (Hcs1 : cs1 = Z.max chunkSize0 sizeof_int) by (unfold cs1; case_decide; lia).
  pose proof sizeof_SlabBlock_pos. pose proof Slab_CHUNKHDRSZ_pos. pose proof sizeof_int_pos.
  pose proof MEMORYCHUNK_MAX_VALUE_fits. pose proof sizeof_int_fits as Hif.
  fold (MAXALIGN sizeof_int) in Hif.
  assert (Hal : cs1 ≤ MAXALIGN cs1 ≤ MEMORYCHUNK_MAX_VALUE).
  { split; [apply MAXALIGN_ge|]. unfold cs1. by case_decide. }
  assert (E1 : to_size (Slab_CHUNKHDRSZ + MAXALIGN cs1) = Slab_CHUNKHDRSZ + MAXALIGN cs1)
    by (apply to_size_id; lia).
  assert (E2 : to_size (Slab_CHUNKHDRSZ + MAXALIGN cs1 + sizeof_SlabBlock)
               = Slab_CHUNKHDRSZ + MAXALIGN cs1 + sizeof_SlabBlock)
    by (apply to_size_id; lia).
  rewrite <- Hcs1. split.
  - intros Hsmall. unfold SlabContextCreate. fold cs1. rewrite E1, E2.
    by rewrite decide_True.
  - intros Hbig. split.
    + unfold SlabContextCreate. fold cs1. rewrite E1, E2.
      by rewrite decide_False by lia.
    + intros a. unfold SlabContextCreate. fold cs1. rewrite E1, E2.
      rewrite decide_False by lia. simpl. eexists. reflexivity.
Qed.

(** ** Accounting *)

(** X3. In every reachable state nblocks is the number of blocks linked into
    the lists of the context and mem_allocated is that number times
    blockSize, both in the arithmetic of their types; as long as the number
    of blocks is a value of int, the assertion that closes SlabAlloc, SlabFree
    and SlabCheck, nblocks * blockSize == mem_allocated, holds. *)
Theorem X3_accounting st L c s :
  reachable (st, L) → contexts st !! c = Some s →
  nblocks s = to_int (Z.of_nat (length (concat (freelist s)))) ∧
  mem_allocated s = to_size (Z.of_nat (length (concat (freelist s))) * blockSize s) ∧
  (Z.of_nat (length (concat (freelist s))) ≤ INT_MAX →
     nblocks s = Z.of_nat (length (concat (freelist s))) ∧
     to_size (nblocks s * blockSize s) = mem_allocated s).
Proof.
  intros [Hall _]%reachable_inv Hc.
  destruct (Hall _ _ Hc) as ((_ & _ & _ & _ & Hnb & Hmem) & _).
  split; [done|]. split; [done|]. intros Hle.
  rewrite to_int_id in Hnb by (unfold INT_MIN, INT_MAX in *; lia).
  split; [done|]. by rewrite Hnb, Hmem.
Qed.

(** ** Chunks held by callers *)

(** X4. In every reachable state two different chunks held by callers do not
    overlap: the aligned payload of one ends before the header of the other
    begins, whether they lie in one block, in two blocks of one context or in
    blocks of different contexts. *)
Theorem X4_held_chunks_disjoint st L p q c c' :
  reachable (st, L) → L !! p = Some c → L !! q = Some c' → p ≠ q →
  ∃ s s', contexts st !! c = Some s ∧ contexts st !! c' = Some s' ∧
    (p + MAXALIGN (chunkSize s) ≤ PointerGetMemoryChunk q ∨
     q + MAXALIGN (chunkSize s') ≤ PointerGetMemoryChunk p).
Proof.
  intros Hr%reachable_inv Hp Hq Hne.
  destruct (live_chunk _ _ _ _ Hr Hp)
    as (s & b & i & B & lf & k & Hctx & Hcinv & _ & Hi & -> & HB & _ & Hsl & Hrb & _).
  destruct (live_chunk _ _ _ _ Hr Hq)
    as (s' & b' & i' & B' & lf' & k' & Hctx' & Hcinv' & _ & Hi' & -> & HB' & _ & Hsl' & Hrb' & _).
  exists s, s'. split; [done|]. split; [done|].
  pose proof Hcinv as ((Hg & _) & _). pose proof Hcinv' as ((Hg' & _) & _).
  pose proof Hg as (Hc1 & Hf & _ & Hfit & _). pose proof Hg' as (Hc1' & Hf' & _ & Hfit' & _).
  pose proof (geometry_fullChunkSize_pos s Hg). pose proof (geometry_fullChunkSize_pos s' Hg').
  pose proof Slab_CHUNKHDRSZ_pos. pose proof sizeof_SlabBlock_pos.
  rewrite !PointerGetMemoryChunk_pointer.
  unfold chunk_pointer, MemoryChunkGetPointer, SlabBlockGetChunk in *.
  destruct (decide (b = b')) as [<-|Hbb].
  - rewrite HB in HB'. inversion HB'; subst B'.
    assert (c' = c) as -> by congruence.
    rewrite Hctx in Hctx'. inversion Hctx'; subst s'.
    assert (i ≠ i') by (intros ->; done).
    destruct (Z.lt_total i i') as [Hlt|[?|Hlt]]; [left | done | right].
    + assert ((i + 1) * fullChunkSize s ≤ i' * fullChunkSize s) by nia. lia.
    + assert ((i' + 1) * fullChunkSize s ≤ i * fullChunkSize s) by nia. lia.
  - destruct Hr as [_ (Hdisj & _)].
    assert ((i + 1) * fullChunkSize s ≤ chunksPerBlock s * fullChunkSize s) by nia.
    assert ((i' + 1) * fullChunkSize s' ≤ chunksPerBlock s' * fullChunkSize s') by nia.
    assert (0 ≤ i * fullChunkSize s) by nia.
    assert (0 ≤ i' * fullChunkSize s') by nia.
    destruct (Hdisj _ _ _ _ Hrb Hrb' Hbb); [left | right]; lia.
Qed.

(** The chunk SlabAlloc is about to take is held by no one. *)
Lemma take_pre_fresh st L c s b l B :
  take_pre st L c s → bucket (freelist s) (minFreeChunks s) = Some (b :: l) →
  blocks st !! b = Some B → L !! chunk_pointer s b (firstFreeChunk B) = None.
Proof.
  intros (_ & (Hg & _ & Hbl & _) & Hmin & _) Hbk HB.
  destruct (Hbl _ _ (bucket_head_in _ _ _ _ Hbk))
    as (B' & lf & HB' & Hnf & _ & _ & Hch & _ & Hlen & Hlv).
  rewrite HB in HB'. inversion HB'; subst B'. rewrite Z2Nat.id in Hlen by lia.
  destruct lf as [|i lf]; [simpl in Hlen; lia|].
  destruct Hch as (-> & Hi & _). specialize (Hlv i Hi).
  by rewrite decide_True in Hlv by (apply elem_of_cons; auto).
Qed.

(** X5. The chunk SlabAlloc returns in a reachable state is held by no
    caller at the time of the call, and the state after the call, with the
    chunk held, is reachable; so every property of reachable states holds of
    it, its header leading back to the context of the call among them. *)
Theorem X5_alloc_returns_unheld st L c s m size p st' :
  reachable (st, L) → contexts st !! c = Some s → malloc_valid st m (blockSize s) →
  SlabAlloc m c size st = Done (Some p) st' →
  L !! p = None ∧ reachable (st', <[p := c]> L) ∧
  SlabGetChunkContext p st' = Done c st'.
Proof.
  intros Hr Hctx Hm Hd. pose proof (reachable_inv _ Hr) as Hinv.
  assert (Hr' : reachable (st', <[p := c]> L)).
  { eapply rtc_r; [exact Hr|]. by eapply step_alloc. }
  split; [|split; [done|]].
  - destruct (SlabAlloc_Done_size _ _ _ _ _ _ Hd) as (s0 & Hs0 & ->).
    rewrite Hctx in Hs0. inversion Hs0; subst s0. clear Hs0.
    unfold SlabAlloc in Hd. rewrite Hctx in Hd.
    rewrite decide_False in Hd by (intros Hn; by apply Hn).
    destruct (decide (minFreeChunks s = 0)) as [H0|H0].
    + destruct m as [a|]; simpl in Hd; [|done].
      destruct (new_block_pre st L c s a Hinv Hctx Hm) as (s1 & st2 & Hnew & Hpre & _).
      simpl in Hnew. rewrite Hnew in Hd.
      destruct (SlabAlloc_take_ok _ _ _ _ Hpre)
        as (b & l & B & next & fl' & mfc & Hbk & HB & _ & _ & _ & _ & Heq & _).
      rewrite SlabAlloc_take_contexts, Hd in Heq. inversion Heq; subst.
      by eapply take_pre_fresh.
    + pose proof (take_pre_of_inv _ _ _ _ Hinv Hctx H0) as Hpre.
      destruct (SlabAlloc_take_ok _ _ _ _ Hpre)
        as (b & l & B & next & fl' & mfc & Hbk & HB & _ & _ & _ & _ & Heq & _).
      rewrite Hd in Heq. inversion Heq; subst. by eapply take_pre_fresh.
  - destruct (chunk_slab_live st' (<[p := c]> L) p c) as (s' & _ & _ & Hcs);
      [by apply reachable_inv | by rewrite lookup_insert_eq |].
    unfold SlabGetChunkContext. by rewrite Hcs.
Qed.

Lemma SlabAlloc_new_block_fields c s a st1 s1 st2 :
  SlabAlloc_new_block c s a st1 = Some (s1, st2) →
  nblocks s1 = to_int (nblocks s + 1) ∧
  mem_allocated s1 = to_size (mem_allocated s + blockSize s) ∧
  regions st2 = regions st1 ∧ contexts st2 = contexts st1 ∧
  chunkhdrs st2 = chunkhdrs st1 ∧
  words st2 = SlabAlloc_init_chunks (Z.to_nat (chunksPerBlock s)) 0 s a (words st1).
Proof.
  unfold SlabAlloc_new_block.
  destruct (dlist_push_head _ _ _); [|done]. by intros [= <- <-].
Qed.

(** X6. When SlabAlloc returns a chunk: if minFreeChunks is 0 it is chunk 0
    of a block the call obtained from malloc, the block is recorded, nblocks
    grows by one and mem_allocated by blockSize; otherwise malloc is not
    called, the counters and the allocator's table are unchanged, and the
    chunk is the first free chunk of the head of list minFreeChunks, a block
    with exactly minFreeChunks free chunks. *)
Theorem X6_alloc_source st L c s m size p st' :
  reachable (st, L) → contexts st !! c = Some s → malloc_valid st m (blockSize s) →
  SlabAlloc m c size st = Done (Some p) st' →
  ∃ s', contexts st' !! c = Some s' ∧
    if decide (minFreeChunks s = 0)
    then ∃ a, m = Some a ∧ p = chunk_pointer s a 0 ∧
              regions st' = <[a := blockSize s]> (regions st) ∧
              nblocks s' = to_int (nblocks s + 1) ∧
              mem_allocated s' = to_size (mem_allocated s + blockSize s)
    else ∃ b l B, bucket (freelist s) (minFreeChunks s) = Some (b :: l) ∧
              blocks st !! b = Some B ∧ nfree B = minFreeChunks s ∧
              p = chunk_pointer s b (firstFreeChunk B) ∧
              regions st' = regions st ∧ nblocks s' = nblocks s ∧
              mem_allocated s' = mem_allocated s.
Proof.
  intros Hinv%reachable_inv Hctx Hm Hd.
  destruct (SlabAlloc_Done_size _ _ _ _ _ _ Hd) as (s0 & Hs0 & ->).
  rewrite Hctx in Hs0. inversion Hs0; subst s0. clear Hs0.
  unfold SlabAlloc in Hd. rewrite Hctx in Hd.
  rewrite decide_False in Hd by (intros Hn; by apply Hn).
  destruct (decide (minFreeChunks s = 0)) as [H0|H0].
  - destruct m as [a|]; simpl in Hd; [|done].
    destruct (new_block_pre st L c s a Hinv Hctx Hm)
      as (s1 & st2 & Hnew & Hpre & Hmin1 & Hsg1 & Hbk1 & HB1 & _).
    simpl in Hnew. rewrite Hnew in Hd.
    destruct (SlabAlloc_new_block_fields _ _ _ _ _ _ Hnew) as (Hn1 & Hm1 & Hr1 & _).
    destruct (SlabAlloc_take_ok _ _ _ _ Hpre)
      as (b & l & B & next & fl' & mfc & Hbk & HB & _ & _ & _ & _ & Heq & _).
    rewrite SlabAlloc_take_contexts, Hd in Heq. inversion Heq; subst.
    rewrite Hmin1, Hbk1 in Hbk. inversion Hbk; subst b l.
    simpl in HB. rewrite HB1 in HB. inversion HB; subst B. simpl.
    rewrite lookup_insert_eq. eexists. split; [done|]. exists a. simpl.
    split; [done|]. split; [by rewrite (same_geometry_pointer s s1)|].
    by rewrite Hr1.
  - pose proof (take_pre_of_inv _ _ _ _ Hinv Hctx H0) as Hpre.
    destruct (SlabAlloc_take_ok _ _ _ _ Hpre)
      as (b & l & B & next & fl' & mfc & Hbk & HB & Hnf & _ & _ & _ & Heq & _).
    rewrite Hd in Heq. inversion Heq; subst. simpl.
    rewrite lookup_insert_eq. eexists. split; [done|]. by exists b, l, B.
Qed.

(** X7. SlabAlloc and SlabFree on one context leave every other context and
    its blocks as they were, and write neither into the payload nor into the
    header of a chunk another caller holds. *)
Theorem X7_calls_are_local st L :
  reachable (st, L) →
  (∀ m c s size r st',
     contexts st !! c = Some s → malloc_valid st m (blockSize s) →
     SlabAlloc m c size st = Done r st' → others_untouched c L st st') ∧
  (∀ p c st',
     L !! p = Some c → SlabFree p st = Done () st' →
     others_untouched c (delete p L) st st').
Proof.
  intros Hinv%reachable_inv. split.
  - intros m c s size r st' Hctx Hm Hd.
    destruct (SlabAlloc_Done_size _ _ _ _ _ _ Hd) as (s0 & Hs0 & ->).
    rewrite Hctx in Hs0. inversion Hs0; subst s0. clear Hs0.
    unfold SlabAlloc in Hd. rewrite Hctx in Hd.
    rewrite decide_False in Hd by (intros Hn; by apply Hn).
    assert (Hhdrs : ∀ st0 L0 s0 b l B q cq,
              take_pre st0 L0 c s0 → bucket (freelist s0) (minFreeChunks s0) = Some (b :: l) →
              blocks st0 !! b = Some B → L0 !! q = Some cq →
              SlabBlockGetChunk s0 b (firstFreeChunk B) ≠ PointerGetMemoryChunk q).
    { intros st0 L0 s0 b l B q cq Hpre Hbk HB Hq Heq.
      pose proof (take_pre_fresh _ _ _ _ _ _ _ Hpre Hbk HB) as Hnone.
      unfold chunk_pointer, MemoryChunkGetPointer in Hnone. rewrite Heq in Hnone.
      unfold PointerGetMemoryChunk in Hnone.
      replace (q - Slab_CHUNKHDRSZ + Slab_CHUNKHDRSZ) with q in Hnone by lia. congruence. }
    destruct (decide (minFreeChunks s = 0)) as [H0|H0].
    + destruct m as [a|]; simpl in Hd; [|by inversion Hd; subst].
      destruct (new_block_pre st L c s a Hinv Hctx Hm)
        as (s1 & st2 & Hnew & Hpre & Hmin1 & Hsg1 & Hbk1 & HB1 & _ & Hc2).
      simpl in Hnew. rewrite Hnew in Hd.
      destruct (SlabAlloc_new_block_fields _ _ _ _ _ _ Hnew) as (_ & _ & Hr2 & _ & Hh2 & Hw2).
      pose proof (SlabAlloc_new_block_blocks _ _ _ _ _ _ Hnew) as Hb2. simpl in *.
      destruct (SlabAlloc_take_ok _ _ _ _ Hpre)
        as (b & l & B & next & fl' & mfc & Hbk & HB & _ & _ & _ & _ & Heq & _).
      rewrite SlabAlloc_take_contexts, Hd in Heq. inversion Heq; subst r st'.
      pose proof Hbk as Hbk'.
      rewrite Hmin1, Hbk1 in Hbk. inversion Hbk; subst b l.
      pose proof Hm as (_ & Hanew & _).
      assert (Hg : geometry_ok s).
      { destruct Hinv as [Hall _]. by destruct (Hall _ _ Hctx) as ((? & _) & _). }
      split; [|split].
      * intros c' Hc'. simpl. by rewrite !lookup_insert_ne, Hc2.
      * intros b0 B0 HB0 Hsl. simpl. rewrite Hb2, Hr2.
        assert (b0 ≠ a).
        { intros ->. destruct (state_inv_block_region _ _ _ _ Hinv HB0). congruence. }
        by rewrite !lookup_insert_ne.
      * intros q cq Hq. simpl. rewrite Hw2, Hh2. split.
        -- apply SlabAlloc_init_chunks_other. intros j Hj ->.
           apply (fresh_region_not_live st L a (blockSize s) _ _ Hinv Hm Hq).
           pose proof (chunk_in_region s a j Hg ltac:(lia)). lia.
        -- rewrite lookup_insert_ne; [done|].
           by eapply (Hhdrs _ _ _ _ _ _ _ _ Hpre Hbk' HB Hq).
    + pose proof (take_pre_of_inv _ _ _ _ Hinv Hctx H0) as Hpre.
      destruct (SlabAlloc_take_ok _ _ _ _ Hpre)
        as (b & l & B & next & fl' & mfc & Hbk & HB & _ & _ & _ & _ & Heq & _).
      rewrite Hd in Heq. inversion Heq; subst r st'.
      pose proof Hpre as (_ & (_ & _ & Hbl & _) & _).
      destruct (Hbl _ _ (bucket_head_in _ _ _ _ Hbk)) as (B' & ? & HB' & _ & Hsl' & _).
      rewrite HB in HB'. inversion HB'; subst B'.
      split; [|split].
      * intros c' Hc'. simpl. by rewrite lookup_insert_ne.
      * intros b0 B0 HB0 Hsl. simpl.
        assert (b0 ≠ b) by (intros ->; congruence).
        by rewrite lookup_insert_ne.
      * intros q cq Hq. simpl. split; [done|].
        rewrite lookup_insert_ne; [done|].
        by eapply (Hhdrs _ _ _ _ _ _ _ _ Hpre Hbk HB Hq).
  - intros p c st' Hp Hd.
    destruct (SlabFree_ok st L p c Hinv Hp)
      as (s & b & i & B & mfc & Hctx & Hi & Hpe & HB & Hsl & Hn & Hblk & Hcase).
    assert (Hw : ∀ q cq, delete p L !! q = Some cq → p ≠ q).
    { intros q cq Hq ->. by rewrite lookup_delete_eq in Hq. }
    case_decide.
    + destruct Hcase as [Heq _]. rewrite Hd in Heq. inversion Heq; subst st'.
      split; [|split].
      * intros c' Hc'. simpl. rewrite Hsl. by rewrite lookup_insert_ne.
      * intros b0 B0 HB0 Hsl0. simpl.
        assert (b0 ≠ b) by (intros ->; congruence).
        by rewrite !lookup_delete_ne, ?lookup_insert_ne.
      * intros q cq Hq. simpl. split; [|done].
        rewrite lookup_insert_ne; [done | by eapply Hw].
    + destruct Hcase as (fl2 & _ & Heq & _). rewrite Hd in Heq. inversion Heq; subst st'.
      split; [|split].
      * intros c' Hc'. simpl. rewrite Hsl. by rewrite lookup_insert_ne.
      * intros b0 B0 HB0 Hsl0. simpl.
        assert (b0 ≠ b) by (intros ->; congruence).
        by rewrite ?lookup_insert_ne.
      * intros q cq Hq. simpl. split; [|done].
        rewrite lookup_insert_ne; [done | by eapply Hw].
Qed.

(** What SlabReset leaves, in terms of the blocks [D] it has freed. *)
Lemma SlabReset_rel st L c s st' :
  state_inv (st, L) → contexts st !! c = Some s → SlabReset c st = Done () st' →
  ∃ D s2 st2, reset_rel s st D s2 st2 ∧
    st' = set_contexts (<[c := set_minFreeChunks 0 s2]> (contexts st2)) st2.
Proof.
  intros Hinv Hctx Hd. pose proof Hinv as [Hall _]. simpl in Hall.
  pose proof (Hall _ _ Hctx) as ((Hg & Hreg & Hblocks & Hnd & Hnb & Hmem) & _).
  pose proof Hg as (Hcpb & _ & _ & _ & Hflen).
  assert (Hrel0 : reset_rel s st [] s st).
  { unfold reset_rel. simpl length. rewrite !Z.sub_0_r.
    split; [by rewrite (map_ext _ id), map_id by apply filter_not_in_nil|].
    repeat (split; [done|]). split; [|split; [|done]].
    - by rewrite Hnb, to_int_idemp.
    - by rewrite Hmem, to_size_idemp. }
  destruct (SlabReset_freelists_rel s st (Z.to_nat (chunksPerBlock s + 1)) 0 [] s st)
    as (D & s2 & st2 & Heq & Hrel & _);
    [done | constructor | lia | lia | done | | by intros ? ?%elem_of_nil |].
  { intros x [k Hk]%elem_of_concat_bucket.
    destruct (Hblocks _ _ Hk) as (? & ? & _ & _ & _ & Hr & _). eauto. }
  unfold SlabReset in Hd. rewrite Hctx, Heq in Hd. inversion Hd; subst st'.
  by exists D, s2, st2.
Qed.

(** SlabReset writes into no chunk and into no other context. *)
Lemma SlabReset_memory st L c s st' :
  state_inv (st, L) → contexts st !! c = Some s → SlabReset c st = Done () st' →
  words st' = words st ∧ chunkhdrs st' = chunkhdrs st ∧
  ∀ c', c' ≠ c → contexts st' !! c' = contexts st !! c'.
Proof.
  intros Hinv Hctx Hd.
  destruct (SlabReset_rel _ _ _ _ _ Hinv Hctx Hd) as (D & s2 & st2 & Hrel & ->).
  destruct Hrel as (_ & _ & _ & _ & _ & _ & _ & _ & _ & _ & H6 & H7 & H8). simpl.
  split; [done|]. split; [done|]. intros c' Hc'. by rewrite lookup_insert_ne, H6.
Qed.

Lemma SlabReset_freelists_empty n : ∀ i s st k,
  freelist s = replicate k [] → 0 ≤ i → i + Z.of_nat n ≤ Z.of_nat k →
  SlabReset_freelists n i s st = Some (s, st).
Proof.
  induction n as [|n IH]; intros i s st k Hfl Hi Hn; [done|].
  simpl. rewrite Hfl. unfold bucket. rewrite decide_True by done.
  rewrite lookup_replicate_2 by lia. simpl. eapply IH; [done | lia | lia].
Qed.

(** X8. SlabDelete on a context of a reachable state completes; afterwards
    the context header and every block of the context are back with the
    system allocator, the context is gone (a later SlabAlloc on it is
    undefined), the chunks of the context are no longer held, and the other
    contexts, their blocks and every chunk's contents are as they were. *)
Theorem X8_delete st L c s :
  reachable (st, L) → contexts st !! c = Some s →
  ∃ st',
    SlabDelete c st = Done () st' ∧ reachable (st', drop_context c L) ∧
    contexts st' !! c = None ∧ regions st' !! c = None ∧
    (∀ b B, blocks st !! b = Some B → slab B = c →
       blocks st' !! b = None ∧ regions st' !! b = None) ∧
    (∀ p, drop_context c L !! p ≠ Some c) ∧
    (∀ m size, SlabAlloc m c size st' = Undefined) ∧
    (∀ c', c' ≠ c → contexts st' !! c' = contexts st !! c') ∧
    (∀ b B, blocks st !! b = Some B → slab B ≠ c →
       blocks st' !! b = Some B ∧ regions st' !! b = regions st !! b) ∧
    words st' = words st ∧ chunkhdrs st' = chunkhdrs st.
Proof.
  intros Hr Hctx. pose proof (reachable_inv _ Hr) as Hinv.
  destruct (SlabReset_ok _ _ _ _ Hinv Hctx)
    as (st1 & s1 & Heq & Hinv1 & Hctx1 & Hsg & _ & _ & _ & Hfl & Hreg & Hgone & Hkept).
  destruct (SlabReset_memory _ _ _ _ _ Hinv Hctx Heq) as (Hw & Hh & Hoth).
  assert (Hd : SlabDelete c st
               = Done () (set_contexts (delete c (contexts st1))
                            (set_regions (delete c (regions st1)) st1))).
  { unfold SlabDelete, free. by rewrite Heq, Hreg. }
  eexists. split; [exact Hd|]. split.
  { eapply rtc_r; [exact Hr|]. by apply step_delete. }
  simpl. rewrite !lookup_delete_eq. split; [done|]. split; [done|].
  assert (Hcb : ∀ b B, blocks st !! b = Some B → b ≠ c).
  { intros b B HB ->. by eapply (global_block_not_context st L c B c s); [apply Hinv|..]. }
  split; [|split; [|split; [|split; [|split]]]].
  - intros b B HB Hsl. destruct (Hgone _ _ HB Hsl) as [? ?].
    split; [done|]. by rewrite lookup_delete_ne by (apply not_eq_sym; eauto).
  - intros p. rewrite drop_context_lookup. destruct (L !! p); [|done].
    case_decide; [done | congruence].
  - intros m size. unfold SlabAlloc. simpl. by rewrite lookup_delete_eq.
  - intros c' Hc'. by rewrite lookup_delete_ne, Hoth.
  - intros b B HB Hsl. destruct (Hkept _ _ HB Hsl) as [? ?].
    split; [done|]. by rewrite lookup_delete_ne by (apply not_eq_sym; eauto).
  - done.
Qed.

(** X9. SlabReset is idempotent on reachable states: a second SlabReset
    right after the first completes and changes nothing.  The first one
    leaves the other contexts, their blocks and every chunk's contents as
    they were. *)
Theorem X9_reset_idempotent st L c s :
  reachable (st, L) → contexts st !! c = Some s →
  ∃ st',
    SlabReset c st = Done () st' ∧ SlabReset c st' = Done () st' ∧
    (∀ c', c' ≠ c → contexts st' !! c' = contexts st !! c') ∧
    (∀ b B, blocks st !! b = Some B → slab B ≠ c →
       blocks st' !! b = Some B ∧ regions st' !! b = regions st !! b) ∧
    words st' = words st ∧ chunkhdrs st' = chunkhdrs st.
Proof.
  intros Hinv%reachable_inv Hctx.
  destruct (SlabReset_ok _ _ _ _ Hinv Hctx)
    as (st1 & s1 & Heq & Hinv1 & Hctx1 & Hsg & Hmin & _ & _ & Hfl & _ & _ & Hkept).
  destruct (SlabReset_memory _ _ _ _ _ Hinv Hctx Heq) as (Hw & Hh & Hoth).
  exists st1. split; [done|]. split; [|done].
  unfold SlabReset. rewrite Hctx1.
  destruct Hsg as (_ & _ & _ & _ & Hcpb & _).
  rewrite (SlabReset_freelists_empty _ 0 s1 st1 (Z.to_nat (chunksPerBlock s + 1)));
    [| done | done | rewrite Hcpb; lia].
  f_equal. destruct s1; simpl in *; subst. unfold set_minFreeChunks. simpl.
  rewrite insert_id by done. by destruct st1.
Qed.

(** X10. SlabIsEmpty answers true when no block is linked into the lists of
    the context; and when it answers true in a reachable state whose number
    of blocks is below 2^32 (the counter is an int), no block is linked and
    no caller holds a chunk of the context. *)
Theorem X10_is_empty st L c s :
  reachable (st, L) → contexts st !! c = Some s →
  ∃ r, SlabIsEmpty c st = Done r st ∧
       (concat (freelist s) = [] → r = true) ∧
       (r = true → Z.of_nat (length (concat (freelist s))) < 4294967296 →
          concat (freelist s) = [] ∧ ∀ p, L !! p ≠ Some c).
Proof.
  intros Hinv%reachable_inv Hctx. pose proof Hinv as [Hall (_ & _ & Hlive)].
  simpl in Hall, Hlive.
  destruct (Hall _ _ Hctx) as ((_ & _ & _ & _ & Hnb & _) & _).
  unfold SlabIsEmpty. rewrite Hctx. eexists. split; [done|]. split.
  - intros Hnil. rewrite Hnb, Hnil. done.
  - intros Ht%bool_decide_eq_true Hlt. rewrite Hnb in Ht.
    assert (Hnil : concat (freelist s) = []).
    { apply length_zero_iff_nil. unfold to_int in Ht.
      set (N := Z.of_nat (length (concat (freelist s)))) in *.
      assert (0 ≤ N) by lia.
      destruct (decide (N < 2147483648)).
      - rewrite Z.mod_small in Ht by lia. lia.
      - replace (N + 2147483648) with (N - 2147483648 + 1 * 4294967296) in Ht by lia.
        rewrite Z_mod_plus_full, Z.mod_small in Ht by lia. lia. }
    split; [done|]. intros p Hp.
    destruct (Hlive _ _ Hp) as (s0 & b & i & Hs0 & Hb & _).
    rewrite Hctx in Hs0. inversion Hs0; subst s0. rewrite Hnil in Hb.
    by apply elem_of_nil in Hb.
Qed.

Lemma created_geometry_same s s' :
  same_geometry s s' → created_geometry s → created_geometry s'.
Proof.
  intros (E1 & E2 & E3 & E4 & E5 & E6). unfold created_geometry.
  by rewrite E1, E2, E3, E4, E5, E6.
Qed.

Lemma same_geometry_trans s1 s2 s3 :
  same_geometry s1 s2 → same_geometry s2 s3 → same_geometry s1 s3.
Proof. unfold same_geometry. intros ? ?. intuition congruence. Qed.

Lemma SlabAlloc_contexts st L c s m size p st' :
  state_inv (st, L) → contexts st !! c = Some s → malloc_valid st m (blockSize s) →
  SlabAlloc m c size st = Done (Some p) st' →
  ∃ s', contexts st' = <[c := s']> (contexts st) ∧ same_geometry s s'.
Proof.
  intros Hinv Hctx Hm Hd.
  destruct (SlabAlloc_Done_size _ _ _ _ _ _ Hd) as (s0 & Hs0 & ->).
  rewrite Hctx in Hs0. inversion Hs0; subst s0. clear Hs0.
  unfold SlabAlloc in Hd. rewrite Hctx in Hd.
  rewrite decide_False in Hd by (intros Hn; by apply Hn).
  assert (Hsg : ∀ s0 fl' mfc b x,
            dlist_push_head (dlist_delete b (freelist s0)) x b = Some fl' →
            same_geometry s0 (set_minFreeChunks mfc (set_freelist fl' s0))).
  { intros s0 fl' mfc b x Hp. repeat split. simpl.
    by rewrite (dlist_push_head_length _ _ _ _ Hp), dlist_delete_length. }
  destruct (decide (minFreeChunks s = 0)) as [H0|H0].
  - destruct m as [a|]; simpl in Hd; [|done].
    destruct (new_block_pre st L c s a Hinv Hctx Hm)
      as (s1 & st2 & Hnew & Hpre & Hmin1 & Hsg1 & Hbk1 & HB1 & _ & Hc2).
    simpl in Hnew. rewrite Hnew in Hd.
    destruct (SlabAlloc_take_ok _ _ _ _ Hpre)
      as (b & l & B & next & fl' & mfc & _ & _ & _ & _ & Hpush & _ & Heq & _).
    rewrite SlabAlloc_take_contexts, Hd in Heq. inversion Heq; subst.
    simpl. eexists. rewrite insert_insert_eq, Hc2. split; [done|].
    eapply same_geometry_trans; [exact Hsg1 | by eapply Hsg].
  - pose proof (take_pre_of_inv _ _ _ _ Hinv Hctx H0) as Hpre.
    destruct (SlabAlloc_take_ok _ _ _ _ Hpre)
      as (b & l & B & next & fl' & mfc & _ & _ & _ & _ & Hpush & _ & Heq & _).
    rewrite Hd in Heq. inversion Heq; subst. simpl.
    eexists. split; [done|]. by eapply Hsg.
Qed.

Lemma SlabFree_contexts st L p c st' :
  state_inv (st, L) → L !! p = Some c → SlabFree p st = Done () st' →
  ∃ s s', contexts st !! c = Some s ∧ contexts st' = <[c := s']> (contexts st) ∧
          same_geometry s s'.
Proof.
  intros Hinv Hp Hd.
  destruct (SlabFree_ok st L p c Hinv Hp)
    as (s & b & i & B & mfc & Hctx & Hi & Hpe & HB & Hsl & Hn & Hblk & Hcase).
  exists s. case_decide.
  - destruct Hcase as [Heq _]. rewrite Hd in Heq. inversion Heq; subst st'.
    simpl. rewrite Hsl. eexists. split; [done|]. split; [done|].
    repeat split. simpl. by rewrite dlist_delete_length.
  - destruct Hcase as (fl2 & Hpush & Heq & _). rewrite Hd in Heq. inversion Heq; subst st'.
    simpl. rewrite Hsl. eexists. split; [done|]. split; [done|].
    repeat split. simpl. by rewrite (dlist_push_head_length _ _ _ _ Hpush), dlist_delete_length.
Qed.

Lemma SlabReset_Done_context c st st' :
  SlabReset c st = Done () st' → is_Some (contexts st !! c).
Proof. unfold SlabReset. destruct (contexts st !! c); [eauto | done]. Qed.

Lemma SlabDelete_Done c st st' :
  SlabDelete c st = Done () st' →
  ∃ st1, SlabReset c st = Done () st1 ∧
         st' = set_contexts (delete c (contexts st1))
                 (set_regions (delete c (regions st1)) st1).
Proof.
  unfold SlabDelete, free. destruct (SlabReset c st) as [[] st1| |]; [|done..].
  destruct (regions st1 !! c); [|done]. intros [= <-]. by exists st1.
Qed.

Lemma created_geometry_create m blockSize0 chunkSize0 st c st' s :
  SlabContextCreate_pre blockSize0 chunkSize0 →
  SlabContextCreate m blockSize0 chunkSize0 st = Done c st' →
  contexts st' !! c = Some s → created_geometry s.
Proof.
  intros Hpre Hd Hs. pose proof Hpre as (Hc0 & Hb0 & _ & Hfit).
  destruct (SlabContextCreate_built _ _ _ _ _ _ Hpre Hd)
    as (s0 & _ & Hc & _ & _ & _ & _ & Hcs & Hfcs & Hbs & Hcpb & Hcpb1 & _ & _ & Hhs & Hfl & _).
  rewrite Hc, lookup_insert_eq in Hs. inversion Hs; subst s0.
  pose proof sizeof_int_pos. pose proof Slab_CHUNKHDRSZ_pos.
  unfold created_geometry. rewrite Hbs, Hfl, length_replicate.
  split; [done|]. split; [lia|]. split; [done|]. split; [done|].
  split; [|done]. split; [done|].
  rewrite Hcpb, Hfcs, Hcs. done.
Qed.

(** What one completed operation does to the contexts: a context of the
    state it ends in is new, with the geometry SlabContextCreate derives, or
    was there before with the same geometry. *)
Lemma step_geometry st L st' L' c s' :
  state_inv (st, L) → step (st, L) (st', L') → contexts st' !! c = Some s' →
  (∃ s, contexts st !! c = Some s ∧ same_geometry s s') ∨
  (contexts st !! c = None ∧ created_geometry s').
Proof.
  intros Hinv Hstep Hs'. inversion Hstep; subst.
  - match goal with Hd : SlabContextCreate _ _ _ _ = _ |- _ =>
      destruct (SlabContextCreate_built _ _ _ _ _ _ ltac:(eassumption) Hd)
        as (s1 & _ & Hc & _); pose proof Hd as Hd' end.
    destruct (decide (c = c0)) as [->|Hne].
    + right. split; [|by eapply created_geometry_create].
      destruct (contexts st !! c0) as [s0|] eqn:Hs0; [|done].
      destruct Hinv as [Hall _]. destruct (Hall _ _ Hs0) as ((_ & Hreg & _) & _).
      match goal with Hf : malloc_fresh _ _ _ |- _ => destruct Hf as (_ & Hf & _) end.
      simpl in Hreg. congruence.
    + left. rewrite Hc, lookup_insert_ne in Hs' by done.
      exists s'. split; [done | apply same_geometry_refl].
  - match goal with Hd : SlabAlloc _ _ _ _ = _ |- _ =>
      destruct (SlabAlloc_contexts _ _ _ _ _ _ _ _ Hinv ltac:(eassumption) ltac:(eassumption) Hd)
        as (s1 & Hc & Hsg) end.
    left. rewrite Hc in Hs'. destruct (decide (c = c0)) as [->|Hne].
    + rewrite lookup_insert_eq in Hs'. inversion Hs'; subst. eauto.
    + rewrite lookup_insert_ne in Hs' by done. exists s'. split; [done | apply same_geometry_refl].
  - match goal with Hd : SlabFree _ _ = _ |- _ =>
      destruct (SlabFree_contexts _ _ _ _ _ Hinv ltac:(eassumption) Hd)
        as (s0 & s1 & Hs0 & Hc & Hsg) end.
    left. rewrite Hc in Hs'. destruct (decide (c = c0)) as [->|Hne].
    + rewrite lookup_insert_eq in Hs'. inversion Hs'; subst. eauto.
    + rewrite lookup_insert_ne in Hs' by done. exists s'. split; [done | apply same_geometry_refl].
  - left. match goal with Hd : SlabReset _ _ = _ |- _ =>
      destruct (SlabReset_Done_context _ _ _ Hd) as [s0 Hs0];
      destruct (SlabReset_ok _ _ _ _ Hinv Hs0) as (st1 & s1 & Heq & _ & Hs1 & Hsg & _);
      destruct (SlabReset_memory _ _ _ _ _ Hinv Hs0 Hd) as (_ & _ & Hoth);
      rewrite Hd in Heq; inversion Heq; subst st1 end.
    destruct (decide (c = c0)) as [->|Hne].
    + exists s0. split; [done|]. congruence.
    + rewrite Hoth in Hs' by done. exists s'. split; [done | apply same_geometry_refl].
  - left. match goal with Hd : SlabDelete _ _ = _ |- _ =>
      destruct (SlabDelete_Done _ _ _ Hd) as (st1 & Hr & ->) end.
    destruct (SlabReset_Done_context _ _ _ Hr) as [s0 Hs0].
    destruct (SlabReset_memory _ _ _ _ _ Hinv Hs0 Hr) as (_ & _ & Hoth).
    simpl in Hs'. destruct (decide (c = c0)) as [->|Hne].
    + by rewrite lookup_delete_eq in Hs'.
    + rewrite lookup_delete_ne, Hoth in Hs' by done.
      exists s'. split; [done | apply same_geometry_refl].
  - left. simpl in Hs'. exists s'. split; [done | apply same_geometry_refl].
Qed.

Lemma reachable_geometry st L c s :
  reachable (st, L) → contexts st !! c = Some s → created_geometry s.
Proof.
  intros Hr. revert c s.
  change (∀ c s, contexts (st, L).1 !! c = Some s → created_geometry s).
  eapply (rtc_ind_r (λ cfg, reachable cfg → ∀ c s, contexts cfg.1 !! c = Some s → created_geometry s));
    [ | | exact Hr | exact Hr].
  - intros _ c s Hs. simpl in Hs. by rewrite lookup_empty in Hs.
  - intros [st1 L1] [st2 L2] Hr1 Hstep IH _ c s Hs.
    assert (Hreach : reachable (st1, L1)) by exact Hr1.
    destruct (step_geometry _ _ _ _ _ _ (reachable_inv _ Hreach) Hstep Hs)
      as [(s0 & Hs0 & Hsg)|[_ Hg]]; [|done].
    eapply created_geometry_same; [exact Hsg|]. by eapply (IH Hreach).
Qed.

(** X11. The geometry of a context is fixed at creation: in every reachable
    state each context has the chunksPerBlock, fullChunkSize and headerSize
    that SlabContextCreate derives from its blockSize and chunkSize (as many
    chunk slots as fit after the block header, and no room for one more),
    and no completed operation changes these fields of a context that it
    leaves in place. *)
Theorem X11_geometry_fixed st L :
  reachable (st, L) →
  (∀ c s, contexts st !! c = Some s →
     created_geometry s ∧
     sizeof_SlabBlock + chunksPerBlock s * fullChunkSize s ≤ blockSize s ∧
     blockSize s < sizeof_SlabBlock + (chunksPerBlock s + 1) * fullChunkSize s) ∧
  (∀ st' L' c s s', step (st, L) (st', L') →
     contexts st !! c = Some s → contexts st' !! c = Some s' → same_geometry s s').
Proof.
  intros Hr. split.
  - intros c s Hs. pose proof (reachable_geometry _ _ _ _ Hr Hs) as Hg.
    split; [done|]. destruct Hg as (Hbs & Hint & Hfcs & Hcpb & Hc1 & _).
    pose proof sizeof_int_pos. pose proof Slab_CHUNKHDRSZ_pos.
    pose proof (MAXALIGN_ge (chunkSize s)).
    assert (0 < fullChunkSize s) by lia.
    pose proof (Z.mul_div_le (blockSize s - sizeof_SlabBlock) (fullChunkSize s) ltac:(lia)).
    pose proof (Z.mul_succ_div_gt (blockSize s - sizeof_SlabBlock) (fullChunkSize s) ltac:(lia)).
    rewrite <- Hcpb in *. lia.
  - intros st' L' c s s' Hstep Hs Hs'.
    destruct (step_geometry _ _ _ _ _ _ (reachable_inv _ Hr) Hstep Hs')
      as [(s0 & Hs0 & Hsg)|[Hn _]]; congruence.
Qed.

Lemma to_size_range z : 0 ≤ to_size z < SIZE_MODULUS.
Proof. unfold to_size. apply Z.mod_pos_bound. done. Qed.

Lemma to_size_idemp_add_r a b : to_size (a + to_size b) = to_size (a + b).
Proof. unfold to_size. by rewrite Zplus_mod_idemp_r. Qed.

Lemma to_size_idemp_mul_r a b : to_size (a * to_size b) = to_size (a * b).
Proof. unfold to_size. by rewrite Zmult_mod_idemp_r. Qed.

Lemma stats_add_range s acc len free : counters_in_range (stats_add s acc len free).
Proof. repeat split; apply to_size_range. Qed.

Lemma stats_add_0 s acc : counters_in_range acc → stats_add s acc 0 0 = acc.
Proof.
  intros (? & ? & ? & ?). destruct acc. unfold stats_add. simpl in *.
  rewrite Z.mul_0_r, Z.mul_0_l, !Z.add_0_r. by rewrite !to_size_id.
Qed.

Lemma stats_add_add s acc l1 f1 l2 f2 :
  stats_add s (stats_add s acc l1 f1) l2 f2 = stats_add s acc (l1 + l2) (f1 + f2).
Proof.
  unfold stats_add. simpl. rewrite !to_size_idemp_add. f_equal; f_equal; lia.
Qed.

Lemma SlabStats_blocks_spec s st nodes : ∀ acc,
  counters_in_range acc →
  (∀ b, b ∈ nodes → is_Some (blocks st !! b)) →
  SlabStats_blocks nodes s st acc
    = Some (stats_add s acc (Z.of_nat (length nodes)) (free_in st nodes)).
Proof.
  induction nodes as [|b rest IH]; intros acc Hacc Hall.
  - simpl. by rewrite stats_add_0.
  - destruct (Hall b) as [B HB]; [left|].
    cbn [SlabStats_blocks]. rewrite HB.
    assert (Hstep : mkMemoryContextCounters
               (to_size (counters_nblocks acc + 1))
               (to_size (counters_freechunks acc + to_size (nfree B)))
               (to_size (counters_totalspace acc + blockSize s))
               (to_size (counters_freespace acc
                         + to_size (fullChunkSize s * to_size (nfree B))))
             = stats_add s acc 1 (nfree B)).
    { unfold stats_add. rewrite to_size_idemp_mul_r, !to_size_idemp_add_r.
      by rewrite Z.mul_1_l. }
    rewrite Hstep, IH; [|apply stats_add_range | intros; apply Hall; by right].
    rewrite stats_add_add. f_equal. f_equal.
    + simpl length. lia.
    + simpl. by rewrite HB.
Qed.

Lemma free_in_app st l1 l2 : free_in st (l1 ++ l2) = free_in st l1 + free_in st l2.
Proof. induction l1 as [|b l1 IH]; simpl; [done|]. rewrite IH. lia. Qed.

Lemma SlabStats_freelists_spec s st n : ∀ i acc,
  counters_in_range acc →
  (∀ b, b ∈ concat (freelist s) → is_Some (blocks st !! b)) →
  (i + n ≤ length (freelist s))%nat →
  SlabStats_freelists n (Z.of_nat i) s st acc
    = Some (stats_add s acc
              (Z.of_nat (length (concat (take n (drop i (freelist s))))))
              (free_in st (concat (take n (drop i (freelist s)))))).
Proof.
  induction n as [|n IH]; intros i acc Hacc Hall Hn.
  - simpl. by rewrite stats_add_0.
  - cbn [SlabStats_freelists]. rewrite bucket_of_nat.
    destruct (freelist s !! i) as [nodes|] eqn:Hnodes;
      [|apply lookup_ge_None in Hnodes; lia].
    rewrite (SlabStats_blocks_spec s st nodes acc Hacc).
    2:{ intros b Hb. apply Hall, elem_of_concat_bucket. by exists i, nodes. }
    replace (Z.of_nat i + 1) with (Z.of_nat (S i)) by lia.
    rewrite IH; [|apply stats_add_range | done | lia].
    rewrite stats_add_add. rewrite (drop_S _ _ _ Hnodes). simpl.
    rewrite length_app, free_in_app. f_equal. f_equal. lia.
Qed.

(** ** Counting the chunks held *)

Lemma count_not_in (l : list Z) n :
  0 ≤ n → NoDup l → (∀ i, i ∈ l → 0 ≤ i < n) →
  Z.of_nat (length (filter (λ i, i ∉ l) (seqZ 0 n))) = n - Z.of_nat (length l).
Proof.
  intros Hn Hnd Hr.
  pose proof (filter_app_complement (λ i, i ∈ l) (seqZ 0 n)) as Hp.
  apply Permutation_length in Hp. rewrite length_app, length_seqZ in Hp.
  assert (Hl : filter (λ i, i ∈ l) (seqZ 0 n) ≡ₚ l).
  { apply NoDup_Permutation; [apply NoDup_filter, NoDup_seqZ | done |].
    intros x. rewrite list_elem_of_filter, elem_of_seqZ. naive_solver lia. }
  apply Permutation_length in Hl. lia.
Qed.

Lemma filter_iff_in (P1 P2 : Z → Prop) `{!∀ x, Decision (P1 x), !∀ x, Decision (P2 x)}
    (l : list Z) :
  (∀ x, x ∈ l → P1 x ↔ P2 x) → filter P1 l = filter P2 l.
Proof.
  induction l as [|a l IH]; intros Hiff; [done|].
  assert (Ha : P1 a ↔ P2 a) by (apply Hiff; left).
  assert (Hl : filter P1 l = filter P2 l) by (apply IH; intros; apply Hiff; by right).
  destruct (decide (P1 a)).
  - rewrite !filter_cons_True by naive_solver. by rewrite Hl.
  - rewrite !filter_cons_False by naive_solver. by rewrite Hl.
Qed.

Lemma held_in_length st L c s b k :
  geometry_ok s → block_inv st L c s b k →
  Z.of_nat (length (held_in L c s b)) = chunksPerBlock s - k.
Proof.
  intros Hg (B & l & HB & Hnf & Hsl & Hreg & Hch & Hnd & Hlen & Hi).
  pose proof (chain_range _ _ _ _ _ Hch) as Hrange. rewrite Forall_forall in Hrange.
  unfold held_in. rewrite length_fmap.
  rewrite (filter_iff_in _ (λ i, i ∉ l)).
  - rewrite count_not_in; [lia | destruct Hg as (? & _); lia | done | done].
  - intros i Hin%elem_of_seqZ. specialize (Hi i ltac:(lia)). case_decide; naive_solver.
Qed.

Lemma held_in_elem st L c s b k p :
  block_inv st L c s b k →
  p ∈ held_in L c s b ↔
  ∃ i, 0 ≤ i < chunksPerBlock s ∧ p = chunk_pointer s b i ∧ L !! p = Some c.
Proof.
  intros _. unfold held_in. rewrite list_elem_of_fmap. split.
  - intros (i & -> & (Hl & Hin%elem_of_seqZ)%list_elem_of_filter). exists i.
    split; [lia|]. done.
  - intros (i & Hi & -> & Hl). exists i. split; [done|].
    apply list_elem_of_filter. split; [done|]. apply elem_of_seqZ. lia.
Qed.

Lemma held_in_NoDup L c s b : geometry_ok s → NoDup (held_in L c s b).
Proof.
  intros Hg. unfold held_in. apply NoDup_fmap_2_strong.
  - intros i j _ _. by apply chunk_pointer_inj.
  - apply NoDup_filter, NoDup_seqZ.
Qed.

Lemma held_all st L c s bs :
  geometry_ok s → regions_disjoint st → NoDup bs →
  (∀ b, b ∈ bs → ∃ k, block_inv st L c s b k) →
  NoDup (concat (held_in L c s <$> bs)) ∧
  Z.of_nat (length (concat (held_in L c s <$> bs)))
    = Z.of_nat (length bs) * chunksPerBlock s - free_in st bs ∧
  ∀ p, p ∈ concat (held_in L c s <$> bs) ↔
       ∃ b i, b ∈ bs ∧ 0 ≤ i < chunksPerBlock s ∧ p = chunk_pointer s b i ∧
              L !! p = Some c.
Proof.
  intros Hg Hdisj. induction bs as [|b bs IH]; intros Hnd Hall.
  - simpl. split; [constructor|]. split; [lia|]. intros p. split.
    + by intros ?%elem_of_nil.
    + intros (b & i & ?%elem_of_nil & _). done.
  - apply NoDup_cons in Hnd as [Hb Hnd].
    destruct IH as (IH1 & IH2 & IH3); [done | intros; apply Hall; by right |].
    destruct (Hall b) as [k Hk]; [left|].
    rewrite fmap_cons. cbn [concat]. split; [|split].
    + apply NoDup_app. split; [by apply held_in_NoDup|]. split; [|done].
      intros p (i & Hi & -> & _)%(held_in_elem _ _ _ _ _ _ _ Hk).
      intros (b' & j & Hb' & Hj & Heq & _)%IH3.
      destruct (Hall b') as [k' Hk']; [by right|].
      destruct Hk as (B & l & _ & _ & _ & Hreg & _).
      destruct Hk' as (B' & l' & _ & _ & _ & Hreg' & _).
      assert (b ≠ b') by (intros ->; done).
      destruct (chunks_apart s b i s b' j Hg Hg Hi Hj) as [Hne _]; [|done].
      by eapply Hdisj.
    + rewrite length_app, Nat2Z.inj_add, IH2, (held_in_length _ _ _ _ _ _ Hg Hk).
      destruct Hk as (B & l & HB & Hnf & _). simpl. rewrite HB. simpl. lia.
    + intros p. rewrite elem_of_app, IH3, (held_in_elem _ _ _ _ _ _ _ Hk). split.
      * intros [(i & ? & ? & ?)|(b' & i & ? & ?)].
        -- exists b, i. split; [left | done].
        -- exists b', i. split; [by right | done].
      * intros (b' & i & [->|Hin]%elem_of_cons & ?); [left; by exists i | right; by exists b', i].
Qed.

Lemma held_chunks_free st L c s :
  state_inv (st, L) → contexts st !! c = Some s →
  free_in st (concat (freelist s))
    = Z.of_nat (length (concat (freelist s))) * chunksPerBlock s - held_chunks c L.
Proof.
  intros Hinv Hctx. pose proof Hinv as [Hall (Hdisj & _ & Hlive)]. simpl in *.
  destruct (Hall _ _ Hctx) as ((Hg & _ & Hbl & Hnd & _) & _).
  destruct (held_all st L c s (concat (freelist s)) Hg Hdisj Hnd) as (H1 & H2 & H3).
  { intros b [k Hk]%elem_of_concat_bucket. eauto. }
  enough (held_chunks c L = Z.of_nat (length (concat (held_in L c s <$> concat (freelist s)))))
    by lia.
  unfold held_chunks. f_equal.
  rewrite <- length_map_to_list, <- (length_fmap fst).
  apply Permutation_length, NoDup_Permutation; [apply NoDup_fst_map_to_list | done |].
  intros p. rewrite H3, list_elem_of_fmap. split.
  - intros ([p' c'] & -> & [Hp Hc]%elem_of_map_to_list%map_lookup_filter_Some).
    simpl in *. subst c'.
    destruct (Hlive _ _ Hp) as (s0 & b & i & Hs0 & Hb & Hi & ->).
    rewrite Hctx in Hs0. inversion Hs0; subst s0. by exists b, i.
  - intros (b & i & _ & _ & _ & Hp). exists (p, c). split; [done|].
    apply elem_of_map_to_list, map_lookup_filter_Some. done.
Qed.

Lemma to_size_sub a b : to_size (to_size a - to_size b) = to_size (a - b).
Proof. unfold to_size. by rewrite <- Zminus_mod. Qed.

(** X12. SlabStats in a reachable state completes and changes nothing.  With
    N the number of blocks of the context and F the number of its chunks
    that no caller holds (N * chunksPerBlock minus the chunks held), it
    reports, in the arithmetic of Size, N blocks, headerSize + N * blockSize
    bytes in total, F free chunks and F * fullChunkSize free bytes; the line
    it prints carries these numbers and total - free as the bytes used, and
    the accumulator passed grows by them. *)
Theorem X12_stats st L c s printfunc totals :
  reachable (st, L) → contexts st !! c = Some s →
  0 ≤ free_chunks c s L ∧
  SlabStats c printfunc totals st
    = Done (if printfunc
            then Some (mk_stats_string
                         (to_size (headerSize s + linked_blocks s * blockSize s))
                         (to_size (linked_blocks s))
                         (to_size (fullChunkSize s * free_chunks c s L))
                         (to_size (free_chunks c s L))
                         (to_size (headerSize s + linked_blocks s * blockSize s
                                   - fullChunkSize s * free_chunks c s L)))
            else None,
            (λ t, mkMemoryContextCounters
                    (to_size (counters_nblocks t + linked_blocks s))
                    (to_size (counters_freechunks t + free_chunks c s L))
                    (to_size (counters_totalspace t
                              + (headerSize s + linked_blocks s * blockSize s)))
                    (to_size (counters_freespace t
                              + fullChunkSize s * free_chunks c s L))) <$> totals)
           st.
Proof.
  intros Hr Hctx. pose proof (reachable_inv _ Hr) as Hinv.
  pose proof (reachable_geometry _ _ _ _ Hr Hctx) as (_ & _ & _ & _ & Hcpb & Hhs & Hlen).
  pose proof Hinv as [Hall _]. simpl in Hall.
  destruct (Hall _ _ Hctx) as ((Hg & _ & Hbl & _) & _).
  assert (HF : free_chunks c s L = free_in st (concat (freelist s))).
  { unfold free_chunks, linked_blocks. by rewrite (held_chunks_free st L c s Hinv Hctx). }
  assert (Hblocks : ∀ b, b ∈ concat (freelist s) → ∃ B, blocks st !! b = Some B ∧ 0 ≤ nfree B).
  { intros b [k Hk]%elem_of_concat_bucket.
    destruct (Hbl _ _ Hk) as (B & l & HB & Hnf & _). exists B. split; [done | lia]. }
  split.
  { rewrite HF. clear HF. induction (concat (freelist s)) as [|b l IH]; simpl; [done|].
    destruct (Hblocks b) as (B & -> & ?); [left|]. simpl.
    assert (0 ≤ free_in st l); [|lia]. apply IH. intros; apply Hblocks. by right. }
  unfold SlabStats. rewrite Hctx. change 0 with (Z.of_nat 0) at 1.
  rewrite SlabStats_freelists_spec.
  - rewrite drop_0, take_ge by lia. fold (linked_blocks s). rewrite <- HF.
    unfold stats_add. simpl. rewrite !Z.add_0_l.
    f_equal. f_equal.
    + destruct printfunc; [|done]. by rewrite to_size_sub.
    + destruct totals as [t|]; [|done]. simpl. by rewrite !to_size_idemp_add_r.
  - repeat split; try done. rewrite Hhs. apply to_size_range. rewrite Hhs. apply to_size_range.
  - intros b (B & HB & _)%Hblocks. eauto.
  - lia.
Qed.

Lemma SlabCheck_chunks_ok st L c s b l sok n : ∀ j,
  (∀ i, 0 ≤ i < chunksPerBlock s →
     if decide (i ∈ l) then L !! chunk_pointer s b i = None
     else L !! chunk_pointer s b i = Some c ∧
          chunkhdrs st !! SlabBlockGetChunk s b i
            = Some (mkMemoryChunk b (MAXALIGN (chunkSize s)) MCTX_SLAB_ID)) →
  0 ≤ j → j + Z.of_nat n ≤ chunksPerBlock s →
  ∃ ws, SlabCheck_chunks n j s b l sok st = Some ws ∧ Forall (sentinel_warning L c sok) ws.
Proof.
  intros j Hi. revert j. induction n as [|n IH]; intros j Hj Hn.
  - exists []. split; [done | constructor].
  - destruct (IH (j + 1)) as (ws & Hws & Hall); [lia | lia |].
    cbn [SlabCheck_chunks]. specialize (Hi j ltac:(lia)).
    case_decide as Hin; [eauto|].
    destruct Hi as [Hheld Hhdr]. unfold MemoryChunkGetBlock. rewrite Hhdr. simpl.
    rewrite Hws. eexists. split; [done|].
    rewrite decide_False by (intros Hne; by apply Hne). simpl.
    case_decide; [|done]. destruct (sok _) eqn:Hsok; [done|].
    constructor; [|done]. eexists _, _. split; [done|]. split; [done|]. exact Hheld.
Qed.

Lemma SlabCheck_block_ok st L c s b k sok fuel :
  geometry_ok s → block_inv st L c s b k → (Z.to_nat (chunksPerBlock s) ≤ fuel)%nat →
  ∃ ws, SlabCheck_block fuel c s k b sok st = Some ws ∧
        Forall (sentinel_warning L c sok) ws.
Proof.
  intros Hg Hb Hfuel. pose proof Hb as (B & l & HB & Hnf & Hsl & _ & Hch & Hnd & Hlen & Hi).
  pose proof (chain_range _ _ _ _ _ Hch) as Hrange.
  destruct Hg as (Hcpb & _).
  assert (Hk : 0 ≤ k ≤ chunksPerBlock s).
  { split; [lia|]. rewrite <- Hlen.
    pose proof (NoDup_range_length l (chunksPerBlock s) Hnd Hrange). lia. }
  unfold SlabCheck_block. rewrite HB.
  rewrite (chain_walk _ _ _ _ l fuel Hch) by lia.
  destruct (SlabCheck_chunks_ok st L c s b l sok (Z.to_nat (chunksPerBlock s)) 0 Hi)
    as (ws & -> & Hws); [lia | lia |].
  eexists. split; [done|].
  rewrite decide_False by (intros Hne; by apply Hne).
  rewrite decide_False by (intros Hne; by apply Hne).
  rewrite decide_False; [by rewrite app_nil_r|].
  intros Hne. apply Hne. rewrite Hlen, Hnf. apply to_int_id.
  unfold INT_MIN, INT_MAX in *. lia.
Qed.

Lemma SlabCheck_blocks_ok st L c s k sok fuel nodes :
  geometry_ok s → (∀ b, b ∈ nodes → block_inv st L c s b k) →
  (Z.to_nat (chunksPerBlock s) ≤ fuel)%nat →
  ∃ ws, SlabCheck_blocks fuel c s k nodes sok st = Some ws ∧
        Forall (sentinel_warning L c sok) ws.
Proof.
  intros Hg Hall Hfuel. induction nodes as [|b rest IH].
  - exists []. split; [done | constructor].
  - destruct IH as (ws' & Hws' & Hall'); [intros; apply Hall; by right|].
    destruct (SlabCheck_block_ok st L c s b k sok fuel Hg) as (ws & Hws & Hall1);
      [apply Hall; left | done |].
    cbn [SlabCheck_blocks]. rewrite Hws, Hws'. eexists. split; [done|].
    by apply Forall_app.
Qed.

Lemma SlabCheck_freelists_ok st L c s sok fuel n : ∀ i : nat,
  ctx_core st L c s → (Z.to_nat (chunksPerBlock s) ≤ fuel)%nat →
  (i + n ≤ length (freelist s))%nat →
  ∃ ws, SlabCheck_freelists fuel n c s (Z.of_nat i) sok st = Some ws ∧
        Forall (sentinel_warning L c sok) ws.
Proof.
  intros i Hcore Hfuel. revert i. induction n as [|n IH]; intros i Hn.
  - exists []. split; [done | constructor].
  - destruct (IH (S i)) as (ws' & Hws' & Hall'); [lia|].
    cbn [SlabCheck_freelists]. rewrite bucket_of_nat.
    destruct (freelist s !! i) as [nodes|] eqn:Hnodes;
      [|apply lookup_ge_None in Hnodes; lia].
    destruct Hcore as (Hg & _ & Hbl & _).
    destruct (SlabCheck_blocks_ok st L c s (Z.of_nat i) sok fuel nodes Hg) as (ws & Hws & Hall);
      [intros b Hb; apply Hbl; by exists nodes | done |].
    rewrite Hws. replace (Z.of_nat i + 1) with (Z.of_nat (S i)) by lia. rewrite Hws'.
    eexists. split; [done|]. by apply Forall_app.
Qed.

(** X13. Run on a context of a reachable state, with enough fuel for the
    free list of a block, SlabCheck completes, changes nothing and finds the
    structure sound: no block in the wrong list, no bogus slab or block
    link, no free count that differs from the free list.  The only warnings
    it can give come from the sentinel test on a chunk a caller holds, and
    it gives none when that test succeeds for every chunk. *)
Theorem X13_check_finds_nothing st L c s fuel sentinel_ok :
  reachable (st, L) → contexts st !! c = Some s →
  (Z.to_nat (chunksPerBlock s) ≤ fuel)%nat →
  ∃ ws, SlabCheck fuel sentinel_ok c st = Done ws st ∧
        Forall (sentinel_warning L c sentinel_ok) ws ∧
        ((∀ chunk, sentinel_ok chunk = true) → ws = []).
Proof.
  intros Hinv%reachable_inv Hctx Hfuel. pose proof Hinv as [Hall _]. simpl in Hall.
  destruct (Hall _ _ Hctx) as (Hcore & _). pose proof Hcore as ((_ & _ & _ & _ & Hlen) & _).
  destruct (SlabCheck_freelists_ok st L c s sentinel_ok fuel
              (Z.to_nat (chunksPerBlock s + 1)) 0%nat Hcore Hfuel) as (ws & Hws & Hforall);
    [lia|].
  change (Z.of_nat 0) with 0 in Hws. unfold SlabCheck. rewrite Hctx, Hws. exists ws.
  split; [done|]. split; [done|]. intros Hok.
  destruct ws as [|w ws]; [done|]. apply Forall_cons in Hforall as [(b & ch & _ & Hf & _) _].
  rewrite Hok in Hf. done.
Qed.

Lemma dlist_delete_push x fl k fl' :
  dlist_push_head fl k x = Some fl' → x ∉ concat fl → dlist_delete x fl' = fl.
Proof.
  intros (l & [Hk Hl]%bucket_Some & ->)%dlist_push_head_Some Hx.
  apply list_eq. intros j. rewrite dlist_delete_lookup.
  assert (Hnot : ∀ j l', fl !! j = Some l' → x ∉ l').
  { intros j' l' Hl' Hin. apply Hx, elem_of_concat_bucket. by exists j', l'. }
  destruct (decide (j = Z.to_nat k)) as [->|Hne].
  - rewrite list_lookup_insert_eq by (by apply lookup_lt_Some in Hl). simpl.
    rewrite filter_cons, decide_False by (intros Hn; by apply Hn).
    rewrite Hl. f_equal. apply filter_ne_notin. by eapply Hnot.
  - rewrite list_lookup_insert_ne by done.
    destruct (fl !! j) as [l'|] eqn:Hl'; [|done]. simpl. f_equal.
    apply filter_ne_notin. by eapply Hnot.
Qed.

Lemma dlist_delete_not_in x fl : x ∉ concat (dlist_delete x fl).
Proof. rewrite dlist_delete_concat. intros [Hne _]%list_elem_of_filter. by apply Hne. Qed.

(** Unlinking the head of list [k] and pushing it back onto list [k] gives
    the lists as they were. *)
Lemma dlist_push_back st L c s k b l fl2 :
  ctx_core st L c s → bucket (freelist s) k = Some (b :: l) →
  dlist_push_head (dlist_delete b (freelist s)) k b = Some fl2 → fl2 = freelist s.
Proof.
  intros Hcore Hbk (l0 & Hl0 & ->)%dlist_push_head_Some.
  pose proof Hcore as (_ & _ & _ & Hnd & _).
  pose proof (bucket_head_in _ _ _ _ Hbk) as Hin.
  rewrite dlist_delete_bucket, Hbk in Hl0. simpl in Hl0.
  rewrite filter_cons, decide_False in Hl0 by (intros Hn; by apply Hn).
  apply bucket_Some in Hbk as [Hk Hbk].
  pose proof (NoDup_concat_lookup _ _ _ Hnd Hbk) as [Hbl _]%NoDup_cons.
  rewrite filter_ne_notin in Hl0 by done. inversion Hl0; subst l0.
  apply list_eq. intros j. destruct (decide (j = Z.to_nat k)) as [->|Hne].
  - rewrite list_lookup_insert_eq; [done|].
    rewrite dlist_delete_length. by apply lookup_lt_Some in Hbk.
  - rewrite list_lookup_insert_ne by done. rewrite dlist_delete_lookup.
    destruct (freelist s !! j) as [l'|] eqn:Hl'; [|done]. simpl. f_equal.
    apply filter_ne_notin. intros Hb'. apply Hne.
    symmetry. eapply (in_bucket_unique _ _ _ _ _ _ _ Hcore Hin). by exists l'.
Qed.

Lemma SlabAlloc_new_block_eq c s a st1 s1 st2 :
  SlabAlloc_new_block c s a st1 = Some (s1, st2) →
  ∃ fl1, dlist_push_head (freelist s) (chunksPerBlock s) a = Some fl1 ∧
    s1 = set_mem_allocated (to_size (mem_allocated s + blockSize s))
           (set_nblocks (to_int (nblocks s + 1))
              (set_minFreeChunks (chunksPerBlock s) (set_freelist fl1 s))) ∧
    blocks st2 = <[a := mkSlabBlock (chunksPerBlock s) 0 c]> (blocks st1) ∧
    regions st2 = regions st1.
Proof.
  unfold SlabAlloc_new_block.
  destruct (dlist_push_head _ _ _) as [fl1|]; [|done]. intros [= <- <-]. by exists fl1.
Qed.

(** X14. SlabFree of the chunk a SlabAlloc has just returned undoes the
    call: the lists of the context, nblocks and mem_allocated are as before
    the SlabAlloc, and so are the block headers and the regions held from
    malloc (a block obtained for the chunk is given back); the state is
    reachable with the chunks held before.  Only minFreeChunks may differ. *)
Theorem X14_alloc_free_roundtrip st L c s m size p st1 :
  reachable (st, L) → contexts st !! c = Some s → malloc_valid st m (blockSize s) →
  SlabAlloc m c size st = Done (Some p) st1 →
  ∃ st2 mfc, SlabFree p st1 = Done () st2 ∧ reachable (st2, L) ∧
    contexts st2 = <[c := set_minFreeChunks mfc s]> (contexts st) ∧
    blocks st2 = blocks st ∧ regions st2 = regions st.
Proof.
  intros Hr Hctx Hm Hd. pose proof (reachable_inv _ Hr) as Hinv.
  assert (Hr1 : reachable (st1, <[p := c]> L)).
  { eapply rtc_r; [exact Hr|]. by eapply step_alloc. }
  assert (Hback : L !! p = None → ∀ st2, SlabFree p st1 = Done () st2 → reachable (st2, L)).
  { intros Hfresh st2 Hf. replace L with (delete p (<[p := c]> L)).
    - eapply rtc_r; [exact Hr1|]. eapply step_free; [apply lookup_insert_eq | done].
    - rewrite delete_insert_eq. by apply delete_id. }
  clear Hr1.
  destruct (SlabAlloc_Done_size _ _ _ _ _ _ Hd) as (s0 & Hs0 & ->).
  rewrite Hctx in Hs0. inversion Hs0; subst s0. clear Hs0.
  unfold SlabAlloc in Hd. rewrite Hctx in Hd.
  rewrite decide_False in Hd by (intros Hn; by apply Hn).
  pose proof Hinv as [Hall _]. simpl in Hall.
  pose proof (Hall _ _ Hctx) as (Hcore & Hlast & _).
  pose proof Hcore as (Hg & _ & Hbl & Hnd & Hnb & Hmem).
  destruct (decide (minFreeChunks s = 0)) as [H0|H0].
  - destruct m as [a|]; simpl in Hd; [|done].
    destruct (new_block_pre st L c s a Hinv Hctx Hm)
      as (s1 & st2 & Hnew & Hpre & Hmin1 & Hsg1 & Hbk1 & HB1 & Hw1 & Hc2).
    simpl in Hnew. rewrite Hnew in Hd.
    destruct (SlabAlloc_new_block_eq _ _ _ _ _ _ Hnew) as (fl1 & Hpush1 & Hs1 & Hb2 & Hr2).
    simpl in Hb2, Hr2.
    destruct (SlabAlloc_take_ok _ _ _ _ Hpre)
      as (b & l & B & next & fl' & mfc & Hbk & HB & Hnf & Hw & Hpush & _ & Heq & Hinv1).
    pose proof (take_pre_fresh _ _ _ _ _ _ _ Hpre Hbk HB) as Hfresh.
    rewrite SlabAlloc_take_contexts, Hd in Heq. inversion Heq; subst p st1. clear Heq.
    rewrite Hmin1, Hbk1 in Hbk. inversion Hbk; subst b l. clear Hbk.
    simpl in HB. rewrite HB1 in HB. inversion HB; subst B. clear HB.
    destruct (SlabFree_ok _ _ _ _ Hinv1 (lookup_insert_eq _ _ _))
      as (s' & b' & i' & B' & mfc' & Hs' & Hi' & Hpe & HB' & Hsl' & Hn' & Hblk & Hcase).
    unfold take_state in Hs', HB', Hblk.
    simpl in Hs', HB', Hblk. rewrite lookup_insert_eq in Hs'. inversion Hs'; subst s'.
    unfold MemoryChunkGetBlock in Hblk.
    rewrite PointerGetMemoryChunk_pointer in Hblk. simpl in Hblk.
    rewrite lookup_insert_eq in Hblk. simpl in Hblk.
    inversion Hblk; subst b'. clear Hblk.
    rewrite lookup_insert_eq in HB'. inversion HB'; subst B'. clear HB'.
    simpl in *.
    assert (Hcpb1 : chunksPerBlock s1 = chunksPerBlock s) by (by rewrite Hs1).
    rewrite decide_True in Hcase by lia. destruct Hcase as [Hfree _].
    eexists _, _. split; [exact Hfree|]. split; [by apply Hback|].
    unfold free_state_reclaim, free_pushed, take_state. simpl.
    pose proof Hm as (_ & Hanew & _).
    assert (Hab : blocks st !! a = None).
    { destruct (blocks st !! a) as [Ba|] eqn:HBa; [|done].
      destruct (state_inv_block_region _ _ _ _ Hinv HBa). congruence. }
    assert (Hac : a ∉ concat (freelist s)).
    { intros [k Hk]%elem_of_concat_bucket.
      destruct (Hbl _ _ Hk) as (Ba & ? & HBa & _). congruence. }
    assert (Hfl : dlist_delete a fl' = freelist s).
    { rewrite (dlist_delete_push _ _ _ _ Hpush (dlist_delete_not_in _ _)).
      rewrite Hs1. simpl. by eapply dlist_delete_push. }
    split; [|split].
    + rewrite !insert_insert_eq, Hc2. f_equal. instantiate (1 := mfc').
      rewrite Hfl, Hs1. simpl.
      rewrite to_size_idemp_sub, to_int_idemp_sub.
      replace (mem_allocated s + blockSize s - blockSize s) with (mem_allocated s) by lia.
      replace (nblocks s + 1 - 1) with (nblocks s) by lia.
      rewrite Hmem at 1. rewrite Hnb at 1. rewrite to_size_idemp, to_int_idemp.
      rewrite <- Hmem, <- Hnb. by destruct s.
    + rewrite !delete_insert_eq, Hb2, delete_insert_eq. by apply delete_id.
    + rewrite Hr2, delete_insert_eq. by apply delete_id.
  - pose proof (take_pre_of_inv _ _ _ _ Hinv Hctx H0) as Hpre.
    destruct (SlabAlloc_take_ok _ _ _ _ Hpre)
      as (b & l & B & next & fl' & mfc & Hbk & HB & Hnf & Hw & Hpush & _ & Heq & Hinv1).
    rewrite Hd in Heq. inversion Heq; subst p st1. clear Heq.
    destruct (Hbl _ _ (bucket_head_in _ _ _ _ Hbk)) as (B0 & lf & HB0 & Hnf0 & Hsl0 & _).
    rewrite HB in HB0. inversion HB0; subst B0. clear HB0.
    destruct (owned_block _ _ _ _ Hinv HB) as (s0 & _ & Hs0 & _ & _ & Hnlt & _).
    rewrite Hsl0, Hctx in Hs0. inversion Hs0; subst s0. clear Hs0.
    (* what SlabFree finds *)
    destruct (SlabFree_ok _ _ _ _ Hinv1 (lookup_insert_eq _ _ _))
      as (s' & b' & i' & B' & mfc' & Hs' & Hi' & Hpe & HB' & Hsl' & Hn' & Hblk & Hcase).
    unfold take_state in Hs', HB', Hblk.
    simpl in Hs', HB', Hblk. rewrite lookup_insert_eq in Hs'. inversion Hs'; subst s'.
    unfold MemoryChunkGetBlock in Hblk.
    rewrite PointerGetMemoryChunk_pointer in Hblk. simpl in Hblk.
    rewrite lookup_insert_eq in Hblk. simpl in Hblk.
    inversion Hblk; subst b'. clear Hblk.
    rewrite lookup_insert_eq in HB'. inversion HB'; subst B'. clear HB'.
    simpl in *.
    assert (i' = firstFreeChunk B).
    { symmetry. by eapply (chunk_pointer_inj s b). }
    subst i'.
    rewrite decide_False in Hcase by lia.
    destruct Hcase as (fl2 & Hpush2 & Hfree & _).
    eexists _, _. split; [exact Hfree|].
    split; [apply Hback; [by eapply take_pre_fresh | done]|].
    unfold free_state_keep, free_pushed, take_state. simpl.
    assert (Hfl2 : fl2 = freelist s).
    { rewrite (dlist_delete_push _ _ _ _ Hpush (dlist_delete_not_in _ _)) in Hpush2.
      replace (nfree B - 1 + 1) with (minFreeChunks s) in Hpush2 by lia.
      by eapply dlist_push_back. }
    split; [|split; [|done]].
    + rewrite Hsl', insert_insert_eq. f_equal. instantiate (1 := mfc').
      rewrite Hfl2. by destruct s.
    + rewrite insert_insert_eq. apply insert_id. rewrite HB. f_equal.
      destruct B; simpl. f_equal. lia.
Qed.

(** X15. A chunk a caller holds lies inside a block of its context: behind
    the block header and a chunk header, at a whole number of chunk slots
    from the first one, and its chunkSize bytes end before the block's
    region does. *)
Theorem X15_held_chunk_in_block st L p c :
  reachable (st, L) → L !! p = Some c →
  ∃ s b B i,
    contexts st !! c = Some s ∧ blocks st !! b = Some B ∧ slab B = c ∧
    regions st !! b = Some (blockSize s) ∧ 0 ≤ i < chunksPerBlock s ∧
    p = b + sizeof_SlabBlock + i * fullChunkSize s + Slab_CHUNKHDRSZ ∧
    b + sizeof_SlabBlock + Slab_CHUNKHDRSZ ≤ p ∧
    p + chunkSize s ≤ b + blockSize s.
Proof.
  intros Hr%reachable_inv Hp.
  destruct (live_chunk _ _ _ _ Hr Hp)
    as (s & b & i & B & lf & k & Hctx & Hcinv & _ & Hi & -> & HB & _ & Hsl & Hrb & _).
  exists s, b, B, i. repeat (split; [done|]).
  pose proof Hcinv as ((Hg & _) & _). pose proof Hg as (Hc1 & Hf & _ & Hfit & _).
  pose proof (geometry_fullChunkSize_pos s Hg). pose proof (MAXALIGN_ge (chunkSize s)).
  unfold chunk_pointer, MemoryChunkGetPointer, SlabBlockGetChunk.
  assert (0 ≤ i * fullChunkSize s) by nia.
  assert ((i + 1) * fullChunkSize s ≤ chunksPerBlock s * fullChunkSize s) by nia.
  lia.
Qed.

Lemma SlabAlloc_regions st L c s m size p st' :
  state_inv (st, L) → contexts st !! c = Some s → malloc_valid st m (blockSize s) →
  SlabAlloc m c size st = Done (Some p) st' →
  (∀ x, is_Some (blocks st !! x) → is_Some (blocks st' !! x)) ∧
  (∀ x n, regions st' !! x = Some n → regions st !! x = Some n ∨ is_Some (blocks st' !! x)).
Proof.
  intros Hinv Hctx Hm Hd.
  destruct (SlabAlloc_Done_size _ _ _ _ _ _ Hd) as (s0 & Hs0 & ->).
  rewrite Hctx in Hs0. inversion Hs0; subst s0. clear Hs0.
  unfold SlabAlloc in Hd. rewrite Hctx in Hd.
  rewrite decide_False in Hd by (intros Hn; by apply Hn).
  destruct (decide (minFreeChunks s = 0)) as [H0|H0].
  - destruct m as [a|]; simpl in Hd; [|done].
    destruct (new_block_pre st L c s a Hinv Hctx Hm)
      as (s1 & st2 & Hnew & Hpre & Hmin1 & Hsg1 & Hbk1 & HB1 & _ & Hc2).
    simpl in Hnew. rewrite Hnew in Hd.
    destruct (SlabAlloc_new_block_eq _ _ _ _ _ _ Hnew) as (fl1 & _ & _ & Hb2 & Hr2).
    simpl in Hb2, Hr2.
    destruct (SlabAlloc_take_ok _ _ _ _ Hpre)
      as (b & l & B & next & fl' & mfc & Hbk & HB & _ & _ & _ & _ & Heq & _).
    rewrite SlabAlloc_take_contexts, Hd in Heq. inversion Heq; subst p st'. clear Heq.
    rewrite Hmin1, Hbk1 in Hbk. inversion Hbk; subst b l.
    unfold take_state. simpl. rewrite Hb2, Hr2. split.
    + intros x Hx. destruct (decide (x = a)) as [->|Hne].
      * rewrite lookup_insert_eq. eauto.
      * by rewrite !lookup_insert_ne.
    + intros x n. destruct (decide (x = a)) as [->|Hne].
      * rewrite !lookup_insert_eq. eauto.
      * rewrite !lookup_insert_ne by done. eauto.
  - pose proof (take_pre_of_inv _ _ _ _ Hinv Hctx H0) as Hpre.
    destruct (SlabAlloc_take_ok _ _ _ _ Hpre)
      as (b & l & B & next & fl' & mfc & Hbk & HB & _ & _ & _ & _ & Heq & _).
    rewrite Hd in Heq. inversion Heq; subst p st'. clear Heq.
    unfold take_state. simpl. split; [|eauto].
    intros x Hx. destruct (decide (x = b)) as [->|Hne].
    + rewrite lookup_insert_eq. eauto.
    + by rewrite !lookup_insert_ne.
Qed.

Lemma SlabReset_tracked st L c st1 :
  state_inv (st, L) → SlabReset c st = Done () st1 →
  regions_tracked st → regions_tracked st1.
Proof.
  intros Hinv Hd Ht. destruct (SlabReset_Done_context _ _ _ Hd) as [s Hs].
  destruct (SlabReset_rel _ _ _ _ _ Hinv Hs Hd) as (D & s2 & st2 & Hrel & ->).
  destruct Hrel as (_ & _ & _ & _ & _ & _ & _ & _ & Hb & Hr & Hc & _).
  intros a n. simpl. rewrite Hr, Hb, Hc. case_decide; [done|].
  intros [Ha|Ha]%Ht; [left | by right].
  destruct (decide (a = c)) as [->|Hne]; [rewrite lookup_insert_eq; eauto|].
  by rewrite lookup_insert_ne.
Qed.

Lemma step_tracked st L st' L' :
  state_inv (st, L) → step (st, L) (st', L') → regions_tracked st → regions_tracked st'.
Proof.
  intros Hinv Hstep Ht. inversion Hstep; subst.
  - match goal with Hd : SlabContextCreate _ _ _ _ = _ |- _ =>
      destruct (SlabContextCreate_built _ _ _ _ _ _ ltac:(eassumption) Hd)
        as (s1 & _ & Hc & Hr & Hb & _) end.
    intros a n. rewrite Hc, Hr, Hb. destruct (decide (a = c)) as [->|Hne].
    + rewrite !lookup_insert_eq. eauto.
    + rewrite !lookup_insert_ne by done. apply Ht.
  - match goal with Hd : SlabAlloc _ _ _ _ = _ |- _ =>
      destruct (SlabAlloc_contexts _ _ _ _ _ _ _ _ Hinv ltac:(eassumption) ltac:(eassumption) Hd)
        as (s1 & Hc & _);
      destruct (SlabAlloc_regions _ _ _ _ _ _ _ _ Hinv ltac:(eassumption) ltac:(eassumption) Hd)
        as (Hb & Hr) end.
    intros a n [Ha|Ha]%Hr; [|by right].
    destruct (Ht _ _ Ha) as [Hx|Hx]; [left | right; by apply Hb].
    rewrite Hc. destruct (decide (a = c)) as [->|Hne]; [rewrite lookup_insert_eq; eauto|].
    by rewrite lookup_insert_ne.
  - match goal with Hd : SlabFree _ _ = _, Hp : L !! _ = Some _ |- _ =>
      destruct (SlabFree_ok st L _ _ Hinv Hp)
        as (s & b & i & B & mfc & Hctx & Hi & Hpe & HB & Hsl & Hn & Hblk & Hcase);
      rename Hd into Hfree end.
    assert (Hins : ∀ a (x : SlabContext), is_Some (contexts st !! a) →
              is_Some (<[slab B := x]> (contexts st) !! a)).
    { intros a x Ha. destruct (decide (a = slab B)) as [->|Hne];
        [rewrite lookup_insert_eq; eauto | by rewrite lookup_insert_ne]. }
    case_decide.
    + destruct Hcase as [Heq _]. rewrite Hfree in Heq. inversion Heq; subst st'.
      intros a n. unfold free_state_reclaim, free_pushed. simpl.
      destruct (decide (a = b)) as [->|Hne]; [by rewrite lookup_delete_eq|].
      rewrite !lookup_delete_ne by congruence.
      rewrite (lookup_insert_ne (blocks st)) by congruence.
      intros [Ha|Ha]%Ht; [left; by apply Hins | by right].
    + destruct Hcase as (fl2 & _ & Heq & _). rewrite Hfree in Heq. inversion Heq; subst st'.
      intros a n. unfold free_state_keep, free_pushed. simpl.
      intros [Ha|Ha]%Ht; [left; by apply Hins | right].
      destruct (decide (a = b)) as [->|Hne]; [rewrite lookup_insert_eq; eauto|].
      by rewrite lookup_insert_ne.
  - by eapply SlabReset_tracked.
  - match goal with Hd : SlabDelete _ _ = _ |- _ =>
      destruct (SlabDelete_Done _ _ _ Hd) as (st1 & Hr & ->) end.
    pose proof (SlabReset_tracked _ _ _ _ Hinv Hr Ht) as Ht1.
    intros a n. simpl. destruct (decide (a = c)) as [->|Hne]; [by rewrite lookup_delete_eq|].
    rewrite !lookup_delete_ne by congruence. apply Ht1.
  - intros a n. simpl. apply Ht.
Qed.

Lemma reachable_tracked st L : reachable (st, L) → regions_tracked st.
Proof.
  intros Hr.
  change (regions_tracked (st, L).1).
  eapply (rtc_ind_r (λ cfg, reachable cfg → regions_tracked cfg.1)); [ | | exact Hr | exact Hr].
  - intros _ a n. simpl. by rewrite lookup_empty.
  - intros [st1 L1] [st2 L2] Hr1 Hstep IH _.
    assert (Hreach : reachable (st1, L1)) by exact Hr1.
    eapply step_tracked; [by apply reachable_inv | done | by apply IH].
Qed.

(** X16. Nothing leaks: in every reachable state the regions obtained from
    malloc and not yet freed are exactly the headers of the contexts, of
    headerSize bytes each, and the blocks linked into their lists, of
    blockSize bytes each; so once every context is deleted, every region is
    back with the system allocator. *)
Theorem X16_no_leak st L :
  reachable (st, L) →
  (∀ a n, regions st !! a = Some n ↔
     (∃ s, contexts st !! a = Some s ∧ n = headerSize s) ∨
     (∃ B s, blocks st !! a = Some B ∧ contexts st !! slab B = Some s ∧
             a ∈ concat (freelist s) ∧ n = blockSize s)) ∧
  (contexts st = ∅ → regions st = ∅ ∧ blocks st = ∅).
Proof.
  intros Hr. pose proof (reachable_inv _ Hr) as Hinv.
  pose proof (reachable_tracked _ _ Hr) as Ht.
  pose proof Hinv as [Hall (_ & Hown & _)]. simpl in Hall, Hown.
  assert (Hblock : ∀ a B, blocks st !! a = Some B →
            ∃ s, contexts st !! slab B = Some s ∧ a ∈ concat (freelist s) ∧
                 regions st !! a = Some (blockSize s)).
  { intros a B HB. destruct (Hown _ _ HB) as (_ & s & Hs & Hin).
    exists s. split; [done|]. split; [done|].
    apply elem_of_concat_bucket in Hin as [k Hk].
    destruct (Hall _ _ Hs) as ((_ & _ & Hbl & _) & _).
    by destruct (Hbl _ _ Hk) as (? & ? & _ & _ & _ & ? & _). }
  assert (Hiff : ∀ a n, regions st !! a = Some n ↔
     (∃ s, contexts st !! a = Some s ∧ n = headerSize s) ∨
     (∃ B s, blocks st !! a = Some B ∧ contexts st !! slab B = Some s ∧
             a ∈ concat (freelist s) ∧ n = blockSize s)).
  { intros a n. split.
    - intros Ha. destruct (Ht _ _ Ha) as [[s Hs]|[B HB]].
      + left. exists s. split; [done|].
        destruct (Hall _ _ Hs) as ((_ & Hreg & _) & _). simpl in Hreg. congruence.
      + right. destruct (Hblock _ _ HB) as (s & Hs & Hin & Hreg).
        exists B, s. repeat (split; [done|]). congruence.
    - intros [(s & Hs & ->)|(B & s & HB & Hs & _ & ->)].
      + by destruct (Hall _ _ Hs) as ((_ & Hreg & _) & _).
      + destruct (Hblock _ _ HB) as (s' & Hs' & _ & Hreg). congruence. }
  split; [done|]. intros Hempty.
  assert (Hb : blocks st = ∅).
  { apply map_empty. intros a. destruct (blocks st !! a) as [B|] eqn:HB; [|done].
    destruct (Hblock _ _ HB) as (s & Hs & _). by rewrite Hempty, lookup_empty in Hs. }
  split; [|done]. apply map_empty. intros a.
  destruct (regions st !! a) as [n|] eqn:Hn; [|done].
  apply Hiff in Hn as [(s & Hs & _)|(B & s & HB & _)].
  - by rewrite Hempty, lookup_empty in Hs.
  - by rewrite Hb, lookup_empty in HB.
Qed.

(** X17. The address macros invert each other: SlabChunkIndex gives back
    the index SlabBlockGetChunk was called with, for the chunk header and
    for every address inside the chunk's slot (SlabFree relies on it for the
    header), and SlabPointerGetChunk undoes SlabChunkGetPointer. *)
Theorem X17_chunk_index_roundtrip s b i off :
  0 < fullChunkSize s → 0 ≤ i → 0 ≤ off < fullChunkSize s →
  SlabChunkIndex s b (SlabBlockGetChunk s b i + off) = i ∧
  SlabBlockGetChunk s b (SlabChunkIndex s b (SlabBlockGetChunk s b i + off))
    = SlabBlockGetChunk s b i ∧
  SlabPointerGetChunk (SlabChunkGetPointer (SlabBlockGetChunk s b i))
    = SlabBlockGetChunk s b i.
Proof.
  intros Hf Hi Hoff.
  assert (E : SlabChunkIndex s b (SlabBlockGetChunk s b i + off) = i).
  { unfold SlabChunkIndex, SlabBlockStart, SlabBlockGetChunk.
    replace (b + sizeof_SlabBlock + i * fullChunkSize s + off - (b + sizeof_SlabBlock))
      with (off + i * fullChunkSize s) by lia.
    rewrite Z.div_add by lia. rewrite Z.div_small by lia. lia. }
  split; [done|]. split; [by rewrite E|].
  unfold SlabPointerGetChunk, SlabChunkGetPointer. lia.
Qed.

Lemma TYPEALIGN_mod a x : 0 < a → TYPEALIGN a x mod a = 0.
Proof. intros Ha. unfold TYPEALIGN. apply Z.mod_mul. lia. Qed.

(** X18. Chunks are aligned within their block: in every reachable state
    the size of a chunk slot is a multiple of MAXIMUM_ALIGNOF, and so is the
    distance from the end of the block header to any chunk a caller holds;
    a block whose first chunk is aligned has all its chunks aligned. *)
Theorem X18_chunks_aligned st L :
  reachable (st, L) →
  (∀ c s, contexts st !! c = Some s → fullChunkSize s mod MAXIMUM_ALIGNOF = 0) ∧
  (∀ p c, L !! p = Some c →
     ∃ b, MemoryChunkGetBlock (PointerGetMemoryChunk p) st = Some b ∧
          (p - SlabChunkGetPointer (SlabBlockStart b)) mod MAXIMUM_ALIGNOF = 0).
Proof.
  intros Hr%reachable_inv. pose proof MAXIMUM_ALIGNOF_pos as Ha.
  assert (Hfull : ∀ s, geometry_ok s → fullChunkSize s mod MAXIMUM_ALIGNOF = 0).
  { intros s (_ & -> & _). rewrite Slab_CHUNKHDRSZ_aligned. unfold MAXALIGN.
    rewrite Z.add_mod, !TYPEALIGN_mod by lia. done. }
  split.
  - intros c s Hs. destruct Hr as [Hall _]. apply Hfull.
    by destruct (Hall _ _ Hs) as ((? & _) & _).
  - intros p c Hp.
    destruct (live_chunk _ _ _ _ Hr Hp)
      as (s & b & i & B & lf & k & Hctx & Hcinv & _ & Hi & -> & HB & _ & Hsl & Hrb & _ & _ & _
          & _ & Hhdr & _).
    exists b. unfold MemoryChunkGetBlock. rewrite PointerGetMemoryChunk_pointer, Hhdr.
    split; [done|].
    unfold chunk_pointer, MemoryChunkGetPointer, SlabBlockGetChunk, SlabChunkGetPointer,
      SlabBlockStart.
    replace (b + sizeof_SlabBlock + i * fullChunkSize s + Slab_CHUNKHDRSZ
             - (b + sizeof_SlabBlock + Slab_CHUNKHDRSZ)) with (i * fullChunkSize s) by lia.
    destruct Hcinv as ((Hg & _) & _).
    rewrite Z.mul_mod, (Hfull s Hg), Z.mul_0_r by lia. done.
Qed.

End MoreProofs.

(** ** The concrete history: reachability, and the claims on it *)
Section ScenarioProofs.
#[local] Existing Instance lp64.

Lemma reachable_step cfg cfg' : reachable cfg → step cfg cfg' → reachable cfg'.
Proof. intros Hr Hs. by eapply rtc_r. Qed.

Lemma ex_created_reachable : reachable (ex_created, ∅).
Proof.
  eapply reachable_step; [apply rtc_refl|].
  eapply (step_create (Some 1000) 128 16 empty_State ∅ 1000).
  - repeat split; vm_compute; congruence.
  - reflexivity.
  - reflexivity.
  - split; [done|]. split; [done|]. apply map_Forall_empty.
Qed.

Lemma malloc_fresh_decide st a n :
  bool_decide (0 < a ∧ regions st !! a = None ∧
     map_Forall (λ a' size', a + n ≤ a' ∨ a' + size' ≤ a) (regions st)) = true →
  malloc_fresh st a n.
Proof. intros Hb. by apply bool_decide_eq_true in Hb. Qed.

Lemma ex_malloc_ok_valid m st n : ex_malloc_ok m st n = true → malloc_valid st m n.
Proof. destruct m as [a|]; [apply malloc_fresh_decide | done]. Qed.

Lemma ex_allocs_reachable ms : ∀ cfg,
  reachable cfg → ex_allocs_ok ms cfg = true → reachable (ex_allocs ms cfg).
Proof.
  induction ms as [|m ms IH]; intros [st L] Hr Hok; [done|].
  simpl in *. destruct (contexts st !! 1000) as [s|] eqn:Hs; [|done].
  apply andb_prop in Hok as [Hm Hok]. apply ex_malloc_ok_valid in Hm.
  destruct (SlabAlloc m 1000 16 st) as [[p|] st'| |] eqn:Heq; try done.
  apply IH; [|done]. eapply reachable_step; [done|]. by eapply step_alloc.
Qed.

Lemma ex_free_reachable p c cfg :
  reachable cfg → cfg.2 !! p = Some c → reachable (ex_free p cfg).
Proof.
  destruct cfg as [st L]. intros Hr Hp. unfold ex_free. simpl in *.
  destruct (SlabFree p st) as [[] st'| |] eqn:Heq; try done.
  eapply reachable_step; [done|]. by eapply step_free.
Qed.

Lemma ex_one_reachable : reachable ex_one.
Proof. apply ex_allocs_reachable; [apply ex_created_reachable | by vm_compute]. Qed.

Lemma ex_four_reachable : reachable ex_four.
Proof. apply ex_allocs_reachable; [apply ex_one_reachable | by vm_compute]. Qed.

Lemma ex_eight_reachable : reachable ex_eight.
Proof. apply ex_allocs_reachable; [apply ex_four_reachable | by vm_compute]. Qed.

Lemma ex_freed_reachable : reachable ex_freed.
Proof. eapply ex_free_reachable; [apply ex_eight_reachable | by vm_compute]. Qed.

(** C1. minFreeChunks is not always the smallest non-zero index of a list
    that is not empty: with two full blocks, SlabFree of a chunk of one of
    them leaves minFreeChunks at 0 although list 1 now holds that block.
    The other full block keeps list 0 from being empty, so SlabFree skips
    its update of minFreeChunks.  The state is reachable. *)
Theorem C1_minFreeChunks_stale :
  ∃ s, reachable ex_freed ∧ contexts ex_freed.1 !! 1000 = Some s ∧
       chunksPerBlock s = 4 ∧ minFreeChunks s = 0 ∧
       freelist s = [[3000]; [2000]; []; []; []] ∧
       ¬ minFreeChunks_exact s.
Proof.
  exists ex_context_freed. split; [apply ex_freed_reachable|].
  split; [by vm_compute|]. repeat (split; [done|]).
  intros [[_ Hall]|[Hm _]]; [|simpl in Hm; lia].
  assert (Hone : bucket (freelist ex_context_freed) 1 = Some []) by (apply Hall; simpl; lia).
  discriminate Hone.
Qed.

Lemma ex_eight_reachable' : reachable (ex_eight.1, ex_eight.2).
Proof. rewrite <- surjective_pairing. apply ex_eight_reachable. Qed.

Lemma ex_freed_reachable' : reachable (ex_freed.1, ex_freed.2).
Proof. rewrite <- surjective_pairing. apply ex_freed_reachable. Qed.

Lemma C2_witness :
  (∀ k, in_bucket (freelist ex_context_freed) k 2000 ↔ Z.of_nat k = 1) ∧
  2000 ∈ concat (freelist ex_context_freed) ∧ NoDup (concat (freelist ex_context_freed)).
Proof.
  apply (C2_bucket_consistency ex_freed.1 ex_freed.2 1000 ex_context_freed 2000
           (mkSlabBlock 1 0 1000));
    [apply ex_freed_reachable' | by vm_compute | by vm_compute | reflexivity].
Defined.

Lemma C3_witness :
  ∃ l, SlabCheck_walk 1 ex_context_freed 2000 0 (words ex_freed.1) = Some (l, 4) ∧
       Z.of_nat (length l) = 1 ∧ NoDup l ∧ Forall (λ i, 0 ≤ i < 4) l ∧ (0 = 4 ↔ 1 = 0).
Proof.
  apply (C3_free_list_wellformed ex_freed.1 ex_freed.2 2000 (mkSlabBlock 1 0 1000)
           ex_context_freed 1);
    [apply ex_freed_reachable' | by vm_compute | by vm_compute | simpl; lia].
Defined.

Lemma C5_witness :
  SlabAlloc None 1000 15 ex_created = Raised UnexpectedAllocChunkSize ex_created.
Proof.
  apply (C5_wrong_size_raises None 1000 15 ex_created ex_context_created);
    [by vm_compute | simpl; lia].
Defined.

Lemma C7_witness :
  ∃ s, contexts ex_eight.1 !! 1000 = Some s ∧
       SlabRealloc 2040 32 ex_eight.1
         = if decide (32 = chunkSize s) then Done 2040 ex_eight.1
           else Raised ReallocUnsupported ex_eight.1.
Proof.
  apply (C7_realloc ex_eight.1 ex_eight.2 2040 1000 32);
    [apply ex_eight_reachable' | by vm_compute].
Defined.

Lemma C8_witness :
  ∃ s, contexts ex_eight.1 !! 1000 = Some s ∧
       SlabGetChunkContext 3064 ex_eight.1 = Done 1000 ex_eight.1 ∧
       SlabGetChunkSpace 3064 ex_eight.1 = Done (fullChunkSize s) ex_eight.1 ∧
       fullChunkSize s = Slab_CHUNKHDRSZ + MAXALIGN (chunkSize s).
Proof.
  apply (C8_chunk_roundtrip ex_eight.1 ex_eight.2 3064 1000);
    [apply ex_eight_reachable' | by vm_compute].
Defined.

Lemma C4_witness :
  (∀ b B s, blocks ex_eight.1 !! b = Some B → contexts ex_eight.1 !! slab B = Some s →
     0 ≤ nfree B < chunksPerBlock s) ∧
  (∀ p c, ex_eight.2 !! p = Some c →
     ∃ s b B st',
       contexts ex_eight.1 !! c = Some s ∧
       MemoryChunkGetBlock (PointerGetMemoryChunk p) ex_eight.1 = Some b ∧
       blocks ex_eight.1 !! b = Some B ∧ SlabFree p ex_eight.1 = Done () st' ∧
       (nfree B + 1 = chunksPerBlock s →
          blocks st' !! b = None ∧ regions st' !! b = None ∧
          ∃ s', contexts st' !! c = Some s' ∧
                nblocks s' = to_int (nblocks s - 1) ∧
                mem_allocated s' = to_size (mem_allocated s - blockSize s))).
Proof. apply (C4_eager_reclaim ex_eight.1 ex_eight.2 ex_eight_reachable'). Defined.

Lemma C6_witness :
  SlabAlloc None 1000 (chunkSize ex_context_created) ex_created = Done None ex_created ∧
  (∀ m c' size st0 st',
     SlabAlloc m c' size st0 = Done None st' →
     m = None ∧ st' = st0 ∧
     ∃ s0, contexts st0 !! c' = Some s0 ∧ minFreeChunks s0 = 0 ∧ size = chunkSize s0) ∧
  (∀ p size st0 r st', SlabRealloc p size st0 = Done r st' → r = p ∧ st' = st0) ∧
  (∀ m blockSize0 chunkSize0 st0 c' st',
     SlabContextCreate m blockSize0 chunkSize0 st0 = Done c' st' →
     m = Some c' ∧ is_Some (contexts st' !! c')).
Proof.
  apply (C6_block_alloc_failure 1000 ex_created ex_context_created);
    [by vm_compute | reflexivity].
Defined.

Lemma C9_witness :
  ∃ st' s',
    SlabReset 1000 ex_eight.1 = Done () st' ∧ reachable (st', drop_context 1000 ex_eight.2) ∧
    contexts st' !! 1000 = Some s' ∧
    minFreeChunks s' = 0 ∧ nblocks s' = 0 ∧ mem_allocated s' = 0 ∧
    SlabIsEmpty 1000 st' = Done true st' ∧
    length (freelist s') = Z.to_nat (chunksPerBlock ex_context_eight + 1) ∧
    (∀ k l, freelist s' !! k = Some l → l = []) ∧
    (∀ b B, blocks ex_eight.1 !! b = Some B → slab B = 1000 →
       blocks st' !! b = None ∧ regions st' !! b = None) ∧
    regions st' !! 1000 = Some (headerSize s') ∧
    chunkSize s' = chunkSize ex_context_eight ∧ blockSize s' = blockSize ex_context_eight ∧
    (∀ a, malloc_fresh st' a (blockSize s') →
       ∃ p st'', SlabAlloc (Some a) 1000 (chunkSize s') st' = Done (Some p) st'').
Proof.
  apply (C9_reset ex_eight.1 ex_eight.2 1000 ex_context_eight);
    [apply ex_eight_reachable' | by vm_compute].
Defined.

Lemma C10_witness :
  (∀ c s a ms,
     contexts ex_eight.1 !! c = Some s → minFreeChunks s = 0 →
     malloc_fresh ex_eight.1 a (blockSize s) →
     Z.of_nat (length ms) < chunksPerBlock s →
     ∃ st', SlabAlloc_many (Some a :: ms) c (chunkSize s) ex_eight.1
            = Done ((λ i, Some (chunk_pointer s a i))
                      <$> seqZ 0 (1 + Z.of_nat (length ms))) st') ∧
  (∀ p c, ex_eight.2 !! p = Some c →
     ∃ s b i st1,
       contexts ex_eight.1 !! c = Some s ∧ 0 ≤ i < chunksPerBlock s ∧
       p = chunk_pointer s b i ∧
       MemoryChunkGetBlock (PointerGetMemoryChunk p) ex_eight.1 = Some b ∧
       i = to_int (SlabChunkIndex s b (PointerGetMemoryChunk p)) ∧
       SlabFree p ex_eight.1 = Done () st1 ∧
       ∀ B1, blocks st1 !! b = Some B1 →
         firstFreeChunk B1 = i ∧
         ∀ m size r st2 s1,
           contexts st1 !! c = Some s1 → malloc_valid st1 m (blockSize s1) →
           SlabAlloc m c size st1 = Done r st2 →
           blocks st2 !! b ≠ Some B1 → r = Some p) ∧
  (∀ c s m size r st' b B,
     contexts ex_eight.1 !! c = Some s → malloc_valid ex_eight.1 m (blockSize s) →
     SlabAlloc m c size ex_eight.1 = Done r st' →
     blocks ex_eight.1 !! b = Some B → blocks st' !! b ≠ Some B →
     r = Some (chunk_pointer s b (firstFreeChunk B))).
Proof. apply (C10_chunk_reuse_order ex_eight.1 ex_eight.2 ex_eight_reachable'). Defined.

End ScenarioProofs.

Section MoreScenarioProofs.
#[local] Existing Instance lp64.

Lemma ex_create_pre : SlabContextCreate_pre 128 16.
Proof. repeat split; vm_compute; congruence. Qed.

Lemma ex_create_pre_small : SlabContextCreate_pre 40 16.
Proof. repeat split; vm_compute; congruence. Qed.

Lemma ex_first_malloc : malloc_valid ex_created (Some 2000) (blockSize ex_context_created).
Proof. by apply malloc_fresh_decide. Qed.

Lemma X1_witness :
  ∃ s, Some 1000 = Some 1000 ∧ contexts ex_created = <[1000 := s]> (contexts empty_State) ∧
    regions ex_created = <[1000 := headerSize s]> (regions empty_State) ∧
    blocks ex_created = blocks empty_State ∧ words ex_created = words empty_State ∧
    chunkhdrs ex_created = chunkhdrs empty_State ∧
    chunkSize s = Z.max 16 sizeof_int ∧
    fullChunkSize s = Slab_CHUNKHDRSZ + MAXALIGN (chunkSize s) ∧
    blockSize s = 128 ∧
    chunksPerBlock s = (128 - sizeof_SlabBlock) / fullChunkSize s ∧
    1 ≤ chunksPerBlock s ∧
    sizeof_SlabBlock + chunksPerBlock s * fullChunkSize s ≤ 128 ∧
    128 < sizeof_SlabBlock + (chunksPerBlock s + 1) * fullChunkSize s ∧
    headerSize s
      = to_size (offsetof_freelist + to_size (sizeof_dlist_head * (chunksPerBlock s + 1))) ∧
    freelist s = replicate (Z.to_nat (chunksPerBlock s + 1)) [] ∧
    minFreeChunks s = 0 ∧ nblocks s = 0 ∧ mem_allocated s = 0.
Proof.
  apply (X1_create_geometry (Some 1000) 128 16 empty_State 1000 ex_created);
    [apply ex_create_pre | reflexivity].
Defined.

Lemma X2_witness :
  (40 < Slab_CHUNKHDRSZ + MAXALIGN (Z.max 16 sizeof_int) + sizeof_SlabBlock →
     SlabContextCreate (Some 1000) 40 16 empty_State
     = Raised BlockGeometryInvalid empty_State) ∧
  (Slab_CHUNKHDRSZ + MAXALIGN (Z.max 16 sizeof_int) + sizeof_SlabBlock ≤ 40 →
     SlabContextCreate None 40 16 empty_State = Raised HeaderAllocFailed empty_State ∧
     ∀ a, ∃ st', SlabContextCreate (Some a) 40 16 empty_State = Done a st').
Proof. apply (X2_create_errors (Some 1000) 40 16 empty_State), ex_create_pre_small. Defined.

Lemma X3_witness :
  nblocks ex_context_eight = to_int (Z.of_nat (length (concat (freelist ex_context_eight)))) ∧
  mem_allocated ex_context_eight
    = to_size (Z.of_nat (length (concat (freelist ex_context_eight)))
               * blockSize ex_context_eight) ∧
  (Z.of_nat (length (concat (freelist ex_context_eight))) ≤ INT_MAX →
     nblocks ex_context_eight = Z.of_nat (length (concat (freelist ex_context_eight))) ∧
     to_size (nblocks ex_context_eight * blockSize ex_context_eight)
       = mem_allocated ex_context_eight).
Proof.
  apply (X3_accounting ex_eight.1 ex_eight.2 1000 ex_context_eight);
    [apply ex_eight_reachable' | by vm_compute].
Defined.

Lemma X4_witness :
  ∃ s s', contexts ex_eight.1 !! 1000 = Some s ∧ contexts ex_eight.1 !! 1000 = Some s' ∧
    (2040 + MAXALIGN (chunkSize s) ≤ PointerGetMemoryChunk 2064 ∨
     2064 + MAXALIGN (chunkSize s') ≤ PointerGetMemoryChunk 2040).
Proof.
  apply (X4_held_chunks_disjoint ex_eight.1 ex_eight.2 2040 2064 1000 1000);
    [apply ex_eight_reachable' | by vm_compute | by vm_compute | lia].
Defined.

Lemma X5_witness :
  (∅ : gmap Z Z) !! 2040 = None ∧ reachable (ex_one.1, <[2040 := 1000]> ∅) ∧
  SlabGetChunkContext 2040 ex_one.1 = Done 1000 ex_one.1.
Proof.
  apply (X5_alloc_returns_unheld ex_created ∅ 1000 ex_context_created (Some 2000) 16 2040
           ex_one.1);
    [apply ex_created_reachable | by vm_compute | apply ex_first_malloc | by vm_compute].
Defined.

Lemma X6_witness :
  ∃ s', contexts ex_one.1 !! 1000 = Some s' ∧
    if decide (minFreeChunks ex_context_created = 0)
    then ∃ a, Some 2000 = Some a ∧ 2040 = chunk_pointer ex_context_created a 0 ∧
              regions ex_one.1 = <[a := blockSize ex_context_created]> (regions ex_created) ∧
              nblocks s' = to_int (nblocks ex_context_created + 1) ∧
              mem_allocated s'
                = to_size (mem_allocated ex_context_created + blockSize ex_context_created)
    else ∃ b l B, bucket (freelist ex_context_created) (minFreeChunks ex_context_created)
                    = Some (b :: l) ∧
              blocks ex_created !! b = Some B ∧ nfree B = minFreeChunks ex_context_created ∧
              2040 = chunk_pointer ex_context_created b (firstFreeChunk B) ∧
              regions ex_one.1 = regions ex_created ∧
              nblocks s' = nblocks ex_context_created ∧
              mem_allocated s' = mem_allocated ex_context_created.
Proof.
  apply (X6_alloc_source ex_created ∅ 1000 ex_context_created (Some 2000) 16 2040 ex_one.1);
    [apply ex_created_reachable | by vm_compute | apply ex_first_malloc | by vm_compute].
Defined.

Lemma X7_witness :
  (∀ m c s size r st',
     contexts ex_eight.1 !! c = Some s → malloc_valid ex_eight.1 m (blockSize s) →
     SlabAlloc m c size ex_eight.1 = Done r st' →
     others_untouched c ex_eight.2 ex_eight.1 st') ∧
  (∀ p c st',
     ex_eight.2 !! p = Some c → SlabFree p ex_eight.1 = Done () st' →
     others_untouched c (delete p ex_eight.2) ex_eight.1 st').
Proof. apply (X7_calls_are_local ex_eight.1 ex_eight.2 ex_eight_reachable'). Defined.

Lemma X8_witness :
  ∃ st',
    SlabDelete 1000 ex_eight.1 = Done () st' ∧ reachable (st', drop_context 1000 ex_eight.2) ∧
    contexts st' !! 1000 = None ∧ regions st' !! 1000 = None ∧
    (∀ b B, blocks ex_eight.1 !! b = Some B → slab B = 1000 →
       blocks st' !! b = None ∧ regions st' !! b = None) ∧
    (∀ p, drop_context 1000 ex_eight.2 !! p ≠ Some 1000) ∧
    (∀ m size, SlabAlloc m 1000 size st' = Undefined) ∧
    (∀ c', c' ≠ 1000 → contexts st' !! c' = contexts ex_eight.1 !! c') ∧
    (∀ b B, blocks ex_eight.1 !! b = Some B → slab B ≠ 1000 →
       blocks st' !! b = Some B ∧ regions st' !! b = regions ex_eight.1 !! b) ∧
    words st' = words ex_eight.1 ∧ chunkhdrs st' = chunkhdrs ex_eight.1.
Proof.
  apply (X8_delete ex_eight.1 ex_eight.2 1000 ex_context_eight);
    [apply ex_eight_reachable' | by vm_compute].
Defined.

Lemma X9_witness :
  ∃ st',
    SlabReset 1000 ex_eight.1 = Done () st' ∧ SlabReset 1000 st' = Done () st' ∧
    (∀ c', c' ≠ 1000 → contexts st' !! c' = contexts ex_eight.1 !! c') ∧
    (∀ b B, blocks ex_eight.1 !! b = Some B → slab B ≠ 1000 →
       blocks st' !! b = Some B ∧ regions st' !! b = regions ex_eight.1 !! b) ∧
    words st' = words ex_eight.1 ∧ chunkhdrs st' = chunkhdrs ex_eight.1.
Proof.
  apply (X9_reset_idempotent ex_eight.1 ex_eight.2 1000 ex_context_eight);
    [apply ex_eight_reachable' | by vm_compute].
Defined.

Lemma X10_witness :
  ∃ r, SlabIsEmpty 1000 ex_created = Done r ex_created ∧
       (concat (freelist ex_context_created) = [] → r = true) ∧
       (r = true → Z.of_nat (length (concat (freelist ex_context_created))) < 4294967296 →
          concat (freelist ex_context_created) = [] ∧ ∀ p, (∅ : gmap Z Z) !! p ≠ Some 1000).
Proof.
  apply (X10_is_empty ex_created ∅ 1000 ex_context_created);
    [apply ex_created_reachable | by vm_compute].
Defined.

Lemma X11_witness :
  (∀ c s, contexts ex_eight.1 !! c = Some s →
     created_geometry s ∧
     sizeof_SlabBlock + chunksPerBlock s * fullChunkSize s ≤ blockSize s ∧
     blockSize s < sizeof_SlabBlock + (chunksPerBlock s + 1) * fullChunkSize s) ∧
  (∀ st' L' c s s', step (ex_eight.1, ex_eight.2) (st', L') →
     contexts ex_eight.1 !! c = Some s → contexts st' !! c = Some s' → same_geometry s s').
Proof. apply (X11_geometry_fixed ex_eight.1 ex_eight.2 ex_eight_reachable'). Defined.

Lemma X12_witness :
  0 ≤ free_chunks 1000 ex_context_freed ex_freed.2 ∧
  SlabStats 1000 true (Some (mkMemoryContextCounters 1 2 3 4)) ex_freed.1
    = Done (Some (mk_stats_string
                    (to_size (headerSize ex_context_freed
                              + linked_blocks ex_context_freed * blockSize ex_context_freed))
                    (to_size (linked_blocks ex_context_freed))
                    (to_size (fullChunkSize ex_context_freed
                              * free_chunks 1000 ex_context_freed ex_freed.2))
                    (to_size (free_chunks 1000 ex_context_freed ex_freed.2))
                    (to_size (headerSize ex_context_freed
                              + linked_blocks ex_context_freed * blockSize ex_context_freed
                              - fullChunkSize ex_context_freed
                                * free_chunks 1000 ex_context_freed ex_freed.2))),
            Some (mkMemoryContextCounters
                    (to_size (1 + linked_blocks ex_context_freed))
                    (to_size (2 + free_chunks 1000 ex_context_freed ex_freed.2))
                    (to_size (3 + (headerSize ex_context_freed
                                   + linked_blocks ex_context_freed
                                     * blockSize ex_context_freed)))
                    (to_size (4 + fullChunkSize ex_context_freed
                                  * free_chunks 1000 ex_context_freed ex_freed.2))))
           ex_freed.1.
Proof.
  apply (X12_stats ex_freed.1 ex_freed.2 1000 ex_context_freed true
           (Some (mkMemoryContextCounters 1 2 3 4)));
    [apply ex_freed_reachable' | by vm_compute].
Defined.

Lemma X13_witness :
  ∃ ws, SlabCheck 4 (λ _, true) 1000 ex_freed.1 = Done ws ex_freed.1 ∧
        Forall (sentinel_warning ex_freed.2 1000 (λ _, true)) ws ∧
        ((∀ chunk : Z, true = true) → ws = []).
Proof.
  apply (X13_check_finds_nothing ex_freed.1 ex_freed.2 1000 ex_context_freed 4 (λ _, true));
    [apply ex_freed_reachable' | by vm_compute | simpl; lia].
Defined.

Lemma X14_witness :
  ∃ st2 mfc, SlabFree 2040 ex_one.1 = Done () st2 ∧ reachable (st2, ∅) ∧
    contexts st2 = <[1000 := set_minFreeChunks mfc ex_context_created]> (contexts ex_created) ∧
    blocks st2 = blocks ex_created ∧ regions st2 = regions ex_created.
Proof.
  apply (X14_alloc_free_roundtrip ex_created ∅ 1000 ex_context_created (Some 2000) 16 2040
           ex_one.1);
    [apply ex_created_reachable | by vm_compute | apply ex_first_malloc | by vm_compute].
Defined.

Lemma X15_witness :
  ∃ s b B i,
    contexts ex_eight.1 !! 1000 = Some s ∧ blocks ex_eight.1 !! b = Some B ∧ slab B = 1000 ∧
    regions ex_eight.1 !! b = Some (blockSize s) ∧ 0 ≤ i < chunksPerBlock s ∧
    3064 = b + sizeof_SlabBlock + i * fullChunkSize s + Slab_CHUNKHDRSZ ∧
    b + sizeof_SlabBlock + Slab_CHUNKHDRSZ ≤ 3064 ∧
    3064 + chunkSize s ≤ b + blockSize s.
Proof.
  apply (X15_held_chunk_in_block ex_eight.1 ex_eight.2 3064 1000);
    [apply ex_eight_reachable' | by vm_compute].
Defined.

Lemma X16_witness :
  (∀ a n, regions ex_eight.1 !! a = Some n ↔
     (∃ s, contexts ex_eight.1 !! a = Some s ∧ n = headerSize s) ∨
     (∃ B s, blocks ex_eight.1 !! a = Some B ∧ contexts ex_eight.1 !! slab B = Some s ∧
             a ∈ concat (freelist s) ∧ n = blockSize s)) ∧
  (contexts ex_eight.1 = ∅ → regions ex_eight.1 = ∅ ∧ blocks ex_eight.1 = ∅).
Proof. apply (X16_no_leak ex_eight.1 ex_eight.2 ex_eight_reachable'). Defined.

Lemma X17_witness :
  SlabChunkIndex ex_context_eight 2000 (SlabBlockGetChunk ex_context_eight 2000 2 + 8) = 2 ∧
  SlabBlockGetChunk ex_context_eight 2000
    (SlabChunkIndex ex_context_eight 2000 (SlabBlockGetChunk ex_context_eight 2000 2 + 8))
    = SlabBlockGetChunk ex_context_eight 2000 2 ∧
  SlabPointerGetChunk (SlabChunkGetPointer (SlabBlockGetChunk ex_context_eight 2000 2))
    = SlabBlockGetChunk ex_context_eight 2000 2.
Proof. apply (X17_chunk_index_roundtrip ex_context_eight 2000 2 8); simpl; lia. Defined.

Lemma X18_witness :
  (∀ c s, contexts ex_eight.1 !! c = Some s → fullChunkSize s mod MAXIMUM_ALIGNOF = 0) ∧
  (∀ p c, ex_eight.2 !! p = Some c →
     ∃ b, MemoryChunkGetBlock (PointerGetMemoryChunk p) ex_eight.1 = Some b ∧
          (p - SlabChunkGetPointer (SlabBlockStart b)) mod MAXIMUM_ALIGNOF = 0).
Proof. apply (X18_chunks_aligned ex_eight.1 ex_eight.2 ex_eight_reachable'). Defined.

End MoreScenarioProofs.
